(** * OrcaStream: chunked container stream of OpenRCT2

    A shallow embedding of [src/openrct2/core/OrcaStream.hpp].  The C++
    class keeps its state in member variables and reports failures by
    throwing; here every operation is a function on an explicit state that
    returns either a value with the new state or the exception raised. *)

From Stdlib Require Import ZArith Lia.
From Stdlib.Strings Require Import Byte.
From stdpp Require Import base option list.

Local Open Scope Z_scope.

(** ** Bytes and raw scalar images *)

Definition Z_of_byte (b : byte) : Z := Z.of_N (Byte.to_N b).

Definition byte_of_Z (z : Z) : byte :=
  default x00 (Byte.of_N (Z.to_N (z mod 256))).

(** The raw image of an [n]-byte scalar on a little-endian host. *)
Fixpoint le_bytes (n : nat) (v : Z) : list byte :=
  match n with
  | O => []
  | S n' => byte_of_Z v :: le_bytes n' (v / 256)
  end.

Fixpoint le_value (bs : list byte) : Z :=
  match bs with
  | [] => 0
  | b :: bs' => Z_of_byte b + 256 * le_value bs'
  end.

Definition uint32_max : Z := 2 ^ 32.
Definition uint64_max : Z := 2 ^ 64.

(** [static_cast<uint32_t>] and arithmetic in [size_t] / [uint64_t]. *)
Definition to_uint32 (z : Z) : Z := z mod uint32_max.
Definition to_size_t (z : Z) : Z := z mod uint64_max.

(** ** Exceptions *)

(** The error kinds of the container.  [PositionOutOfBounds] is a seek
    outside the buffer, [NoArrayFrame] is [std::stack::top] on an empty
    stack, and [OutOfFuel] belongs to the model only: [ReadString_fuel_enough]
    and [throws_only_read_blocks] show that the loops of [ReadString] and of
    the constructor never run into it. *)
Inductive error : Type :=
  | Truncated
  | BadMagic
  | VersionTooNew
  | InflateError
  | IntegrityError
  | SizeMismatch
  | MalformedArray
  | FinalizationError
  | UnexpectedEndOfStream
  | PositionOutOfBounds
  | NoArrayFrame
  | OutOfFuel.

Inductive result (A : Type) : Type :=
  | Ok (a : A)
  | Err (e : error).
Arguments Ok {A} a.
Arguments Err {A} e.

(** ** MemoryStream *)

Module MemoryStream.

(** Modelled from the spec: [MemoryStream.h] is not part of the sources.
    Section 4.1 describes a growable byte buffer with a position cursor:
    reads past the end fail with UnexpectedEndOfStream, a write stores at
    the cursor and grows the buffer as needed, and the cursor is set
    within [0, length]. *)
Record t : Type := Build { data : list byte; position : nat }.

Definition empty : t := Build [] 0.

Definition GetPosition (m : t) : Z := Z.of_nat (position m).
Definition GetLength (m : t) : Z := Z.of_nat (length (data m)).
Definition GetData (m : t) : list byte := data m.

Definition SetPosition (p : Z) (m : t) : result t :=
  if bool_decide (0 <= p <= GetLength m)
  then Ok (Build (data m) (Z.to_nat p))
  else Err PositionOutOfBounds.

Definition Read (n : nat) (m : t) : result (list byte * t) :=
  if bool_decide (position m + n <= length (data m))%nat
  then Ok (take n (drop (position m) (data m)),
           Build (data m) (position m + n))
  else Err UnexpectedEndOfStream.

Definition Write (bs : list byte) (m : t) : t :=
  Build (take (position m) (data m) ++ bs
           ++ drop (position m + length bs) (data m))
        (position m + length bs).

Definition Clear (m : t) : t := empty.

(** The cursor lies inside the buffer. *)
Definition wf (m : t) : Prop := (position m <= length (data m))%nat.

End MemoryStream.

(** ** The stream primitives seen by a chunk codec *)

Inductive Mode : Type := READING | WRITING.

Record ArrayState : Type := mkArrayState {
  StartPos : Z;
  LastPos : Z;
  Count : Z;
  ElementSize : Z
}.

Definition ArrayState_init : ArrayState := mkArrayState 0 0 0 0.

Record ChunkStream : Type := mkChunkStream {
  cs_buffer : MemoryStream.t;
  cs_mode : Mode;
  cs_arrayStack : list ArrayState
}.

(** Code running against a state [S]: it may throw, and otherwise returns
    a value and leaves the state changed. *)
Definition St (S A : Type) : Type := S -> result (A * S).

Definition ret {S A} (a : A) : St S A := fun s => Ok (a, s).

Definition bind {S A B} (m : St S A) (k : A -> St S B) : St S B :=
  fun s =>
    match m s with
    | Ok (a, s') => k a s'
    | Err e => Err e
    end.

Definition throw {S A} (e : error) : St S A := fun _ => Err e.

(** A chunk codec runs against the chunk stream. *)
Definition M (A : Type) : Type := St ChunkStream A.

Declare Scope orca_scope.
Delimit Scope orca_scope with orca.
Notation "x <- m ;; k" := (bind m (fun x => k))
  (at level 100, m at next level, right associativity) : orca_scope.
Notation "m ;;; k" := (bind m (fun _ => k))
  (at level 100, right associativity) : orca_scope.
Local Open Scope orca_scope.

Definition GetMode : M Mode := fun cs => Ok (cs_mode cs, cs).

Definition GetPosition : M Z :=
  fun cs => Ok (MemoryStream.GetPosition (cs_buffer cs), cs).

Definition SetPosition (p : Z) : M unit :=
  fun cs =>
    match MemoryStream.SetPosition p (cs_buffer cs) with
    | Ok b => Ok (tt, mkChunkStream b (cs_mode cs) (cs_arrayStack cs))
    | Err e => Err e
    end.

Definition ReadBuffer (len : nat) : M (list byte) :=
  fun cs =>
    match MemoryStream.Read len (cs_buffer cs) with
    | Ok (bs, b) => Ok (bs, mkChunkStream b (cs_mode cs) (cs_arrayStack cs))
    | Err e => Err e
    end.

Definition WriteBuffer (bs : list byte) : M unit :=
  fun cs =>
    Ok (tt, mkChunkStream (MemoryStream.Write bs (cs_buffer cs))
              (cs_mode cs) (cs_arrayStack cs)).

(** [ReadWrite(void* addr, size_t len)]: the memory at [addr] is the byte
    list [bs]; the result is what the memory holds afterwards. *)
Definition ReadWrite_raw (bs : list byte) : M (list byte) :=
  mode <- GetMode ;;
  match mode with
  | READING => ReadBuffer (length bs)
  | WRITING => WriteBuffer bs ;;; ret bs
  end.

(** [ReadWrite(T& v)] for a trivially copyable [T] with [sizeof(T) = n];
    the value is the unsigned number its raw image denotes. *)
Definition ReadWrite (n : nat) (v : Z) : M Z :=
  bs <- ReadWrite_raw (le_bytes n v) ;;
  ret (le_value bs).

(** [Read<T>()] *)
Definition Read (n : nat) : M Z := ReadWrite n 0.

(** [Write(const T& v)] *)
Definition Write (n : nat) (v : Z) : M unit :=
  mode <- GetMode ;;
  match mode with
  | READING => ReadWrite n 0 ;;; ret tt
  | WRITING => ReadWrite n v ;;; ret tt
  end.

(** [ReadWriteAs<TMem, TSave>(TMem& v)] for unsigned integral types with
    [sizeof(TMem) = m] and [sizeof(TSave) = n]: the conversion to [TSave]
    and the [static_cast] back to [TMem] keep the value modulo the size of
    their target.  A reader's [sv] starts uninitialised, taken as zero, and
    is overwritten by the read. *)
Definition ReadWriteAs (m n : nat) (v : Z) : M Z :=
  mode <- GetMode ;;
  let sv := match mode with
            | READING => 0
            | WRITING => v mod 256 ^ Z.of_nat n
            end in
  bs <- ReadWrite_raw (le_bytes n sv) ;;
  let sv' := le_value bs in
  mode' <- GetMode ;;
  match mode' with
  | READING => ret (sv' mod 256 ^ Z.of_nat m)
  | WRITING => ret v
  end.

(** ** Strings *)

Definition is_nul (b : byte) : bool := Byte.eqb b x00.

(** [s.find('\0')], with [npos] replaced by [s.size()] as [WriteString]
    does. *)
Fixpoint find_nul (s : list byte) : nat :=
  match s with
  | [] => O
  | b :: s' => if is_nul b then O else S (find_nul s')
  end.

Definition WriteString (s : list byte) : M unit :=
  let len := find_nul s in
  WriteBuffer (take len s) ;;;
  WriteBuffer [x00].

(** The [while (true)] loop of [ReadString]; every round reads one byte, so
    the number of bytes left in the buffer bounds the number of rounds. *)
Fixpoint ReadString_loop (fuel : nat) (buffer : list byte) : M (list byte) :=
  bs <- ReadBuffer 1 ;;
  match bs with
  | [c] =>
      if is_nul c then ret buffer
      else match fuel with
           | O => throw OutOfFuel
           | S fuel' => ReadString_loop fuel' (buffer ++ [c])
           end
  | _ => throw UnexpectedEndOfStream
  end.

Definition ReadString : M (list byte) :=
  fun cs =>
    ReadString_loop
      (length (MemoryStream.data (cs_buffer cs))
       - MemoryStream.position (cs_buffer cs)) [] cs.

(** [ReadWrite(std::string& v)] *)
Definition ReadWrite_string (v : list byte) : M (list byte) :=
  mode <- GetMode ;;
  match mode with
  | READING => ReadString
  | WRITING => WriteString v ;;; ret v
  end.

(** [Write(const std::string_view& v)] *)
Definition Write_string (v : list byte) : M unit :=
  mode <- GetMode ;;
  match mode with
  | READING => ReadWrite_string [] ;;; ret tt
  | WRITING => WriteString v
  end.

(** [Write(const std::string& v)] *)
Definition Write_std_string (v : list byte) : M unit := Write_string v.

(** ** Array framing *)

(** [_arrayStack.top()], [emplace()] and [pop()]; the head of the list is
    the top of the stack. *)
Definition top : M ArrayState :=
  fun cs =>
    match cs_arrayStack cs with
    | st :: _ => Ok (st, cs)
    | [] => Err NoArrayFrame
    end.

Definition set_top (st : ArrayState) : M unit :=
  fun cs =>
    match cs_arrayStack cs with
    | _ :: stack => Ok (tt, mkChunkStream (cs_buffer cs) (cs_mode cs) (st :: stack))
    | [] => Err NoArrayFrame
    end.

Definition emplace : M unit :=
  fun cs =>
    Ok (tt, mkChunkStream (cs_buffer cs) (cs_mode cs)
              (ArrayState_init :: cs_arrayStack cs)).

Definition pop : M unit :=
  fun cs =>
    match cs_arrayStack cs with
    | _ :: stack => Ok (tt, mkChunkStream (cs_buffer cs) (cs_mode cs) stack)
    | [] => Err NoArrayFrame
    end.

(** The new frame is written into the top of the stack once its fields are
    known; the constructor of [ArrayState] leaves [StartPos] of a reader's
    frame at zero. *)
Definition BeginArray : M Z :=
  emplace ;;;
  mode <- GetMode ;;
  match mode with
  | READING =>
      count <- Read 4 ;;
      elementSize <- Read 4 ;;
      pos <- GetPosition ;;
      set_top (mkArrayState 0 pos count elementSize) ;;;
      ret count
  | WRITING =>
      start <- GetPosition ;;
      Write 4 0 ;;;
      Write 4 0 ;;;
      pos <- GetPosition ;;
      set_top (mkArrayState start pos 0 0) ;;;
      ret 0
  end.

Definition NextArrayElement : M bool :=
  arrayState <- top ;;
  mode <- GetMode ;;
  match mode with
  | READING =>
      if Count arrayState =? 0 then ret false
      else
        lastPos <-
          (if negb (ElementSize arrayState =? 0) then
             let lastPos := LastPos arrayState + ElementSize arrayState in
             SetPosition lastPos ;;; ret lastPos
           else ret (LastPos arrayState)) ;;
        set_top (mkArrayState (StartPos arrayState) lastPos
                   (Count arrayState - 1) (ElementSize arrayState)) ;;;
        ret (Count arrayState - 1 =? 0)
  | WRITING =>
      pos <- GetPosition ;;
      let lastElSize := to_size_t (pos - LastPos arrayState) in
      let elementSize :=
        if Count arrayState =? 0 then lastElSize
        else if negb (ElementSize arrayState =? lastElSize) then 0
             else ElementSize arrayState in
      set_top (mkArrayState (StartPos arrayState) pos
                 (to_size_t (Count arrayState + 1)) elementSize) ;;;
      ret true
  end.

Definition EndArray : M unit :=
  arrayState <- top ;;
  mode <- GetMode ;;
  match mode with
  | READING => ret tt
  | WRITING =>
      backupPos <- GetPosition ;;
      if negb (backupPos =? to_size_t (StartPos arrayState + 8))
         && (Count arrayState =? 0)
      then throw MalformedArray
      else
        SetPosition (StartPos arrayState) ;;;
        Write 4 (to_uint32 (Count arrayState)) ;;;
        Write 4 (to_uint32 (ElementSize arrayState)) ;;;
        SetPosition backupPos
  end ;;;
  pop.

Section Arrays.

(** The element type, its value-initialised object ([T{}]) and the
    element codec the caller passes in. *)
Context {A : Type}.
Variable dflt : A.

Section Vector.

Variable f : A -> M A.

(** [for (size_t i = 0; i < count; i++)] of the reading branch, with
    [n] rounds to go. *)
Fixpoint ReadWriteVector_read (n : nat) (vec : list A) : M (list A) :=
  match n with
  | O => ret vec
  | S n' =>
      el <- f dflt ;;
      NextArrayElement ;;;
      ReadWriteVector_read n' (vec ++ [el])
  end.

(** [for (auto& el : vec)] of the writing branch. *)
Fixpoint ReadWriteVector_write (vec : list A) : M (list A) :=
  match vec with
  | [] => ret []
  | el :: vec' =>
      el' <- f el ;;
      NextArrayElement ;;;
      rest <- ReadWriteVector_write vec' ;;
      ret (el' :: rest)
  end.

Definition ReadWriteVector (vec : list A) : M (list A) :=
  mode <- GetMode ;;
  match mode with
  | READING =>
      count <- BeginArray ;;
      vec' <- ReadWriteVector_read (Z.to_nat count) [] ;;
      EndArray ;;;
      ret vec'
  | WRITING =>
      BeginArray ;;;
      vec' <- ReadWriteVector_write vec ;;
      EndArray ;;;
      ret vec'
  end.

End Vector.

Section Array.

(** The element codec of [ReadWriteArray] also answers whether the
    element counts ([if (f(el))] in the writing branch). *)
Variable f : A -> M (bool * A).

(** [for (size_t i = 0; i < count; i++)] of the reading branch with
    [n] rounds to go; [TArrSize] is the length of [arr], so [arr !! i]
    is defined exactly when [i < TArrSize]. *)
Fixpoint ReadWriteArray_read (n : nat) (i : nat) (arr : list A) : M (list A) :=
  match n with
  | O => ret arr
  | S n' =>
      arr' <-
        match arr !! i with
        | Some el => r <- f el ;; ret (<[i := r.2]> arr)
        | None => ret arr
        end ;;
      NextArrayElement ;;;
      ReadWriteArray_read n' (S i) arr'
  end.

Fixpoint ReadWriteArray_write (arr : list A) : M (list A) :=
  match arr with
  | [] => ret []
  | el :: arr' =>
      r <- f el ;;
      (if r.1 then NextArrayElement else ret false) ;;;
      rest <- ReadWriteArray_write arr' ;;
      ret (r.2 :: rest)
  end.

Definition ReadWriteArray (arr : list A) : M (list A) :=
  mode <- GetMode ;;
  match mode with
  | READING =>
      count <- BeginArray ;;
      arr' <- ReadWriteArray_read (Z.to_nat count) 0 ((fun _ => dflt) <$> arr) ;;
      EndArray ;;;
      ret arr'
  | WRITING =>
      BeginArray ;;;
      arr' <- ReadWriteArray_write arr ;;
      EndArray ;;;
      ret arr'
  end.

End Array.

End Arrays.

(** ** Codecs built from the primitives *)

(** What a codec traverses: scalars of a given size, strings, vectors,
    fixed-size arrays, and sequences of fields. *)
Inductive ty : Type :=
  | TScalar (n : nat)
  | TString
  | TVector (t : ty)
  | TArray (n : nat) (t : ty)
  | TUnit
  | TPair (a b : ty).

Fixpoint val (t : ty) : Type :=
  match t with
  | TScalar _ => Z
  | TString => list byte
  | TVector t' => list (val t')
  | TArray _ t' => list (val t')
  | TUnit => unit
  | TPair a b => (val a * val b)%type
  end.

(** The value-initialised object of each type. *)
Fixpoint val_default (t : ty) : val t :=
  match t with
  | TScalar _ => 0
  | TString => []
  | TVector _ => []
  | TArray n t' => replicate n (val_default t')
  | TUnit => tt
  | TPair a b => (val_default a, val_default b)
  end.

(** The one traversal that serves both directions. *)
Fixpoint rw (t : ty) : val t -> M (val t) :=
  match t with
  | TScalar n => fun v => ReadWrite n v
  | TString => fun v => ReadWrite_string v
  | TVector t' => fun v => ReadWriteVector (val_default t') (rw t') v
  | TArray _ t' => fun v =>
      ReadWriteArray (val_default t')
        (fun el => el' <- rw t' el ;; ret (true, el')) v
  | TUnit => fun v => ret v
  | TPair a b => fun v =>
      x <- rw a v.1 ;;
      y <- rw b v.2 ;;
      ret (x, y)
  end.

(** ** The container envelope *)

Module IStream.

(** Modelled from the spec: [IStream] ([FileStream.h]) is not part of the
    sources.  Section 6 gives the byte stream a [read] and a [write] at
    its current position; a read that finds fewer bytes than asked for
    fails with Truncated (section 4.2, step 3). *)
Record t : Type := Build { data : list byte; position : nat }.

Definition Read (n : nat) : St t (list byte) :=
  fun s =>
    if bool_decide (position s + n <= length (data s))%nat
    then Ok (take n (drop (position s) (data s)),
             Build (data s) (position s + n))
    else Err Truncated.

(** The stream after [bs] is stored at its position. *)
Definition put (bs : list byte) (s : t) : t :=
  Build (take (position s) (data s) ++ bs
           ++ drop (position s + length bs) (data s))
        (position s + length bs).

Definition Write (bs : list byte) : St t unit :=
  fun s => Ok (tt, put bs s).

End IStream.

Definition COMPRESSION_NONE : Z := 0.
Definition COMPRESSION_GZIP : Z := 1.

(** [struct Header], packed; [Sha1] and [padding] are kept as the numbers
    their 20 and 8 bytes denote. *)
Record Header : Type := mkHeader {
  Magic : Z;
  TargetVersion : Z;
  MinVersion : Z;
  NumChunks : Z;
  UncompressedSize : Z;
  Compression : Z;
  CompressedSize : Z;
  Sha1 : Z;
  padding : Z
}.

Definition Header_init : Header := mkHeader 0 0 0 0 0 0 0 0 0.

Record ChunkEntry : Type := mkChunkEntry {
  Id : Z;
  Offset : Z;
  Length : Z
}.

Definition ChunkEntry_init : ChunkEntry := mkChunkEntry 0 0 0.

(** The scalar stored in [len] bytes at offset [off] of a raw image. *)
Definition field (off len : nat) (bs : list byte) : Z :=
  le_value (take len (drop off bs)).

Definition Header_bytes (h : Header) : list byte :=
  le_bytes 4 (Magic h) ++ le_bytes 4 (TargetVersion h)
  ++ le_bytes 4 (MinVersion h) ++ le_bytes 4 (NumChunks h)
  ++ le_bytes 8 (UncompressedSize h) ++ le_bytes 4 (Compression h)
  ++ le_bytes 8 (CompressedSize h) ++ le_bytes 20 (Sha1 h)
  ++ le_bytes 8 (padding h).

Definition Header_of_bytes (bs : list byte) : Header :=
  mkHeader (field 0 4 bs) (field 4 4 bs) (field 8 4 bs) (field 12 4 bs)
    (field 16 8 bs) (field 24 4 bs) (field 28 8 bs) (field 36 20 bs)
    (field 56 8 bs).

Definition ChunkEntry_bytes (e : ChunkEntry) : list byte :=
  le_bytes 4 (Id e) ++ le_bytes 8 (Offset e) ++ le_bytes 8 (Length e).

Definition ChunkEntry_of_bytes (bs : list byte) : ChunkEntry :=
  mkChunkEntry (field 0 4 bs) (field 4 8 bs) (field 12 8 bs).

(** [ReadValue<T>] and [WriteValue<T>] for the two packed structs. *)
Definition ReadValue_Header : St IStream.t Header :=
  bs <- IStream.Read 64 ;; ret (Header_of_bytes bs).

Definition WriteValue_Header (h : Header) : St IStream.t unit :=
  IStream.Write (Header_bytes h).

Definition ReadValue_ChunkEntry : St IStream.t ChunkEntry :=
  bs <- IStream.Read 20 ;; ret (ChunkEntry_of_bytes bs).

Definition WriteValue_ChunkEntry (e : ChunkEntry) : St IStream.t unit :=
  IStream.Write (ChunkEntry_bytes e).

Record OrcaStream : Type := mkOrcaStream {
  _stream : IStream.t;
  _mode : Mode;
  _header : Header;
  _chunks : list ChunkEntry;
  _buffer : MemoryStream.t;
  _currentChunk : ChunkEntry
}.

Section Envelope.

(** Modelled from the spec: [util_zlib_inflate], [util_zlib_deflate] and
    [Crypt::SHA1] are not part of the sources.  Section 6 has the two zlib
    functions take bytes and return bytes, an absent result standing for
    their failure, and the hash return a 20-byte digest, kept here as the
    number its bytes denote. *)
Variable util_zlib_inflate : list byte -> option (list byte).
Variable util_zlib_deflate : list byte -> option (list byte).
Variable SHA1 : list byte -> Z.

(** The loop that fills [_chunks], with [n] entries to go. *)
Fixpoint read_chunk_table (n : nat) (chunks : list ChunkEntry)
  : St IStream.t (list ChunkEntry) :=
  match n with
  | O => ret chunks
  | S n' =>
      entry <- ReadValue_ChunkEntry ;;
      read_chunk_table n' (chunks ++ [entry])
  end.

(** The [do ... while (bytesLeft > 0)] loop reading the payload in blocks
    of [sizeof(temp)] bytes.  Every round but the last takes a whole
    block, so [bytesLeft / 2048] further rounds are enough. *)
Fixpoint read_blocks (fuel : nat) (bytesLeft : Z) (buffer : MemoryStream.t)
  : St IStream.t MemoryStream.t :=
  let readLen := Z.min bytesLeft 2048 in
  temp <- IStream.Read (Z.to_nat readLen) ;;
  let buffer' := MemoryStream.Write temp buffer in
  let bytesLeft' := bytesLeft - readLen in
  if bytesLeft' >? 0 then
    match fuel with
    | O => throw OutOfFuel
    | S fuel' => read_blocks fuel' bytesLeft' buffer'
    end
  else ret buffer'.

(** What the reading constructor does once it has the header: the chunk
    table, the payload, and its inflation.  The constructor does not look
    at what [util_zlib_inflate] returns: after a failed inflate
    [outUncompressedSize] is still zero, so the buffer is cleared and
    nothing is written to it. *)
Definition read_payload (header : Header)
  : St IStream.t (list ChunkEntry * MemoryStream.t) :=
  chunks <- read_chunk_table (Z.to_nat (NumChunks header)) [] ;;
  buffer <- read_blocks (Z.to_nat (CompressedSize header / 2048))
              (CompressedSize header) MemoryStream.empty ;;
  if Compression header =? COMPRESSION_GZIP then
    let uncompressedData :=
      match util_zlib_inflate (MemoryStream.GetData buffer) with
      | Some data => data
      | None => []
      end in
    ret (chunks, MemoryStream.Write uncompressedData (MemoryStream.Clear buffer))
  else ret (chunks, buffer).

(** The constructor. *)
Definition OrcaStream_new (stream : IStream.t) (mode : Mode) : result OrcaStream :=
  match mode with
  | READING =>
      match (header <- ReadValue_Header ;;
             payload <- read_payload header ;;
             ret (header, payload)) stream with
      | Ok (header, (chunks, buffer), stream') =>
          Ok (mkOrcaStream stream' READING header chunks buffer ChunkEntry_init)
      | Err e => Err e
      end
  | WRITING =>
      Ok (mkOrcaStream stream WRITING
            (mkHeader 0 0 0 0 0 COMPRESSION_GZIP 0 0 0)
            [] MemoryStream.empty ChunkEntry_init)
  end.

(** [for (const auto& chunk : _chunks) _stream->WriteValue(chunk)] *)
Fixpoint write_chunk_table (chunks : list ChunkEntry) : St IStream.t unit :=
  match chunks with
  | [] => ret tt
  | chunk :: chunks' =>
      WriteValue_ChunkEntry chunk ;;; write_chunk_table chunks'
  end.

(** The header as the destructor fills it in, and the deflated payload
    when there is one. *)
Definition finalize_header (s : OrcaStream) : Header * option (list byte) :=
  let uncompressedData := MemoryStream.GetData (_buffer s) in
  let uncompressedSize := MemoryStream.GetLength (_buffer s) in
  let h := _header s in
  let h1 := mkHeader (Magic h) (TargetVersion h) (MinVersion h)
              (to_uint32 (Z.of_nat (length (_chunks s))))
              uncompressedSize (Compression h) uncompressedSize
              (SHA1 uncompressedData) (padding h) in
  if Compression h1 =? COMPRESSION_GZIP then
    match util_zlib_deflate uncompressedData with
    | Some compressedBytes =>
        (mkHeader (Magic h1) (TargetVersion h1) (MinVersion h1) (NumChunks h1)
           (UncompressedSize h1) (Compression h1)
           (Z.of_nat (length compressedBytes)) (Sha1 h1) (padding h1),
         Some compressedBytes)
    | None =>
        (mkHeader (Magic h1) (TargetVersion h1) (MinVersion h1) (NumChunks h1)
           (UncompressedSize h1) COMPRESSION_NONE
           (CompressedSize h1) (Sha1 h1) (padding h1),
         None)
    end
  else (h1, None).

(** The destructor; the object is returned as it is when its members are
    about to be released. *)
Definition OrcaStream_delete (s : OrcaStream) : result OrcaStream :=
  match _mode s with
  | READING => Ok s
  | WRITING =>
      let '(header, compressedBytes) := finalize_header s in
      let emit : St IStream.t unit :=
        WriteValue_Header header ;;;
        write_chunk_table (_chunks s) ;;;
        match compressedBytes with
        | Some bytes => IStream.Write bytes
        | None => IStream.Write (MemoryStream.GetData (_buffer s))
        end
      in
      match emit (_stream s) with
      | Ok (_, stream') =>
          Ok (mkOrcaStream stream' (_mode s) header (_chunks s) (_buffer s)
                (_currentChunk s))
      | Err e => Err e
      end
  end.

End Envelope.

Definition SeekChunk (id : Z) : St OrcaStream bool :=
  fun s =>
    match List.find (fun e => Id e =? id) (_chunks s) with
    | Some result =>
        let offset := Offset result in
        match MemoryStream.SetPosition offset (_buffer s) with
        | Ok buffer =>
            Ok (true, mkOrcaStream (_stream s) (_mode s) (_header s) (_chunks s)
                        buffer (_currentChunk s))
        | Err e => Err e
        end
    | None => Ok (false, s)
    end.

Section Chunks.

(** What the codec lambda captures by reference. *)
Context {U : Type}.

(** Runs [f] on a [ChunkStream] over [_buffer] and stores the buffer
    back. *)
Definition run_codec (f : U -> M U) (u : U) : St OrcaStream U :=
  fun s =>
    match f u (mkChunkStream (_buffer s) (_mode s) []) with
    | Ok (u', stream) =>
        Ok (u', mkOrcaStream (_stream s) (_mode s) (_header s) (_chunks s)
                  (cs_buffer stream) (_currentChunk s))
    | Err e => Err e
    end.

Definition set_currentChunk (e : ChunkEntry) : St OrcaStream unit :=
  fun s =>
    Ok (tt, mkOrcaStream (_stream s) (_mode s) (_header s) (_chunks s)
              (_buffer s) e).

Definition push_back_currentChunk : St OrcaStream unit :=
  fun s =>
    Ok (tt, mkOrcaStream (_stream s) (_mode s) (_header s)
              (_chunks s ++ [_currentChunk s]) (_buffer s) (_currentChunk s)).

Definition ReadWriteChunk (chunkId : Z) (f : U -> M U) (u : U)
  : St OrcaStream (bool * U) :=
  fun s =>
    match _mode s with
    | READING =>
        (found <- SeekChunk chunkId ;;
         if (found : bool) then
           u' <- run_codec f u ;;
           ret (true, u')
         else ret (false, u)) s
    | WRITING =>
        (let offset := MemoryStream.GetPosition (_buffer s) in
         set_currentChunk (mkChunkEntry chunkId offset 0) ;;;
         u' <- run_codec f u ;;
         (fun s' =>
            set_currentChunk
              (mkChunkEntry chunkId offset
                 (to_size_t (MemoryStream.GetPosition (_buffer s') - offset))) s') ;;;
         push_back_currentChunk ;;;
         ret (true, u')) s
    end.

End Chunks.

(** [OrcaStream::GetMode] and [GetHeader].  The header is handed out by
    reference, so a caller can also store one through it. *)
Definition OrcaStream_GetMode (s : OrcaStream) : Mode := _mode s.

Definition GetHeader (s : OrcaStream) : Header := _header s.

Definition SetHeader (h : Header) (s : OrcaStream) : OrcaStream :=
  mkOrcaStream (_stream s) (_mode s) h (_chunks s) (_buffer s) (_currentChunk s).

(** * The vocabulary of the properties *)

(** The buffer after the two header fields of the frame that starts at
    [start] are overwritten. *)
Definition patch_header (start : nat) (count elementSize : Z) (d : list byte) : list byte :=
  take start d ++ (le_bytes 4 count ++ le_bytes 4 elementSize) ++ drop (start + 8) d.

(** A run that returns leaves the array stack as it found it. *)
Definition keeps_stack {A} (m : M A) : Prop :=
  forall cs a cs', m cs = Ok (a, cs') -> cs_arrayStack cs' = cs_arrayStack cs.

(** A run inside a frame: the frames below the top one stay, the top one
    may change. *)
Definition keeps_frames_below {A} (m : M A) : Prop :=
  forall cs a cs' st below,
    cs_arrayStack cs = st :: below ->
    m cs = Ok (a, cs') ->
    exists st', cs_arrayStack cs' = st' :: below.

(** A writer whose cursor is at the end of the buffer. *)
Definition at_end (d : list byte) (stack : list ArrayState) : ChunkStream :=
  mkChunkStream (MemoryStream.Build d (length d)) WRITING stack.

(** The element codec, run by a writer at the end of the buffer, returns
    and has advanced the cursor by [k] bytes, all of them appended. *)
Definition appends {A} (m : M A) (k : Z) : Prop :=
  forall d stack, exists a bs,
    m (at_end d stack) = Ok (a, at_end (d ++ bs) stack)
    /\ Z.of_nat (length bs) = k.

(** The same for the element codec of [ReadWriteArray], which also answers
    true. *)
Definition appends_counted {A} (m : M (bool * A)) (k : Z) : Prop :=
  forall d stack, exists a bs,
    m (at_end d stack) = Ok ((true, a), at_end (d ++ bs) stack)
    /\ Z.of_nat (length bs) = k.

(** The two header fields of the frame that starts at [start]. *)
Definition frame_Count (start : nat) (d : list byte) : Z := field start 4 d.
Definition frame_ElementSize (start : nat) (d : list byte) : Z := field (start + 4) 4 d.

(** The element size the writer arrives at after elements of the given
    sizes, when [count] elements went before and [elementSize] is what it
    holds by then. *)
Fixpoint stride_from (count elementSize : Z) (sizes : list Z) : Z :=
  match sizes with
  | [] => elementSize
  | k :: sizes' =>
      stride_from (count + 1)
        (if count =? 0 then k
         else if negb (elementSize =? k) then 0 else elementSize)
        sizes'
  end.

(** The chunk table as it lies in the file. *)
Definition chunk_table_bytes (chunks : list ChunkEntry) : list byte :=
  concat (ChunkEntry_bytes <$> chunks).

(** The errors a computation can end in. *)
Definition throws_only {S A} (P : error -> Prop) (m : St S A) : Prop :=
  forall s e, m s = Err e -> P e.

(** An [n]-byte field holds its value modulo [256 ^ n]. *)
Definition wrap (n : nat) (v : Z) : Z := v mod 256 ^ Z.of_nat n.

(** The header with other values in the three fields a reader might have
    checked. *)
Definition with_identity (h : Header) (magic minVersion sha1 : Z) : Header :=
  mkHeader magic (TargetVersion h) minVersion (NumChunks h) (UncompressedSize h)
    (Compression h) (CompressedSize h) sha1 (padding h).

(** Two streams with the same bytes ahead of the same position. *)
Definition same_ahead (s1 s2 : IStream.t) : Prop :=
  IStream.position s1 = IStream.position s2
  /\ length (IStream.data s1) = length (IStream.data s2)
  /\ drop (IStream.position s1) (IStream.data s1)
     = drop (IStream.position s2) (IStream.data s2).

(** Two runs that end alike: with the same exception, or with the same
    value and streams that still have the same bytes ahead. *)
Definition ends_alike {A} (r1 r2 : result (A * IStream.t)) : Prop :=
  match r1, r2 with
  | Ok (a1, s1), Ok (a2, s2) => a1 = a2 /\ same_ahead s1 s2
  | Err e1, Err e2 => e1 = e2
  | _, _ => False
  end.

(** The computation sees of the stream only the bytes ahead. *)
Definition reads_ahead {A} (m : St IStream.t A) : Prop :=
  forall s1 s2, same_ahead s1 s2 -> ends_alike (m s1) (m s2).

(** The bytes of a frame: count, element size as the writer detects it,
    and the elements. *)
Definition frame_bytes (bodies : list (list byte)) : list byte :=
  le_bytes 4 (to_uint32 (Z.of_nat (length bodies)))
  ++ le_bytes 4
       (to_uint32 (stride_from 0 0 ((fun b => Z.of_nat (length b)) <$> bodies)))
  ++ concat bodies.

(** The bytes a value takes in a chunk. *)
Fixpoint encode (t : ty) : val t -> list byte :=
  match t with
  | TScalar n => fun v => le_bytes n v
  | TString => fun v => take (find_nul v) v ++ [x00]
  | TVector t' => fun v => frame_bytes (encode t' <$> v)
  | TArray _ t' => fun v => frame_bytes (encode t' <$> v)
  | TUnit => fun _ => []
  | TPair a b => fun v => encode a v.1 ++ encode b v.2
  end.

(** Values a codec can hand over without loss: scalars within their size,
    strings without NUL, vectors and arrays whose length fits the 32-bit
    count, arrays of the length of their type. *)
Fixpoint wf_val (t : ty) : val t -> Prop :=
  match t with
  | TScalar n => fun v => 0 <= v < 256 ^ Z.of_nat n
  | TString => fun v => Forall (fun b => b <> x00) v
  | TVector t' => fun v =>
      Z.of_nat (length v) < uint32_max /\ Forall (wf_val t') v
  | TArray n t' => fun v =>
      length v = n /\ Z.of_nat (length v) < uint32_max /\ Forall (wf_val t') v
  | TUnit => fun _ => True
  | TPair a b => fun v => wf_val a v.1 /\ wf_val b v.2
  end.

(** Every element of every vector and array of the value, at any depth,
    takes less than [2^32] bytes, the size a frame can store for its
    elements. *)
Fixpoint elements_fit (t : ty) : val t -> Prop :=
  match t with
  | TVector t' => fun v =>
      Forall (fun el => Z.of_nat (length (encode t' el)) < uint32_max
                        /\ elements_fit t' el) v
  | TArray _ t' => fun v =>
      Forall (fun el => Z.of_nat (length (encode t' el)) < uint32_max
                        /\ elements_fit t' el) v
  | TPair a b => fun v => elements_fit a v.1 /\ elements_fit b v.2
  | _ => fun _ => True
  end.

(** The object a reader decodes into: its fixed-size arrays have the
    length of their type. *)
Fixpoint shape (t : ty) : val t -> Prop :=
  match t with
  | TArray n _ => fun v => length v = n
  | TPair a b => fun v => shape a v.1 /\ shape b v.2
  | _ => fun _ => True
  end.

(** A writer at the end of the buffer appends [bs] and hands back [a], as
    long as the buffer stays below [2^64] bytes. *)
Definition writes {A} (m : M A) (a : A) (bs : list byte) : Prop :=
  forall d stack,
    Z.of_nat (length (d ++ bs)) < uint64_max ->
    m (at_end d stack) = Ok (a, at_end (d ++ bs) stack).

(** A reader with [rest] ahead of its cursor. *)
Definition reader_at (pre rest : list byte) (stack : list ArrayState) : ChunkStream :=
  mkChunkStream (MemoryStream.Build (pre ++ rest) (length pre)) READING stack.

(** A reader with [bs] ahead of its cursor decodes [a] and stops after
    [bs]. *)
Definition reads {A} (m : M A) (a : A) (bs : list byte) : Prop :=
  forall pre post stack,
    m (reader_at pre (bs ++ post) stack) = Ok (a, reader_at (pre ++ bs) post stack).

(** The frame a reader is in fits the elements ahead: its stride is
    variable, or it is fixed, the last element ended at the cursor and every
    element ahead has the size of the stride. *)
Definition stride_fits {A} (enc : A -> list byte) (elementSize last : Z)
    (pre : list byte) (els : list A) : Prop :=
  elementSize = 0
  \/ (last = Z.of_nat (length pre)
      /\ Forall (fun el => Z.of_nat (length (enc el)) = elementSize) els).

(** The stream has [bs] ahead of its position. *)
Definition ahead (s : IStream.t) (bs : list byte) : Prop :=
  (IStream.position s <= length (IStream.data s))%nat
  /\ drop (IStream.position s) (IStream.data s) = bs.

(** A directory entry whose fields fit their types. *)
Definition chunk_in_range (e : ChunkEntry) : Prop :=
  0 <= Id e < uint32_max /\ 0 <= Offset e < uint64_max /\ 0 <= Length e < uint64_max.

(** A writer that can be finalized and read back: its directory and header
    fit their fields, the payload fits a 64-bit size, the output stream has
    its position inside, and what deflate makes of the buffer, if anything,
    fits a 64-bit size and inflates to the buffer again. *)
Definition finalizable
    (util_zlib_inflate util_zlib_deflate : list byte -> option (list byte))
    (s : OrcaStream) : Prop :=
  _mode s = WRITING
  /\ Forall chunk_in_range (_chunks s)
  /\ Z.of_nat (length (_chunks s)) < uint32_max
  /\ 0 <= Compression (_header s) < uint32_max
  /\ Z.of_nat (length (MemoryStream.data (_buffer s))) < uint64_max
  /\ (IStream.position (_stream s) <= length (IStream.data (_stream s)))%nat
  /\ match util_zlib_deflate (MemoryStream.data (_buffer s)) with
     | Some compressedBytes =>
         Z.of_nat (length compressedBytes) < uint64_max
         /\ util_zlib_inflate compressedBytes = Some (MemoryStream.data (_buffer s))
     | None => True
     end.

(** A container with one chunk is written to an empty stream and read back
    from its start: constructor, [ReadWriteChunk] and destructor of a
    writer, then constructor and [ReadWriteChunk] of a reader over the
    bytes the writer left.  The result is what the reader's call returns and
    the object its codec has filled. *)
Definition write_then_read {U : Type}
    (util_zlib_inflate util_zlib_deflate : list byte -> option (list byte))
    (SHA1 : list byte -> Z)
    (chunkId : Z) (f : U -> M U) (u u0 : U) : result (bool * U) :=
  match OrcaStream_new util_zlib_inflate (IStream.Build [] 0) WRITING with
  | Ok writer =>
      match ReadWriteChunk chunkId f u writer with
      | Ok (_, writer') =>
          match OrcaStream_delete util_zlib_deflate SHA1 writer' with
          | Ok closed =>
              match OrcaStream_new util_zlib_inflate
                      (IStream.Build (IStream.data (_stream closed)) 0) READING with
              | Ok reader =>
                  match ReadWriteChunk chunkId f u0 reader with
                  | Ok (r, _) => Ok r
                  | Err e => Err e
                  end
              | Err e => Err e
              end
          | Err e => Err e
          end
      | Err e => Err e
      end
  | Err e => Err e
  end.

(** A run started by a reader ends as a reader's, with the bytes of the
    buffer as they were. *)
Definition read_only {A} (m : M A) : Prop :=
  forall cs a cs',
    cs_mode cs = READING ->
    m cs = Ok (a, cs') ->
    cs_mode cs' = READING
    /\ MemoryStream.data (cs_buffer cs') = MemoryStream.data (cs_buffer cs).


Definition total_size (sizes : list Z) : Z := foldr Z.add 0 sizes.

(** A codec run by a writer, wherever its cursor is: when the run returns,
    the stream is still a writer, the array stack is as it was and the
    cursor has moved by [k] bytes. *)
Definition advances_by {A} (m : M A) (k : Z) : Prop :=
  forall cs a cs',
    cs_mode cs = WRITING ->
    m cs = Ok (a, cs') ->
    cs_mode cs' = WRITING
    /\ cs_arrayStack cs' = cs_arrayStack cs
    /\ MemoryStream.GetPosition (cs_buffer cs')
       = MemoryStream.GetPosition (cs_buffer cs) + k.

(** The element codec of [ReadWriteArray] answers true whenever a writer's
    run of it returns. *)
Definition answers_true {A} (m : M (bool * A)) : Prop :=
  forall cs r cs', cs_mode cs = WRITING -> m cs = Ok (r, cs') -> r.1 = true.

(** The frame [NextArrayElement] leaves on top of a writer's stack when the
    cursor is at [pos]. *)
Definition next_frame (st : ArrayState) (pos : Z) : ArrayState :=
  mkArrayState (StartPos st) pos (to_size_t (Count st + 1))
    (let lastElSize := to_size_t (pos - LastPos st) in
     if Count st =? 0 then lastElSize
     else if negb (ElementSize st =? lastElSize) then 0
          else ElementSize st).

(** The frame after a [NextArrayElement] for each of the elements that
    moved the cursor, which was at [pos], by [sizes]. *)
Fixpoint frame_after (st : ArrayState) (pos : Z) (sizes : list Z) : ArrayState :=
  match sizes with
  | [] => st
  | k :: sizes' => frame_after (next_frame st (pos + k)) (pos + k) sizes'
  end.

(** The element codec of a reader, started at the first byte of [body],
    returns [a]; it keeps the bytes and the array stack and may leave the
    cursor anywhere. *)
Definition decodes {A} (m : M A) (a : A) (body : list byte) : Prop :=
  forall pre post stack, exists q,
    m (reader_at pre (body ++ post) stack)
    = Ok (a, mkChunkStream (MemoryStream.Build (pre ++ body ++ post) q) READING stack).

(** The entries of a directory lie one after the other from [offset] on
    and end at [total]. *)
Fixpoint tiles (offset : Z) (chunks : list ChunkEntry) (total : Z) : Prop :=
  match chunks with
  | [] => offset = total
  | e :: chunks' =>
      Offset e = offset /\ 0 <= Length e /\ tiles (offset + Length e) chunks' total
  end.

(** A writer whose chunks were all appended at the end of the buffer. *)
Definition contiguous (w : OrcaStream) : Prop :=
  _mode w = WRITING
  /\ MemoryStream.position (_buffer w) = length (MemoryStream.data (_buffer w))
  /\ Z.of_nat (length (MemoryStream.data (_buffer w))) < uint64_max
  /\ tiles 0 (_chunks w) (Z.of_nat (length (MemoryStream.data (_buffer w)))).

(** The two ways a reader's run can fail: the buffer ends before the bytes
    asked for, or a frame's element size leads outside the buffer. *)
Definition reader_error (e : error) : Prop :=
  e = UnexpectedEndOfStream \/ e = PositionOutOfBounds.

(** A reader's run that fails does so with a [reader_error]; for the steps
    made inside a frame, when started with a frame on the array stack. *)
Definition reader_fails {A} (m : M A) : Prop :=
  forall cs e, cs_mode cs = READING -> m cs = Err e -> reader_error e.

Definition reader_fails_framed {A} (m : M A) : Prop :=
  forall cs e,
    cs_mode cs = READING -> cs_arrayStack cs <> [] -> m cs = Err e -> reader_error e.

(** The element codec, made to throw unless it is started with [depth]
    frames on the array stack. *)
Definition at_depth {A B} (depth : nat) (f : A -> M B) : A -> M B :=
  fun el cs =>
    if bool_decide (length (cs_arrayStack cs) = depth) then f el cs
    else Err NoArrayFrame.

(** The loop a call of [ReadWriteVector] or [ReadWriteArray] runs between
    its [BeginArray] and its [EndArray]. *)
Definition ReadWriteVector_loop {A} (dflt : A) (f : A -> M A) (vec : list A)
    (mode : Mode) (count : Z) : M (list A) :=
  match mode with
  | READING => ReadWriteVector_read dflt f (Z.to_nat count) []
  | WRITING => ReadWriteVector_write f vec
  end.

Definition ReadWriteArray_loop {A} (dflt : A) (f : A -> M (bool * A)) (arr : list A)
    (mode : Mode) (count : Z) : M (list A) :=
  match mode with
  | READING => ReadWriteArray_read f (Z.to_nat count) 0 ((fun _ => dflt) <$> arr)
  | WRITING => ReadWriteArray_write f arr
  end.

(** A call that has returned went this way: [BeginArray] pushed one frame
    on the stack the call found, the loop ran above that stack and left one
    frame on it, and [EndArray] popped that frame. *)
Definition framed_run {A} (loop : Mode -> Z -> M A) (cs : ChunkStream) (a : A)
    (cs' : ChunkStream) : Prop :=
  exists count cs1 cs2 st st',
    BeginArray cs = Ok (count, cs1)
    /\ cs_arrayStack cs1 = st :: cs_arrayStack cs
    /\ loop (cs_mode cs) count cs1 = Ok (a, cs2)
    /\ cs_arrayStack cs2 = st' :: cs_arrayStack cs
    /\ EndArray cs2 = Ok (tt, cs')
    /\ cs_arrayStack cs' = cs_arrayStack cs.

(** Two objects a reader decodes into alike: their fixed-size arrays have
    the same length. *)
Fixpoint same_shape (t : ty) : val t -> val t -> Prop :=
  match t with
  | TArray _ _ => fun v v' => length v = length v'
  | TPair a b => fun v v' => same_shape a v.1 v'.1 /\ same_shape b v.2 v'.2
  | _ => fun _ _ => True
  end.

(** The directory that [n] raw entries denote. *)
Fixpoint chunk_table_of_bytes (n : nat) (bs : list byte) : list ChunkEntry :=
  match n with
  | O => []
  | S n' => ChunkEntry_of_bytes (take 20 bs) :: chunk_table_of_bytes n' (drop 20 bs)
  end.

(** * Properties *)

(** Equality of two states that differ only in how a position is written. *)
Ltac state_eq :=
  repeat first [ reflexivity | lia | progress f_equal ].

(** ** Bytes *)

Lemma Z_of_byte_range (b : byte) : 0 <= Z_of_byte b < 256.
Proof.
  unfold Z_of_byte. pose proof (Byte.to_N_bounded b). lia.
Qed.

Lemma byte_of_Z_of_byte (b : byte) : byte_of_Z (Z_of_byte b) = b.
Proof.
  unfold byte_of_Z. pose proof (Z_of_byte_range b) as Hr.
  rewrite Z.mod_small by exact Hr.
  unfold Z_of_byte. rewrite N2Z.id, Byte.of_to_N. reflexivity.
Qed.

Lemma Z_of_byte_of_Z (z : Z) : Z_of_byte (byte_of_Z z) = z mod 256.
Proof.
  unfold byte_of_Z, Z_of_byte.
  pose proof (Z.mod_pos_bound z 256 ltac:(lia)) as Hr.
  destruct (Byte.of_N (Z.to_N (z mod 256))) as [b|] eqn:E.
  - apply Byte.to_of_N in E. simpl. rewrite E. lia.
  - apply Byte.of_N_None_iff in E. lia.
Qed.

Lemma length_le_bytes (n : nat) (v : Z) : length (le_bytes n v) = n.
Proof. revert v. induction n as [|n IH]; intros v; simpl; [|rewrite IH]; reflexivity. Qed.

Lemma le_value_range (bs : list byte) : 0 <= le_value bs < 256 ^ Z.of_nat (length bs).
Proof.
  induction bs as [|b bs IH]; simpl le_value; simpl length.
  - simpl. lia.
  - pose proof (Z_of_byte_range b).
    rewrite Nat2Z.inj_succ, Z.pow_succ_r by lia. lia.
Qed.

Lemma le_value_le_bytes (n : nat) (v : Z) :
  le_value (le_bytes n v) = v mod 256 ^ Z.of_nat n.
Proof.
  revert v. induction n as [|n IH]; intros v.
  - simpl. rewrite Z.mod_1_r. reflexivity.
  - cbn [le_bytes le_value]. rewrite IH, Z_of_byte_of_Z.
    rewrite Nat2Z.inj_succ, Z.pow_succ_r by lia.
    rewrite Z.rem_mul_r by lia. reflexivity.
Qed.

Lemma le_value_le_bytes_small (n : nat) (v : Z) :
  0 <= v < 256 ^ Z.of_nat n -> le_value (le_bytes n v) = v.
Proof. intros H. rewrite le_value_le_bytes. apply Z.mod_small, H. Qed.

Lemma le_bytes_le_value (bs : list byte) : le_bytes (length bs) (le_value bs) = bs.
Proof.
  induction bs as [|b bs IH]; [reflexivity|].
  cbn [length le_bytes le_value].
  pose proof (Z_of_byte_range b) as Hb.
  f_equal.
  - replace (Z_of_byte b + 256 * le_value bs) with (Z_of_byte b + le_value bs * 256) by lia.
    unfold byte_of_Z. rewrite Z.mod_add by lia.
    fold (byte_of_Z (Z_of_byte b)). apply byte_of_Z_of_byte.
  - replace ((Z_of_byte b + 256 * le_value bs) / 256) with (le_value bs); [exact IH|].
    replace (Z_of_byte b + 256 * le_value bs) with (Z_of_byte b + le_value bs * 256) by lia.
    rewrite Z.div_add by lia. rewrite Z.div_small by lia. lia.
Qed.

(** ** The memory buffer *)

Lemma MemoryStream_Read_at (pre bs post : list byte) :
  MemoryStream.Read (length bs) (MemoryStream.Build (pre ++ bs ++ post) (length pre))
  = Ok (bs, MemoryStream.Build (pre ++ bs ++ post) (length pre + length bs)).
Proof.
  unfold MemoryStream.Read. cbn [MemoryStream.position MemoryStream.data].
  rewrite bool_decide_true by (rewrite !length_app; lia).
  rewrite drop_app_length, take_app_length. reflexivity.
Qed.

Lemma MemoryStream_Write_at_end (d bs : list byte) :
  MemoryStream.Write bs (MemoryStream.Build d (length d))
  = MemoryStream.Build (d ++ bs) (length (d ++ bs)).
Proof.
  unfold MemoryStream.Write. cbn [MemoryStream.position MemoryStream.data].
  rewrite firstn_all, drop_ge by lia.
  rewrite app_nil_r, length_app. reflexivity.
Qed.

Lemma MemoryStream_Write_Write (bs1 bs2 : list byte) (m : MemoryStream.t) :
  MemoryStream.Write bs2 (MemoryStream.Write bs1 m) = MemoryStream.Write (bs1 ++ bs2) m.
Proof.
  destruct m as [d p]. unfold MemoryStream.Write.
  cbn [MemoryStream.position MemoryStream.data].
  rewrite length_app. f_equal; [|lia].
  destruct (decide (p <= length d)%nat) as [Hle|Hgt].
  - assert (Hp : length (take p d ++ bs1) = (p + length bs1)%nat)
      by (rewrite length_app, length_take; lia).
    rewrite (app_assoc (take p d) bs1 (drop _ d)).
    rewrite (take_app_length' (take p d ++ bs1)) by (symmetry; exact Hp).
    rewrite (drop_app_add' (take p d ++ bs1)) by (symmetry; exact Hp).
    rewrite drop_drop, <- !app_assoc. do 4 f_equal. lia.
  - rewrite !(drop_ge d) by lia. rewrite !app_nil_r.
    rewrite (take_ge d) by lia.
    rewrite take_ge by (rewrite length_app; lia).
    rewrite drop_ge by (rewrite length_app; lia).
    rewrite app_nil_r, <- app_assoc. reflexivity.
Qed.

(** ** Strings *)

Lemma is_nul_true (b : byte) : is_nul b = true <-> b = x00.
Proof.
  unfold is_nul. split.
  - apply Byte.byte_dec_bl.
  - apply Byte.byte_dec_lb.
Qed.

Lemma is_nul_false (b : byte) : is_nul b = false <-> b <> x00.
Proof.
  rewrite <- is_nul_true. destruct (is_nul b); split; congruence.
Qed.

(** The bytes [WriteString] keeps are free of NUL, and they are all of the
    string unless a NUL follows them. *)
Lemma find_nul_prefix (s : list byte) :
  Forall (fun b => b <> x00) (take (find_nul s) s)
  /\ (take (find_nul s) s = s
      \/ exists rest, s = take (find_nul s) s ++ x00 :: rest).
Proof.
  induction s as [|b s [IHf IHs]]; simpl.
  - split; [constructor | left; reflexivity].
  - destruct (is_nul b) eqn:E; simpl.
    + apply is_nul_true in E. subst b.
      split; [constructor | right; exists s; reflexivity].
    + apply is_nul_false in E. split; [constructor; assumption|].
      destruct IHs as [-> | [rest Hrest]]; [left; reflexivity|].
      right. exists rest. rewrite Hrest at 1. reflexivity.
Qed.

Lemma ReadBuffer_at (pre bs post : list byte) (mode : Mode) (stack : list ArrayState) :
  ReadBuffer (length bs)
    (mkChunkStream (MemoryStream.Build (pre ++ bs ++ post) (length pre)) mode stack)
  = Ok (bs, mkChunkStream
              (MemoryStream.Build (pre ++ bs ++ post) (length pre + length bs))
              mode stack).
Proof.
  unfold ReadBuffer. cbn [cs_buffer cs_mode cs_arrayStack].
  rewrite MemoryStream_Read_at. reflexivity.
Qed.

Lemma ReadString_loop_unfold (fuel : nat) (buffer : list byte) :
  ReadString_loop fuel buffer
  = (bs <- ReadBuffer 1 ;;
     match bs with
     | [c] =>
         if is_nul c then ret buffer
         else match fuel with
              | O => throw OutOfFuel
              | S fuel' => ReadString_loop fuel' (buffer ++ [c])
              end
     | _ => throw UnexpectedEndOfStream
     end).
Proof. destruct fuel; reflexivity. Qed.

Lemma ReadString_loop_spec (p : list byte) :
  Forall (fun b => b <> x00) p ->
  forall (fuel : nat) (acc pre post : list byte) (mode : Mode) (stack : list ArrayState),
    (length p <= fuel)%nat ->
    ReadString_loop fuel acc
      (mkChunkStream (MemoryStream.Build (pre ++ (p ++ [x00]) ++ post) (length pre))
         mode stack)
    = Ok (acc ++ p,
          mkChunkStream
            (MemoryStream.Build (pre ++ (p ++ [x00]) ++ post) (length pre + length p + 1))
            mode stack).
Proof.
  induction 1 as [|c p Hc Hp IH]; intros fuel acc pre post mode stack Hfuel;
    rewrite ReadString_loop_unfold; unfold bind at 1.
  - change (([] ++ [x00]) ++ post) with ([x00] ++ post).
    rewrite (ReadBuffer_at pre [x00] post).
    change (is_nul x00) with true. cbv iota.
    unfold ret. rewrite app_nil_r. cbn [length]. state_eq.
  - destruct fuel as [|fuel]; [simpl in Hfuel; lia|].
    change (((c :: p) ++ [x00]) ++ post) with ([c] ++ ((p ++ [x00]) ++ post)).
    rewrite (ReadBuffer_at pre [c]).
    apply is_nul_false in Hc. rewrite Hc.
    rewrite (app_assoc pre [c]).
    replace (length pre + length [c])%nat with (length (pre ++ [c]))
      by (rewrite length_app; reflexivity).
    rewrite IH by (simpl in Hfuel; lia).
    rewrite <- (app_assoc acc [c] p), length_app. cbn [app length].
    state_eq.
Qed.

(** [ReadString] never runs out of the rounds it is given: whatever it
    returns, it is not [OutOfFuel]. *)
Lemma ReadString_loop_fuel_enough (fuel : nat) :
  forall (acc : list byte) (cs : ChunkStream),
    (length (MemoryStream.data (cs_buffer cs))
     - MemoryStream.position (cs_buffer cs) <= fuel)%nat ->
    ReadString_loop fuel acc cs <> Err OutOfFuel.
Proof.
  induction fuel as [|fuel IH]; intros acc [[d p] mode stack] Hfuel;
    cbn [cs_buffer MemoryStream.data MemoryStream.position] in Hfuel;
    cbn [ReadString_loop]; unfold bind, ReadBuffer, MemoryStream.Read;
    cbn [cs_buffer cs_mode cs_arrayStack MemoryStream.data MemoryStream.position].
  - case_bool_decide as Hlen; [lia | discriminate].
  - case_bool_decide as Hlen; [|discriminate].
    destruct (take 1 (drop p d)) as [|c [|? ?]] eqn:E; try discriminate.
    destruct (is_nul c); [discriminate|].
    apply IH. cbn [cs_buffer MemoryStream.data MemoryStream.position]. lia.
Qed.

Lemma ReadString_fuel_enough (cs : ChunkStream) : ReadString cs <> Err OutOfFuel.
Proof. unfold ReadString. apply ReadString_loop_fuel_enough. lia. Qed.

(** C7: written in WRITING mode, a string leaves in the buffer its bytes up
    to its first NUL (all of them when it has none) and one NUL after them;
    read back in READING mode, these bytes give that longest NUL-free
    prefix.  The string made of one NUL comes back empty. *)
Theorem C7_string_write_then_read
  (s v0 pre post : list byte) (buf : MemoryStream.t) (stack : list ArrayState) :
  let p := take (find_nul s) s in
  ReadWrite_string s (mkChunkStream buf WRITING stack)
  = Ok (s, mkChunkStream (MemoryStream.Write (p ++ [x00]) buf) WRITING stack)
  /\ (Forall (fun b => b <> x00) p
      /\ (p = s \/ exists rest, s = p ++ x00 :: rest))
  /\ ReadWrite_string v0
       (mkChunkStream (MemoryStream.Build (pre ++ (p ++ [x00]) ++ post) (length pre))
          READING stack)
     = Ok (p, mkChunkStream
                (MemoryStream.Build (pre ++ (p ++ [x00]) ++ post)
                   (length pre + length p + 1))
                READING stack)
  /\ ReadWrite_string [x00] (mkChunkStream MemoryStream.empty WRITING stack)
     = Ok ([x00], mkChunkStream (MemoryStream.Build [x00] 1) WRITING stack)
  /\ ReadWrite_string v0 (mkChunkStream (MemoryStream.Build [x00] 0) READING stack)
     = Ok ([], mkChunkStream (MemoryStream.Build [x00] 1) READING stack).
Proof.
  intros p. pose proof (find_nul_prefix s) as [Hfree Hrest]. fold p in Hfree, Hrest.
  split; [|split; [split; assumption|split; [|split]]].
  - unfold ReadWrite_string, WriteString, bind, GetMode, WriteBuffer, ret.
    cbn [cs_mode cs_buffer cs_arrayStack]. fold p.
    rewrite MemoryStream_Write_Write. reflexivity.
  - unfold ReadWrite_string, bind, GetMode. cbn [cs_mode]. unfold ReadString.
    apply (ReadString_loop_spec p Hfree).
    cbn [cs_buffer MemoryStream.data MemoryStream.position].
    rewrite !length_app. lia.
  - reflexivity.
  - reflexivity.
Qed.

(** Side conditions at a concrete state. *)
Ltac concrete :=
  unfold MemoryStream.wf, MemoryStream.GetLength, MemoryStream.GetPosition,
    uint64_max, uint32_max;
  simpl; lia.

(** ** Running monadic code *)

Lemma Ok_inj {A} (a b : A) : Ok a = Ok b -> a = b.
Proof. intros H. inversion H. reflexivity. Qed.

Lemma bind_Ok_inv {S A B} (m : St S A) (k : A -> St S B) (s s' : S) (b : B) :
  bind m k s = Ok (b, s') ->
  exists a s1, m s = Ok (a, s1) /\ k a s1 = Ok (b, s').
Proof.
  unfold bind. destruct (m s) as [[a s1]|e]; [|discriminate].
  intros H. exists a, s1. split; [reflexivity | exact H].
Qed.

Lemma bind_Ok {S A B} (m : St S A) (k : A -> St S B) (s s1 : S) (a : A) :
  m s = Ok (a, s1) -> bind m k s = k a s1.
Proof. unfold bind. intros ->. reflexivity. Qed.

(** Splits a successful run of a sequence into the runs of its steps. *)
Ltac inv_bind H :=
  let a := fresh "a" in
  let s := fresh "cs" in
  let H1 := fresh "Hstep" in
  apply bind_Ok_inv in H; destruct H as (a & s & H1 & H).

Lemma GetMode_bind {B} (k : Mode -> M B) (cs : ChunkStream) :
  bind GetMode k cs = k (cs_mode cs) cs.
Proof. reflexivity. Qed.

(** ** Writing-mode primitives *)

Lemma Write_writing (n : nat) (v : Z) (buf : MemoryStream.t) (stack : list ArrayState) :
  Write n v (mkChunkStream buf WRITING stack)
  = Ok (tt, mkChunkStream (MemoryStream.Write (le_bytes n v) buf) WRITING stack).
Proof. reflexivity. Qed.

Lemma SetPosition_in_range (p : Z) (d : list byte) (q : nat) (mode : Mode)
    (stack : list ArrayState) :
  0 <= p <= Z.of_nat (length d) ->
  SetPosition p (mkChunkStream (MemoryStream.Build d q) mode stack)
  = Ok (tt, mkChunkStream (MemoryStream.Build d (Z.to_nat p)) mode stack).
Proof.
  intros Hp. unfold SetPosition, MemoryStream.SetPosition, MemoryStream.GetLength.
  cbn [cs_buffer cs_mode cs_arrayStack MemoryStream.data].
  rewrite bool_decide_true by exact Hp. reflexivity.
Qed.

Lemma to_size_t_small (z : Z) : 0 <= z < uint64_max -> to_size_t z = z.
Proof. intros H. unfold to_size_t. apply Z.mod_small, H. Qed.

Lemma to_uint32_small (z : Z) : 0 <= z < uint32_max -> to_uint32 z = z.
Proof. intros H. unfold to_uint32. apply Z.mod_small, H. Qed.

Lemma to_uint32_idem (z : Z) : to_uint32 (to_uint32 z) = to_uint32 z.
Proof. unfold to_uint32, uint32_max. apply Z.mod_mod. lia. Qed.

(** ** The header of a frame *)

Lemma field_at (pre bs post : list byte) :
  field (length pre) (length bs) (pre ++ bs ++ post) = le_value bs.
Proof. unfold field. rewrite drop_app_length, take_app_length. reflexivity. Qed.

Lemma le_value_le_bytes_4 (v : Z) : le_value (le_bytes 4 v) = to_uint32 v.
Proof. rewrite le_value_le_bytes. reflexivity. Qed.

Lemma frame_Count_at (d post : list byte) (count elementSize : Z) :
  frame_Count (length d) (d ++ (le_bytes 4 count ++ le_bytes 4 elementSize) ++ post)
  = to_uint32 count.
Proof.
  unfold frame_Count. rewrite <- (app_assoc (le_bytes 4 count)).
  pose proof (field_at d (le_bytes 4 count) (le_bytes 4 elementSize ++ post)) as H.
  rewrite length_le_bytes in H. rewrite H. apply le_value_le_bytes_4.
Qed.

Lemma frame_ElementSize_at (d post : list byte) (count elementSize : Z) :
  frame_ElementSize (length d) (d ++ (le_bytes 4 count ++ le_bytes 4 elementSize) ++ post)
  = to_uint32 elementSize.
Proof.
  unfold frame_ElementSize.
  rewrite <- (app_assoc (le_bytes 4 count)), (app_assoc d).
  pose proof (field_at (d ++ le_bytes 4 count) (le_bytes 4 elementSize) post) as H.
  rewrite length_app, !length_le_bytes in H. rewrite H. apply le_value_le_bytes_4.
Qed.

(** ** The end of a frame *)

Lemma EndArray_writing
  (st : ArrayState) (stack : list ArrayState) (buf : MemoryStream.t) :
  MemoryStream.wf buf ->
  0 <= StartPos st <= MemoryStream.GetLength buf ->
  StartPos st + 8 < uint64_max ->
  EndArray (mkChunkStream buf WRITING (st :: stack))
  = if decide (Count st = 0 /\ MemoryStream.GetPosition buf <> StartPos st + 8)
    then Err MalformedArray
    else Ok (tt, mkChunkStream
                   (MemoryStream.Build
                      (patch_header (Z.to_nat (StartPos st))
                         (to_uint32 (Count st)) (to_uint32 (ElementSize st))
                         (MemoryStream.data buf))
                      (MemoryStream.position buf))
                   WRITING stack).
Proof.
  destruct buf as [d p]. unfold MemoryStream.wf, MemoryStream.GetLength, MemoryStream.GetPosition.
  cbn [MemoryStream.data MemoryStream.position]. intros Hwf Hstart Hmax.
  unfold EndArray, top. unfold bind at 1. cbn [cs_arrayStack].
  unfold bind at 1, GetMode. cbn [cs_mode]. unfold bind at 1.
  unfold bind at 1, GetPosition, MemoryStream.GetPosition.
  cbn [cs_buffer MemoryStream.position].
  rewrite to_size_t_small by lia.
  destruct (decide (Count st = 0 /\ Z.of_nat p <> StartPos st + 8)) as [[Hc Hp]|Hn].
  - rewrite (proj2 (Z.eqb_neq _ _) Hp), (proj2 (Z.eqb_eq _ _) Hc). reflexivity.
  - replace (negb (Z.of_nat p =? StartPos st + 8) && (Count st =? 0)) with false.
    2:{ symmetry. apply andb_false_iff.
        destruct (Z.eqb_spec (Z.of_nat p) (StartPos st + 8)) as [|Hp]; [left; reflexivity|].
        right. apply Z.eqb_neq. intros Hc. apply Hn. split; assumption. }
    unfold bind at 1. rewrite SetPosition_in_range by lia.
    unfold bind at 1. rewrite Write_writing.
    unfold bind at 1. rewrite Write_writing.
    rewrite MemoryStream_Write_Write.
    unfold MemoryStream.Write at 1. cbn [MemoryStream.data MemoryStream.position].
    rewrite SetPosition_in_range.
    2:{ rewrite !length_app, length_take, length_drop, !length_le_bytes. lia. }
    unfold pop. cbn [cs_arrayStack cs_buffer cs_mode].
    rewrite Nat2Z.id, length_app, !length_le_bytes. reflexivity.
Qed.


(** C6: in WRITING mode [EndArray] throws MalformedArray exactly when no
    element was counted and the cursor is not 8 bytes past the start of the
    frame; otherwise it stores [Count] and [ElementSize] as two 32-bit
    values at the start of the frame, puts the cursor back where it was and
    pops the frame. *)
Theorem C6_EndArray_writing
  (st : ArrayState) (stack : list ArrayState) (buf : MemoryStream.t) :
  MemoryStream.wf buf ->
  0 <= StartPos st <= MemoryStream.GetLength buf ->
  StartPos st + 8 < uint64_max ->
  let stream := mkChunkStream buf WRITING (st :: stack) in
  let uncounted :=
    Count st = 0 /\ MemoryStream.GetPosition buf <> StartPos st + 8 in
  let patched :=
    patch_header (Z.to_nat (StartPos st))
      (to_uint32 (Count st)) (to_uint32 (ElementSize st)) (MemoryStream.data buf) in
  (EndArray stream = Err MalformedArray <-> uncounted)
  /\ (~ uncounted ->
      EndArray stream
      = Ok (tt, mkChunkStream
                  (MemoryStream.Build patched (MemoryStream.position buf))
                  WRITING stack)
      /\ frame_Count (Z.to_nat (StartPos st)) patched = to_uint32 (Count st)
      /\ frame_ElementSize (Z.to_nat (StartPos st)) patched
         = to_uint32 (ElementSize st)).
Proof.
  intros Hwf Hstart Hmax stream uncounted patched. unfold stream.
  rewrite (EndArray_writing st stack buf Hwf Hstart Hmax). fold uncounted.
  destruct (decide uncounted) as [Hyes|Hno].
  - split; [split; [intros _; exact Hyes | reflexivity]|].
    intros Hno. contradiction.
  - split; [split; [discriminate | intros Hyes; contradiction]|].
    intros _. split; [reflexivity|].
    assert (Hlen : length (take (Z.to_nat (StartPos st)) (MemoryStream.data buf))
                   = Z.to_nat (StartPos st)).
    { rewrite length_take. unfold MemoryStream.GetLength in Hstart. lia. }
    pose proof (frame_Count_at (take (Z.to_nat (StartPos st)) (MemoryStream.data buf))
                  (drop (Z.to_nat (StartPos st) + 8) (MemoryStream.data buf))
                  (to_uint32 (Count st)) (to_uint32 (ElementSize st))) as Hcount.
    pose proof (frame_ElementSize_at
                  (take (Z.to_nat (StartPos st)) (MemoryStream.data buf))
                  (drop (Z.to_nat (StartPos st) + 8) (MemoryStream.data buf))
                  (to_uint32 (Count st)) (to_uint32 (ElementSize st))) as Hsize.
    rewrite Hlen, to_uint32_idem in Hcount, Hsize.
    split; [exact Hcount | exact Hsize].
Qed.

Lemma C6_EndArray_writing_witness :
  let buf := MemoryStream.Build (le_bytes 4 0 ++ le_bytes 4 0 ++ le_bytes 2 7) 10 in
  (EndArray (mkChunkStream buf WRITING [mkArrayState 0 10 1 2])
   = Ok (tt, mkChunkStream
               (MemoryStream.Build (le_bytes 4 1 ++ le_bytes 4 2 ++ le_bytes 2 7) 10)
               WRITING [])
   /\ frame_Count 0 (le_bytes 4 1 ++ le_bytes 4 2 ++ le_bytes 2 7) = 1
   /\ frame_ElementSize 0 (le_bytes 4 1 ++ le_bytes 4 2 ++ le_bytes 2 7) = 2)
  /\ EndArray (mkChunkStream buf WRITING [mkArrayState 0 8 0 0]) = Err MalformedArray.
Proof.
  intros buf. split.
  - apply (C6_EndArray_writing (mkArrayState 0 10 1 2) [] buf);
      [concrete | concrete | concrete |].
    intros [Hcount _]. discriminate.
  - apply (C6_EndArray_writing (mkArrayState 0 8 0 0) [] buf);
      [concrete | concrete | concrete |].
    split; [reflexivity | concrete].
Defined.

(** ** Chunk dispatch *)

(** What a call in WRITING mode returns when its codec returns. *)
Lemma ReadWriteChunk_writing_returns {U : Type}
  (chunkId : Z) (f : U -> M U) (u u' : U) (s : OrcaStream) (stream : ChunkStream) :
  _mode s = WRITING ->
  f u (mkChunkStream (_buffer s) WRITING []) = Ok (u', stream) ->
  ReadWriteChunk chunkId f u s
  = Ok ((true, u'),
        mkOrcaStream (_stream s) WRITING (_header s)
          (_chunks s
           ++ [mkChunkEntry chunkId (MemoryStream.GetPosition (_buffer s))
                 (to_size_t (MemoryStream.GetPosition (cs_buffer stream)
                             - MemoryStream.GetPosition (_buffer s)))])
          (cs_buffer stream)
          (mkChunkEntry chunkId (MemoryStream.GetPosition (_buffer s))
             (to_size_t (MemoryStream.GetPosition (cs_buffer stream)
                         - MemoryStream.GetPosition (_buffer s))))).
Proof.
  intros Hmode Hf. unfold ReadWriteChunk. rewrite Hmode.
  unfold bind, set_currentChunk, run_codec, push_back_currentChunk, ret.
  cbn [_buffer _mode _stream _header _chunks _currentChunk].
  rewrite Hmode, Hf. reflexivity.
Qed.

(** C5: in WRITING mode a call of [ReadWriteChunk] whose codec returns adds
    one entry at the end of the directory: its [Id] is the requested id, its
    [Offset] the buffer position before the codec ran, its [Length] the
    position after the codec ran minus that offset (a subtraction in
    [uint64_t]); the call returns true. *)
Theorem C5_ReadWriteChunk_writing {U : Type}
  (chunkId : Z) (f : U -> M U) (u u' : U) (s : OrcaStream) (stream : ChunkStream) :
  _mode s = WRITING ->
  f u (mkChunkStream (_buffer s) WRITING []) = Ok (u', stream) ->
  let before := MemoryStream.GetPosition (_buffer s) in
  let after := MemoryStream.GetPosition (cs_buffer stream) in
  let entry := mkChunkEntry chunkId before (to_size_t (after - before)) in
  ReadWriteChunk chunkId f u s
  = Ok ((true, u'),
        mkOrcaStream (_stream s) WRITING (_header s) (_chunks s ++ [entry])
          (cs_buffer stream) entry)
  /\ (before <= after < uint64_max -> Length entry = after - before).
Proof.
  intros Hmode Hf before after entry. split.
  - exact (ReadWriteChunk_writing_returns chunkId f u u' s stream Hmode Hf).
  - intros Hrange. cbn [Length entry]. apply to_size_t_small.
    unfold before, after, MemoryStream.GetPosition in *. lia.
Qed.

(** A codec that throws makes the call throw: nothing is added. *)
Lemma ReadWriteChunk_writing_throw {U : Type}
  (chunkId : Z) (f : U -> M U) (u : U) (s : OrcaStream) (e : error) :
  _mode s = WRITING ->
  f u (mkChunkStream (_buffer s) WRITING []) = Err e ->
  ReadWriteChunk chunkId f u s = Err e.
Proof.
  intros Hmode Hf. unfold ReadWriteChunk. rewrite Hmode.
  unfold bind, set_currentChunk, run_codec.
  cbn [_buffer _mode _stream _header _chunks _currentChunk].
  rewrite Hmode, Hf. reflexivity.
Qed.

Lemma C5_ReadWriteChunk_writing_witness :
  ReadWriteChunk 4096 (ReadWrite 4) 3735928559
    (mkOrcaStream (IStream.Build [] 0) WRITING Header_init [] MemoryStream.empty
       ChunkEntry_init)
  = Ok ((true, 3735928559),
        mkOrcaStream (IStream.Build [] 0) WRITING Header_init
          [mkChunkEntry 4096 0 4]
          (MemoryStream.Build [xef; xbe; xad; xde] 4)
          (mkChunkEntry 4096 0 4))
  /\ Length (mkChunkEntry 4096 0 (to_size_t (4 - 0))) = 4 - 0.
Proof.
  pose proof (C5_ReadWriteChunk_writing 4096 (ReadWrite 4) 3735928559 3735928559
                (mkOrcaStream (IStream.Build [] 0) WRITING Header_init []
                   MemoryStream.empty ChunkEntry_init)
                (mkChunkStream (MemoryStream.Build [xef; xbe; xad; xde] 4) WRITING [])
                eq_refl eq_refl) as [Hcall Hlength].
  split; [exact Hcall | apply Hlength; concrete].
Defined.

Lemma find_first_match (id : Z) (before after : list ChunkEntry) (e : ChunkEntry) :
  Forall (fun x => Id x <> id) before ->
  Id e = id ->
  List.find (fun x => Id x =? id) (before ++ e :: after) = Some e.
Proof.
  intros Hbefore He. induction Hbefore as [|x before Hx _ IH]; simpl.
  - rewrite (proj2 (Z.eqb_eq _ _) He). reflexivity.
  - rewrite (proj2 (Z.eqb_neq _ _) Hx). exact IH.
Qed.


(** What a call in READING mode does when the first entry with the
    requested id is [e]. *)
Lemma ReadWriteChunk_reading_found {U : Type}
  (chunkId : Z) (f : U -> M U) (u : U) (s : OrcaStream)
  (before after : list ChunkEntry) (e : ChunkEntry) :
  _mode s = READING ->
  _chunks s = before ++ e :: after ->
  Forall (fun x => Id x <> chunkId) before ->
  Id e = chunkId ->
  ReadWriteChunk chunkId f u s
  = match MemoryStream.SetPosition (Offset e) (_buffer s) with
    | Ok buffer =>
        match f u (mkChunkStream buffer READING []) with
        | Ok (u', stream) =>
            Ok ((true, u'),
                mkOrcaStream (_stream s) READING (_header s) (_chunks s)
                  (cs_buffer stream) (_currentChunk s))
        | Err err => Err err
        end
    | Err err => Err err
    end.
Proof.
  intros Hmode Hchunks Hbefore He.
  unfold ReadWriteChunk. rewrite Hmode.
  unfold bind, SeekChunk. rewrite Hchunks at 1.
  rewrite (find_first_match _ _ _ _ Hbefore He).
  destruct (MemoryStream.SetPosition (Offset e) (_buffer s)) as [buffer|err];
    [|reflexivity].
  unfold run_codec, ret. cbn [_buffer _mode _stream _header _chunks _currentChunk].
  rewrite Hmode.
  destruct (f u (mkChunkStream buffer READING [])) as [[u' stream]|err]; reflexivity.
Qed.



(** ** The array stack *)

Create HintDb stack.

Lemma keeps_stack_ret {A} (a : A) : keeps_stack (ret a).
Proof. intros cs a' cs' H. inversion H. reflexivity. Qed.

Lemma keeps_stack_throw {A} (e : error) : keeps_stack (@throw ChunkStream A e).
Proof. intros cs a cs' H. discriminate. Qed.

Lemma keeps_stack_bind {A B} (m : M A) (k : A -> M B) :
  keeps_stack m -> (forall a, keeps_stack (k a)) -> keeps_stack (bind m k).
Proof.
  intros Hm Hk cs b cs' H. inv_bind H.
  rewrite (Hk _ _ _ _ H). exact (Hm _ _ _ Hstep).
Qed.

Lemma keeps_stack_GetMode : keeps_stack GetMode.
Proof. intros cs a cs' H. inversion H. reflexivity. Qed.

Lemma keeps_stack_GetPosition : keeps_stack GetPosition.
Proof. intros cs a cs' H. inversion H. reflexivity. Qed.

Lemma keeps_stack_SetPosition (p : Z) : keeps_stack (SetPosition p).
Proof.
  intros cs a cs'. unfold SetPosition.
  destruct (MemoryStream.SetPosition p (cs_buffer cs)); intros H; inversion H.
  reflexivity.
Qed.

Lemma keeps_stack_ReadBuffer (n : nat) : keeps_stack (ReadBuffer n).
Proof.
  intros cs a cs'. unfold ReadBuffer.
  destruct (MemoryStream.Read n (cs_buffer cs)) as [[bs b]|]; intros H; inversion H.
  reflexivity.
Qed.

Lemma keeps_stack_WriteBuffer (bs : list byte) : keeps_stack (WriteBuffer bs).
Proof. intros cs a cs' H. inversion H. reflexivity. Qed.

#[local] Hint Resolve keeps_stack_ret keeps_stack_throw keeps_stack_GetMode
  keeps_stack_GetPosition keeps_stack_SetPosition keeps_stack_ReadBuffer
  keeps_stack_WriteBuffer : stack.

(** Goes through a sequence of steps, leaving the steps themselves to the
    hints. *)
Ltac stack_steps :=
  repeat first
    [ apply keeps_stack_bind; [|intros ?]
    | match goal with
      | |- keeps_stack (match ?x with _ => _ end) => destruct x
      | |- keeps_stack (if ?b then _ else _) => destruct b
      end ];
  auto with stack.

Lemma keeps_stack_ReadWrite_raw (bs : list byte) : keeps_stack (ReadWrite_raw bs).
Proof. unfold ReadWrite_raw. stack_steps. Qed.
#[local] Hint Resolve keeps_stack_ReadWrite_raw : stack.

Lemma keeps_stack_ReadWrite (n : nat) (v : Z) : keeps_stack (ReadWrite n v).
Proof. unfold ReadWrite. stack_steps. Qed.
#[local] Hint Resolve keeps_stack_ReadWrite : stack.

Lemma keeps_stack_Read (n : nat) : keeps_stack (Read n).
Proof. unfold Read. stack_steps. Qed.

Lemma keeps_stack_Write (n : nat) (v : Z) : keeps_stack (Write n v).
Proof. unfold Write. stack_steps. Qed.
#[local] Hint Resolve keeps_stack_Read keeps_stack_Write : stack.

Lemma keeps_stack_WriteString (s : list byte) : keeps_stack (WriteString s).
Proof. unfold WriteString. stack_steps. Qed.

Lemma keeps_stack_ReadString_loop (fuel : nat) (buffer : list byte) :
  keeps_stack (ReadString_loop fuel buffer).
Proof.
  revert buffer. induction fuel as [|fuel IH]; intros buffer;
    rewrite ReadString_loop_unfold; stack_steps.
Qed.

Lemma keeps_stack_ReadString : keeps_stack ReadString.
Proof. intros cs a cs' H. exact (keeps_stack_ReadString_loop _ _ _ _ _ H). Qed.
#[local] Hint Resolve keeps_stack_WriteString keeps_stack_ReadString : stack.

Lemma keeps_stack_ReadWrite_string (v : list byte) : keeps_stack (ReadWrite_string v).
Proof. unfold ReadWrite_string. stack_steps. Qed.
#[local] Hint Resolve keeps_stack_ReadWrite_string : stack.

Lemma keeps_frames_below_of_keeps_stack {A} (m : M A) :
  keeps_stack m -> keeps_frames_below m.
Proof.
  intros Hm cs a cs' st below Hstack H. exists st.
  rewrite (Hm _ _ _ H). exact Hstack.
Qed.

Lemma keeps_frames_below_bind {A B} (m : M A) (k : A -> M B) :
  keeps_frames_below m -> (forall a, keeps_frames_below (k a)) ->
  keeps_frames_below (bind m k).
Proof.
  intros Hm Hk cs b cs' st below Hstack H. inv_bind H.
  destruct (Hm _ _ _ _ _ Hstack Hstep) as [st1 Hstack1].
  exact (Hk _ _ _ _ _ _ Hstack1 H).
Qed.

Lemma keeps_frames_below_set_top (st : ArrayState) : keeps_frames_below (set_top st).
Proof.
  intros cs a cs' st0 below Hstack. unfold set_top. rewrite Hstack.
  intros H. inversion H. exists st. reflexivity.
Qed.

Lemma keeps_stack_top : keeps_stack top.
Proof.
  intros cs a cs'. unfold top.
  destruct (cs_arrayStack cs) eqn:E; intros H; inversion H; subst.
  exact E.
Qed.
#[local] Hint Resolve keeps_stack_top : stack.

Ltac frame_steps :=
  repeat first
    [ apply keeps_frames_below_bind; [|intros ?]
    | match goal with
      | |- keeps_frames_below (match ?x with _ => _ end) => destruct x
      | |- keeps_frames_below (if ?b then _ else _) => destruct b
      end ];
  first [ apply keeps_frames_below_set_top
        | apply keeps_frames_below_of_keeps_stack; stack_steps ].

Lemma keeps_frames_below_NextArrayElement : keeps_frames_below NextArrayElement.
Proof. unfold NextArrayElement. frame_steps. Qed.

(** [BeginArray] pushes one frame. *)
Lemma BeginArray_pushes (cs cs' : ChunkStream) (count : Z) :
  BeginArray cs = Ok (count, cs') ->
  exists st, cs_arrayStack cs' = st :: cs_arrayStack cs.
Proof.
  unfold BeginArray. intros H. inv_bind H.
  assert (Hpush : cs_arrayStack cs0 = ArrayState_init :: cs_arrayStack cs)
    by (inversion Hstep; reflexivity).
  revert H. generalize cs0 count cs' ArrayState_init (cs_arrayStack cs) Hpush.
  clear. intros cs count cs' st below Hstack H.
  assert (Hframes : keeps_frames_below
    (mode <- GetMode ;;
     match mode with
     | READING =>
         count <- Read 4 ;;
         elementSize <- Read 4 ;;
         pos <- GetPosition ;;
         set_top (mkArrayState 0 pos count elementSize) ;;;
         ret count
     | WRITING =>
         start <- GetPosition ;;
         Write 4 0 ;;;
         Write 4 0 ;;;
         pos <- GetPosition ;;
         set_top (mkArrayState start pos 0 0) ;;;
         ret 0
     end)) by frame_steps.
  exact (Hframes _ _ _ _ _ Hstack H).
Qed.

(** [EndArray] pops the top frame. *)
Lemma EndArray_pops (cs cs' : ChunkStream) (u : unit) :
  EndArray cs = Ok (u, cs') ->
  exists st, cs_arrayStack cs = st :: cs_arrayStack cs'.
Proof.
  unfold EndArray. intros H. inv_bind H.
  assert (Hcs0 : cs_arrayStack cs0 = cs_arrayStack cs)
    by exact (keeps_stack_top _ _ _ Hstep).
  inv_bind H.
  assert (Hcs1 : cs_arrayStack cs1 = cs_arrayStack cs0)
    by exact (keeps_stack_GetMode _ _ _ Hstep0).
  inv_bind H.
  assert (Hcs2 : cs_arrayStack cs2 = cs_arrayStack cs1).
  { revert Hstep1. generalize cs1 a1 cs2.
    change (keeps_stack
              match a0 with
              | READING => ret tt
              | WRITING =>
                  backupPos <- GetPosition ;;
                  if negb (backupPos =? to_size_t (StartPos a + 8)) && (Count a =? 0)
                  then throw MalformedArray
                  else
                    SetPosition (StartPos a) ;;;
                    Write 4 (to_uint32 (Count a)) ;;;
                    Write 4 (to_uint32 (ElementSize a)) ;;;
                    SetPosition backupPos
              end).
    stack_steps. }
  unfold pop in H. rewrite Hcs2, Hcs1, Hcs0 in H.
  destruct (cs_arrayStack cs) as [|st below]; [discriminate|].
  inversion H. exists st. reflexivity.
Qed.

(** Whatever runs between a [BeginArray] and its [EndArray] without
    touching the frames below leaves the stack balanced. *)
Lemma keeps_stack_framed {A B} (body : Z -> M A) (k : A -> M B) :
  (forall count, keeps_frames_below (body count)) ->
  (forall a, keeps_stack (k a)) ->
  keeps_stack (count <- BeginArray ;; a <- body count ;; EndArray ;;; k a).
Proof.
  intros Hbody Hk cs b cs' H.
  inv_bind H. destruct (BeginArray_pushes _ _ _ Hstep) as [st Hpush].
  inv_bind H. destruct (Hbody _ _ _ _ _ _ Hpush Hstep0) as [st' Hframe].
  inv_bind H. destruct a1. destruct (EndArray_pops _ _ _ Hstep1) as [st'' Hpop].
  rewrite (Hk _ _ _ _ H). congruence.
Qed.

Section ArrayStack.

Context {A : Type}.
Variable dflt : A.

Lemma keeps_frames_below_ReadWriteVector_read (f : A -> M A) :
  (forall el, keeps_stack (f el)) ->
  forall n vec, keeps_frames_below (ReadWriteVector_read dflt f n vec).
Proof.
  intros Hf. induction n as [|n IH]; intros vec; cbn [ReadWriteVector_read].
  - apply keeps_frames_below_of_keeps_stack, keeps_stack_ret.
  - apply keeps_frames_below_bind;
      [apply keeps_frames_below_of_keeps_stack, Hf | intros el].
    apply keeps_frames_below_bind;
      [apply keeps_frames_below_NextArrayElement | intros _; apply IH].
Qed.

Lemma keeps_frames_below_ReadWriteVector_write (f : A -> M A) :
  (forall el, keeps_stack (f el)) ->
  forall vec, keeps_frames_below (ReadWriteVector_write f vec).
Proof.
  intros Hf. induction vec as [|el vec IH]; cbn [ReadWriteVector_write].
  - apply keeps_frames_below_of_keeps_stack, keeps_stack_ret.
  - apply keeps_frames_below_bind;
      [apply keeps_frames_below_of_keeps_stack, Hf | intros el'].
    apply keeps_frames_below_bind;
      [apply keeps_frames_below_NextArrayElement | intros _].
    apply keeps_frames_below_bind; [apply IH | intros rest].
    apply keeps_frames_below_of_keeps_stack, keeps_stack_ret.
Qed.

Lemma keeps_stack_ReadWriteVector (f : A -> M A) (vec : list A) :
  (forall el, keeps_stack (f el)) -> keeps_stack (ReadWriteVector dflt f vec).
Proof.
  intros Hf. unfold ReadWriteVector.
  apply keeps_stack_bind; [apply keeps_stack_GetMode | intros [|]].
  - apply (keeps_stack_framed
             (fun count => ReadWriteVector_read dflt f (Z.to_nat count) []) ret).
    + intros count. apply keeps_frames_below_ReadWriteVector_read, Hf.
    + intros a. apply keeps_stack_ret.
  - apply (keeps_stack_framed (fun _ => ReadWriteVector_write f vec) ret).
    + intros _. apply keeps_frames_below_ReadWriteVector_write, Hf.
    + intros a. apply keeps_stack_ret.
Qed.

Lemma keeps_frames_below_ReadWriteArray_read (f : A -> M (bool * A)) :
  (forall el, keeps_stack (f el)) ->
  forall n i arr, keeps_frames_below (ReadWriteArray_read f n i arr).
Proof.
  intros Hf. induction n as [|n IH]; intros i arr; cbn [ReadWriteArray_read].
  - apply keeps_frames_below_of_keeps_stack, keeps_stack_ret.
  - apply keeps_frames_below_bind.
    + apply keeps_frames_below_of_keeps_stack.
      destruct (arr !! i) as [el|]; [|apply keeps_stack_ret].
      apply keeps_stack_bind; [apply Hf | intros r; apply keeps_stack_ret].
    + intros arr'.
      apply keeps_frames_below_bind;
        [apply keeps_frames_below_NextArrayElement | intros _; apply IH].
Qed.

Lemma keeps_frames_below_ReadWriteArray_write (f : A -> M (bool * A)) :
  (forall el, keeps_stack (f el)) ->
  forall arr, keeps_frames_below (ReadWriteArray_write f arr).
Proof.
  intros Hf. induction arr as [|el arr IH]; cbn [ReadWriteArray_write].
  - apply keeps_frames_below_of_keeps_stack, keeps_stack_ret.
  - apply keeps_frames_below_bind;
      [apply keeps_frames_below_of_keeps_stack, Hf | intros r].
    apply keeps_frames_below_bind.
    + destruct r.1;
        [apply keeps_frames_below_NextArrayElement
        |apply keeps_frames_below_of_keeps_stack, keeps_stack_ret].
    + intros _. apply keeps_frames_below_bind; [apply IH | intros rest].
      apply keeps_frames_below_of_keeps_stack, keeps_stack_ret.
Qed.

Lemma keeps_stack_ReadWriteArray (f : A -> M (bool * A)) (arr : list A) :
  (forall el, keeps_stack (f el)) -> keeps_stack (ReadWriteArray dflt f arr).
Proof.
  intros Hf. unfold ReadWriteArray.
  apply keeps_stack_bind; [apply keeps_stack_GetMode | intros [|]].
  - apply (keeps_stack_framed
             (fun count =>
                ReadWriteArray_read f (Z.to_nat count) 0 ((fun _ => dflt) <$> arr)) ret).
    + intros count. apply keeps_frames_below_ReadWriteArray_read, Hf.
    + intros a. apply keeps_stack_ret.
  - apply (keeps_stack_framed (fun _ => ReadWriteArray_write f arr) ret).
    + intros _. apply keeps_frames_below_ReadWriteArray_write, Hf.
    + intros a. apply keeps_stack_ret.
Qed.

End ArrayStack.

Lemma keeps_stack_rw (t : ty) : forall v : val t, keeps_stack (rw t v).
Proof.
  induction t as [n| |t IH|n t IH| |a IHa b IHb]; intros v; cbn [rw].
  - apply keeps_stack_ReadWrite.
  - apply keeps_stack_ReadWrite_string.
  - apply keeps_stack_ReadWriteVector, IH.
  - apply keeps_stack_ReadWriteArray. intros el.
    apply keeps_stack_bind; [apply IH | intros el'; apply keeps_stack_ret].
  - apply keeps_stack_ret.
  - apply keeps_stack_bind; [apply IHa | intros x].
    apply keeps_stack_bind; [apply IHb | intros y; apply keeps_stack_ret].
Qed.

Section ArrayFrames.

Context {A : Type}.
Variable dflt : A.

(** A call that returns is a [BeginArray], the loop and an [EndArray]. *)
Lemma ReadWriteVector_framed (f : A -> M A) (vec : list A) :
  (forall el, keeps_stack (f el)) ->
  forall cs vec' cs',
    ReadWriteVector dflt f vec cs = Ok (vec', cs') ->
    framed_run (ReadWriteVector_loop dflt f vec) cs vec' cs'.
Proof.
  intros Hf cs vec' cs' H. unfold ReadWriteVector in H. rewrite GetMode_bind in H.
  assert (Hrun : (count <- BeginArray ;;
                  vec' <- ReadWriteVector_loop dflt f vec (cs_mode cs) count ;;
                  EndArray ;;; ret vec') cs = Ok (vec', cs'))
    by (destruct (cs_mode cs); exact H).
  clear H. inv_bind Hrun. destruct (BeginArray_pushes _ _ _ Hstep) as [st Hpush].
  inv_bind Hrun.
  assert (Hbelow : exists st', cs_arrayStack cs1 = st' :: cs_arrayStack cs).
  { destruct (cs_mode cs); cbn [ReadWriteVector_loop] in Hstep0.
    - exact (keeps_frames_below_ReadWriteVector_read dflt f Hf _ _ _ _ _ _ _
               Hpush Hstep0).
    - exact (keeps_frames_below_ReadWriteVector_write f Hf _ _ _ _ _ _
               Hpush Hstep0). }
  destruct Hbelow as [st' Hframe].
  inv_bind Hrun. destruct a1. inversion Hrun. subst.
  destruct (EndArray_pops _ _ _ Hstep1) as [st'' Hpop].
  exists a, cs0, cs1, st, st'. repeat split; try assumption. congruence.
Qed.

Lemma ReadWriteArray_framed (f : A -> M (bool * A)) (arr : list A) :
  (forall el, keeps_stack (f el)) ->
  forall cs arr' cs',
    ReadWriteArray dflt f arr cs = Ok (arr', cs') ->
    framed_run (ReadWriteArray_loop dflt f arr) cs arr' cs'.
Proof.
  intros Hf cs arr' cs' H. unfold ReadWriteArray in H. rewrite GetMode_bind in H.
  assert (Hrun : (count <- BeginArray ;;
                  arr' <- ReadWriteArray_loop dflt f arr (cs_mode cs) count ;;
                  EndArray ;;; ret arr') cs = Ok (arr', cs'))
    by (destruct (cs_mode cs); exact H).
  clear H. inv_bind Hrun. destruct (BeginArray_pushes _ _ _ Hstep) as [st Hpush].
  inv_bind Hrun.
  assert (Hbelow : exists st', cs_arrayStack cs1 = st' :: cs_arrayStack cs).
  { destruct (cs_mode cs); cbn [ReadWriteArray_loop] in Hstep0.
    - exact (keeps_frames_below_ReadWriteArray_read f Hf _ _ _ _ _ _ _ _
               Hpush Hstep0).
    - exact (keeps_frames_below_ReadWriteArray_write f Hf _ _ _ _ _ _
               Hpush Hstep0). }
  destruct Hbelow as [st' Hframe].
  inv_bind Hrun. destruct a1. inversion Hrun. subst.
  destruct (EndArray_pops _ _ _ Hstep1) as [st'' Hpop].
  exists a, cs0, cs1, st, st'. repeat split; try assumption. congruence.
Qed.

End ArrayFrames.

Lemma bind_ext_on {S A B} (m : St S A) (k1 k2 : A -> St S B) (s : S) :
  (forall a s', m s = Ok (a, s') -> k1 a s' = k2 a s') ->
  bind m k1 s = bind m k2 s.
Proof.
  intros H. unfold bind. destruct (m s) as [[a s']|e]; [|reflexivity].
  apply H. reflexivity.
Qed.

Lemma at_depth_here {A B} (f : A -> M B) (el : A) (cs : ChunkStream) :
  at_depth (length (cs_arrayStack cs)) f el cs = f el cs.
Proof. unfold at_depth. rewrite bool_decide_eq_true_2 by reflexivity. reflexivity. Qed.

Lemma NextArrayElement_depth (cs cs' : ChunkStream) (b : bool) :
  NextArrayElement cs = Ok (b, cs') ->
  length (cs_arrayStack cs') = length (cs_arrayStack cs).
Proof.
  intros H. destruct (cs_arrayStack cs) as [|st below] eqn:Hstack.
  - unfold NextArrayElement, bind, top in H. rewrite Hstack in H. discriminate.
  - destruct (keeps_frames_below_NextArrayElement _ _ _ _ _ Hstack H) as [st' ->].
    reflexivity.
Qed.

Section ArrayDepth.

Context {A : Type}.
Variable dflt : A.

(** The loops start every element codec with the stack as deep as they
    found it. *)
Lemma ReadWriteVector_read_depth (f : A -> M A) :
  (forall el, keeps_stack (f el)) ->
  forall n acc cs,
    ReadWriteVector_read dflt (at_depth (length (cs_arrayStack cs)) f) n acc cs
    = ReadWriteVector_read dflt f n acc cs.
Proof.
  intros Hf. induction n as [|n IH]; intros acc cs; cbn [ReadWriteVector_read];
    [reflexivity|].
  unfold bind at 1 3. rewrite at_depth_here.
  destruct (f dflt cs) as [[el cs1]|e] eqn:Hrun; [|reflexivity].
  apply bind_ext_on. intros b cs2 Hnext.
  rewrite <- (Hf _ _ _ _ Hrun), <- (NextArrayElement_depth _ _ _ Hnext). apply IH.
Qed.

Lemma ReadWriteVector_write_depth (f : A -> M A) :
  (forall el, keeps_stack (f el)) ->
  forall vec cs,
    ReadWriteVector_write (at_depth (length (cs_arrayStack cs)) f) vec cs
    = ReadWriteVector_write f vec cs.
Proof.
  intros Hf. induction vec as [|el vec IH]; intros cs; cbn [ReadWriteVector_write];
    [reflexivity|].
  unfold bind at 1 4. rewrite at_depth_here.
  destruct (f el cs) as [[el' cs1]|e] eqn:Hrun; [|reflexivity].
  apply bind_ext_on. intros b cs2 Hnext. unfold bind.
  rewrite <- (Hf _ _ _ _ Hrun), <- (NextArrayElement_depth _ _ _ Hnext), IH.
  reflexivity.
Qed.

Lemma ReadWriteArray_read_depth (f : A -> M (bool * A)) :
  (forall el, keeps_stack (f el)) ->
  forall n i arr cs,
    ReadWriteArray_read (at_depth (length (cs_arrayStack cs)) f) n i arr cs
    = ReadWriteArray_read f n i arr cs.
Proof.
  intros Hf. induction n as [|n IH]; intros i arr cs; cbn [ReadWriteArray_read];
    [reflexivity|].
  assert (Hel : match arr !! i with
                | Some el =>
                    r <- at_depth (length (cs_arrayStack cs)) f el ;;
                    ret (<[i := r.2]> arr)
                | None => ret arr
                end cs
                = match arr !! i with
                  | Some el => r <- f el ;; ret (<[i := r.2]> arr)
                  | None => ret arr
                  end cs).
  { destruct (arr !! i) as [el|]; [|reflexivity].
    unfold bind. rewrite at_depth_here. reflexivity. }
  unfold bind at 1. rewrite Hel. unfold bind at 3.
  destruct (match arr !! i with
            | Some el => r <- f el ;; ret (<[i := r.2]> arr)
            | None => ret arr
            end cs) as [[arr' cs1]|e] eqn:Hrun; [|reflexivity].
  assert (Hstack : cs_arrayStack cs1 = cs_arrayStack cs).
  { destruct (arr !! i) as [el|].
    - inv_bind Hrun. inversion Hrun. subst. exact (Hf _ _ _ _ Hstep).
    - inversion Hrun. reflexivity. }
  apply bind_ext_on. intros b cs2 Hnext.
  rewrite <- Hstack, <- (NextArrayElement_depth _ _ _ Hnext). apply IH.
Qed.

Lemma ReadWriteArray_write_depth (f : A -> M (bool * A)) :
  (forall el, keeps_stack (f el)) ->
  forall arr cs,
    ReadWriteArray_write (at_depth (length (cs_arrayStack cs)) f) arr cs
    = ReadWriteArray_write f arr cs.
Proof.
  intros Hf. induction arr as [|el arr IH]; intros cs; cbn [ReadWriteArray_write];
    [reflexivity|].
  unfold bind at 1 4. rewrite at_depth_here.
  destruct (f el cs) as [[r cs1]|e] eqn:Hrun; [|reflexivity].
  apply bind_ext_on. intros b cs2 Hnext. unfold bind.
  assert (Hdepth : length (cs_arrayStack cs2) = length (cs_arrayStack cs1)).
  { destruct r.1; [exact (NextArrayElement_depth _ _ _ Hnext)|].
    inversion Hnext. reflexivity. }
  rewrite <- (Hf _ _ _ _ Hrun), <- Hdepth, IH. reflexivity.
Qed.

(** A call starts every element codec one frame deeper than it was
    started itself. *)
Lemma ReadWriteVector_depth (f : A -> M A) (vec : list A) (cs : ChunkStream) :
  (forall el, keeps_stack (f el)) ->
  ReadWriteVector dflt (at_depth (S (length (cs_arrayStack cs))) f) vec cs
  = ReadWriteVector dflt f vec cs.
Proof.
  intros Hf. unfold ReadWriteVector. rewrite !GetMode_bind.
  destruct (cs_mode cs); apply bind_ext_on; intros count cs1 Hbegin;
    destruct (BeginArray_pushes _ _ _ Hbegin) as [st Hpush];
    replace (S (length (cs_arrayStack cs))) with (length (cs_arrayStack cs1))
      by (rewrite Hpush; reflexivity);
    unfold bind.
  - rewrite ReadWriteVector_read_depth by exact Hf. reflexivity.
  - rewrite ReadWriteVector_write_depth by exact Hf. reflexivity.
Qed.

Lemma ReadWriteArray_depth (f : A -> M (bool * A)) (arr : list A) (cs : ChunkStream) :
  (forall el, keeps_stack (f el)) ->
  ReadWriteArray dflt (at_depth (S (length (cs_arrayStack cs))) f) arr cs
  = ReadWriteArray dflt f arr cs.
Proof.
  intros Hf. unfold ReadWriteArray. rewrite !GetMode_bind.
  destruct (cs_mode cs); apply bind_ext_on; intros count cs1 Hbegin;
    destruct (BeginArray_pushes _ _ _ Hbegin) as [st Hpush];
    replace (S (length (cs_arrayStack cs))) with (length (cs_arrayStack cs1))
      by (rewrite Hpush; reflexivity);
    unfold bind.
  - rewrite ReadWriteArray_read_depth by exact Hf. reflexivity.
  - rewrite ReadWriteArray_write_depth by exact Hf. reflexivity.
Qed.

End ArrayDepth.

(** C9: [BeginArray] pushes one frame and [EndArray] pops the top one.  A
    call of [ReadWriteVector] or [ReadWriteArray] that returns, in either
    mode, is made of them: its [BeginArray] pushes one frame on the stack it
    found, its loop runs above that stack, and its [EndArray] pops that
    frame, so it leaves the stack as it was, provided the element codec
    leaves it so, which holds for codecs that nest further arrays.  Every
    element codec is started exactly one frame deeper than the call: a codec
    that throws at any other depth changes nothing of what the call does.  A
    chunk codec built from the primitives, started on the empty stack,
    returns with the empty stack. *)
Theorem C9_array_stack_balanced :
  (forall cs cs' count,
     BeginArray cs = Ok (count, cs') ->
     exists st, cs_arrayStack cs' = st :: cs_arrayStack cs)
  /\ (forall cs cs' u,
        EndArray cs = Ok (u, cs') ->
        exists st, cs_arrayStack cs = st :: cs_arrayStack cs')
  /\ (forall (A : Type) (dflt : A) (f : A -> M A) (vec : list A),
        (forall el, keeps_stack (f el)) ->
        forall cs vec' cs',
          ReadWriteVector dflt f vec cs = Ok (vec', cs') ->
          cs_arrayStack cs' = cs_arrayStack cs)
  /\ (forall (A : Type) (dflt : A) (f : A -> M (bool * A)) (arr : list A),
        (forall el, keeps_stack (f el)) ->
        forall cs arr' cs',
          ReadWriteArray dflt f arr cs = Ok (arr', cs') ->
          cs_arrayStack cs' = cs_arrayStack cs)
  /\ (forall (t : ty) (v : val t), keeps_stack (rw t v))
  /\ (forall (t : ty) (v v' : val t) buffer mode cs',
        rw t v (mkChunkStream buffer mode []) = Ok (v', cs') ->
        cs_arrayStack cs' = [])
  /\ (forall (A : Type) (dflt : A) (f : A -> M A) (vec : list A),
        (forall el, keeps_stack (f el)) ->
        forall cs vec' cs',
          ReadWriteVector dflt f vec cs = Ok (vec', cs') ->
          framed_run (ReadWriteVector_loop dflt f vec) cs vec' cs')
  /\ (forall (A : Type) (dflt : A) (f : A -> M (bool * A)) (arr : list A),
        (forall el, keeps_stack (f el)) ->
        forall cs arr' cs',
          ReadWriteArray dflt f arr cs = Ok (arr', cs') ->
          framed_run (ReadWriteArray_loop dflt f arr) cs arr' cs')
  /\ (forall (A : Type) (dflt : A) (f : A -> M A) (vec : list A) cs,
        (forall el, keeps_stack (f el)) ->
        ReadWriteVector dflt (at_depth (S (length (cs_arrayStack cs))) f) vec cs
        = ReadWriteVector dflt f vec cs)
  /\ (forall (A : Type) (dflt : A) (f : A -> M (bool * A)) (arr : list A) cs,
        (forall el, keeps_stack (f el)) ->
        ReadWriteArray dflt (at_depth (S (length (cs_arrayStack cs))) f) arr cs
        = ReadWriteArray dflt f arr cs).
Proof.
  split; [exact BeginArray_pushes|].
  split; [exact EndArray_pops|].
  split; [intros A dflt f vec Hf; exact (keeps_stack_ReadWriteVector dflt f vec Hf)|].
  split; [intros A dflt f arr Hf; exact (keeps_stack_ReadWriteArray dflt f arr Hf)|].
  split; [exact keeps_stack_rw|].
  split; [intros t v v' buffer mode cs' H; exact (keeps_stack_rw t v _ _ _ H)|].
  split; [intros A dflt f vec Hf; exact (ReadWriteVector_framed dflt f vec Hf)|].
  split; [intros A dflt f arr Hf; exact (ReadWriteArray_framed dflt f arr Hf)|].
  split; [intros A dflt f vec cs Hf; exact (ReadWriteVector_depth dflt f vec cs Hf)|].
  intros A dflt f arr cs Hf. exact (ReadWriteArray_depth dflt f arr cs Hf).
Qed.

(** ** Stride detection by the writer *)

Lemma stride_from_zero (sizes : list Z) (count : Z) :
  0 < count -> stride_from count 0 sizes = 0.
Proof.
  revert count. induction sizes as [|k sizes IH]; intros count Hc; cbn [stride_from].
  - reflexivity.
  - rewrite (proj2 (Z.eqb_neq count 0)) by lia.
    destruct (negb (0 =? k)); apply IH; lia.
Qed.

Lemma stride_from_same (sizes : list Z) (count k : Z) :
  0 < count -> Forall (fun k' => k' = k) sizes -> stride_from count k sizes = k.
Proof.
  intros Hc Hall. revert count Hc.
  induction Hall as [|k' sizes -> _ IH]; intros count Hc; cbn [stride_from].
  - reflexivity.
  - rewrite (proj2 (Z.eqb_neq count 0)) by lia.
    rewrite Z.eqb_refl. cbn [negb]. apply IH. lia.
Qed.

Lemma stride_from_differ (sizes : list Z) (count k : Z) :
  0 < count -> Exists (fun k' => k' <> k) sizes -> stride_from count k sizes = 0.
Proof.
  intros Hc Hex. revert count Hc.
  induction Hex as [k' sizes Hk'|k' sizes _ IH]; intros count Hc; cbn [stride_from];
    rewrite (proj2 (Z.eqb_neq count 0)) by lia.
  - rewrite (proj2 (Z.eqb_neq k k')) by congruence. cbn [negb].
    apply stride_from_zero. lia.
  - destruct (Z.eqb_spec k k') as [_|_]; cbn [negb].
    + apply IH. lia.
    + apply stride_from_zero. lia.
Qed.

Lemma BeginArray_writing (d : list byte) (stack : list ArrayState) :
  BeginArray (at_end d stack)
  = Ok (0, at_end (d ++ le_bytes 4 0 ++ le_bytes 4 0)
             (mkArrayState (Z.of_nat (length d))
                (Z.of_nat (length (d ++ le_bytes 4 0 ++ le_bytes 4 0))) 0 0 :: stack)).
Proof.
  unfold BeginArray, at_end, emplace. unfold bind at 1.
  unfold bind at 1, GetMode. cbn [cs_mode cs_buffer cs_arrayStack].
  unfold bind at 1, GetPosition, MemoryStream.GetPosition.
  cbn [cs_buffer MemoryStream.position].
  unfold bind at 1. rewrite Write_writing.
  unfold bind at 1. rewrite Write_writing.
  rewrite MemoryStream_Write_Write, MemoryStream_Write_at_end.
  reflexivity.
Qed.

Lemma NextArrayElement_writing (d : list byte) (st : ArrayState) (stack : list ArrayState) :
  NextArrayElement (at_end d (st :: stack))
  = Ok (true,
        at_end d
          (mkArrayState (StartPos st) (Z.of_nat (length d))
             (to_size_t (Count st + 1))
             (let lastElSize := to_size_t (Z.of_nat (length d) - LastPos st) in
              if Count st =? 0 then lastElSize
              else if negb (ElementSize st =? lastElSize) then 0
                   else ElementSize st)
           :: stack)).
Proof. reflexivity. Qed.

Section WriterLoops.

Context {A : Type}.


Lemma ReadWriteArray_write_spec (f : A -> M (bool * A)) (sz : A -> Z) (arr : list A) :
  Forall (fun el => appends_counted (f el) (sz el) /\ sz el < uint64_max) arr ->
  forall d start count elementSize stack,
    0 <= count ->
    count + Z.of_nat (length arr) < uint64_max ->
    exists arr' bs,
      ReadWriteArray_write f arr
        (at_end d (mkArrayState start (Z.of_nat (length d)) count elementSize :: stack))
      = Ok (arr',
            at_end (d ++ bs)
              (mkArrayState start (Z.of_nat (length (d ++ bs)))
                 (count + Z.of_nat (length arr))
                 (stride_from count elementSize (sz <$> arr)) :: stack))
      /\ length arr' = length arr
      /\ (arr = [] -> bs = []).
Proof.
  induction 1 as [|el arr [Hel Hsz] _ IH];
    intros d start count elementSize stack Hcount Hmax.
  - exists [], []. cbn [ReadWriteArray_write length fmap list_fmap stride_from].
    unfold ret. rewrite app_nil_r, Z.add_0_r. repeat split; reflexivity.
  - cbn [length] in Hmax. cbn [ReadWriteArray_write].
    destruct (Hel d (mkArrayState start (Z.of_nat (length d)) count elementSize :: stack))
      as (el' & bs & Hrun & Hlen).
    rewrite (bind_Ok _ _ _ _ _ Hrun). cbn [fst snd].
    unfold bind at 1. rewrite NextArrayElement_writing.
    cbn [StartPos LastPos Count ElementSize].
    rewrite to_size_t_small by lia.
    replace (to_size_t (Z.of_nat (length (d ++ bs)) - Z.of_nat (length d)))
      with (sz el)
      by (rewrite to_size_t_small; rewrite length_app; lia).
    destruct (IH (d ++ bs) start (count + 1)
                (if count =? 0 then sz el
                 else if negb (elementSize =? sz el) then 0 else elementSize)
                stack ltac:(lia) ltac:(lia))
      as (arr' & bs' & Hloop & Hlen' & _).
    cbv zeta. rewrite (bind_Ok _ _ _ _ _ Hloop).
    exists (el' :: arr'), (bs ++ bs'). unfold ret.
    rewrite <- !app_assoc. cbn [fmap list_fmap stride_from length].
    split; [|split; [rewrite Hlen'; reflexivity | discriminate]].
    do 2 f_equal. unfold at_end. state_eq.
Qed.

End WriterLoops.

Lemma patch_header_at (d post : list byte) (c0 e0 count elementSize : Z) :
  patch_header (length d) count elementSize
    (d ++ (le_bytes 4 c0 ++ le_bytes 4 e0) ++ post)
  = d ++ (le_bytes 4 count ++ le_bytes 4 elementSize) ++ post.
Proof.
  unfold patch_header. rewrite take_app_length.
  rewrite drop_app_add. rewrite drop_app_length'; [reflexivity|].
  rewrite length_app, !length_le_bytes. reflexivity.
Qed.

(** A frame closed by a writer at the end of the buffer. *)
Lemma EndArray_at_end (d body : list byte) (count elementSize : Z)
    (stack : list ArrayState) :
  Z.of_nat (length d) + 8 < uint64_max ->
  (count = 0 -> body = []) ->
  EndArray
    (at_end (d ++ (le_bytes 4 0 ++ le_bytes 4 0) ++ body)
       (mkArrayState (Z.of_nat (length d))
          (Z.of_nat (length (d ++ (le_bytes 4 0 ++ le_bytes 4 0) ++ body)))
          count elementSize :: stack))
  = Ok (tt, at_end (d ++ (le_bytes 4 (to_uint32 count)
                          ++ le_bytes 4 (to_uint32 elementSize)) ++ body) stack).
Proof.
  intros Hmax Hbody. unfold at_end. rewrite EndArray_writing.
  - cbn [StartPos Count ElementSize MemoryStream.data MemoryStream.position
           MemoryStream.GetPosition].
    destruct (decide _) as [[Hc Hp]|_].
    + exfalso. apply Hp. rewrite (Hbody Hc).
      unfold MemoryStream.GetPosition. cbn [MemoryStream.position].
      rewrite !length_app, !length_le_bytes. cbn [length]. lia.
    + rewrite Nat2Z.id, patch_header_at. do 3 f_equal.
      rewrite !length_app, !length_le_bytes. reflexivity.
  - unfold MemoryStream.wf. cbn [MemoryStream.data MemoryStream.position]. lia.
  - unfold MemoryStream.GetLength. cbn [StartPos MemoryStream.data].
    rewrite length_app. lia.
  - cbn [StartPos]. exact Hmax.
Qed.

Section WriterFrames.

Context {A : Type}.
Variable dflt : A.


Lemma ReadWriteArray_writing (f : A -> M (bool * A)) (sz : A -> Z) (arr : list A)
    (d : list byte) (stack : list ArrayState) :
  Forall (fun el => appends_counted (f el) (sz el) /\ sz el < uint64_max) arr ->
  Z.of_nat (length arr) < uint64_max ->
  Z.of_nat (length d) + 8 < uint64_max ->
  exists arr' body,
    ReadWriteArray dflt f arr (at_end d stack)
    = Ok (arr',
          at_end (d ++ (le_bytes 4 (to_uint32 (Z.of_nat (length arr)))
                        ++ le_bytes 4 (to_uint32 (stride_from 0 0 (sz <$> arr))))
                    ++ body) stack)
    /\ length arr' = length arr.
Proof.
  intros Hf Hlen Hmax. unfold ReadWriteArray.
  unfold bind at 1, GetMode. cbn [cs_mode at_end].
  fold (at_end d stack). unfold bind at 1. rewrite BeginArray_writing.
  destruct (ReadWriteArray_write_spec f sz arr Hf
              (d ++ le_bytes 4 0 ++ le_bytes 4 0) (Z.of_nat (length d)) 0 0 stack
              ltac:(lia) ltac:(lia))
    as (arr' & body & Hloop & Hlen' & Hnil).
  rewrite (bind_Ok _ _ _ _ _ Hloop).
  exists arr', body. split; [|exact Hlen'].
  rewrite <- (app_assoc d _ body).
  unfold bind at 1. rewrite Z.add_0_l.
  rewrite EndArray_at_end; [reflexivity | exact Hmax |].
  intros Hzero. apply Hnil. destruct arr; [reflexivity | cbn [length] in Hzero; lia].
Qed.

End WriterFrames.

Lemma stride_same {A} (sz : A -> Z) (k : Z) (vec : list A) :
  vec <> [] -> Forall (fun el => sz el = k) vec -> stride_from 0 0 (sz <$> vec) = k.
Proof.
  intros Hne Hall. destruct Hall as [|el vec Hel Hall]; [congruence|].
  cbn [fmap list_fmap stride_from Z.eqb]. rewrite Hel.
  apply stride_from_same; [lia|].
  apply Forall_fmap. exact Hall.
Qed.

Lemma stride_differ {A} (sz : A -> Z) (x y : A) (vec : list A) :
  x ∈ vec -> y ∈ vec -> sz x <> sz y -> stride_from 0 0 (sz <$> vec) = 0.
Proof.
  intros Hx Hy Hxy. destruct vec as [|el vec]; [inversion Hx|].
  cbn [fmap list_fmap stride_from Z.eqb].
  apply stride_from_differ; [lia|].
  apply Exists_fmap, Exists_exists.
  apply elem_of_cons in Hx, Hy.
  destruct (decide (sz x = sz el)) as [Hxe|Hxe].
  - exists y. destruct Hy as [->|Hy]; [congruence|].
    split; [exact Hy | cbn; congruence].
  - exists x. destruct Hx as [->|Hx]; [congruence|].
    split; [exact Hx | exact Hxe].
Qed.


Lemma appends_ReadWrite_string (s : list byte) :
  appends (ReadWrite_string s) (Z.of_nat (length (take (find_nul s) s ++ [x00]))).
Proof.
  intros d stack. exists s, (take (find_nul s) s ++ [x00]).
  split; [|reflexivity].
  unfold ReadWrite_string, WriteString, bind, GetMode, WriteBuffer, ret, at_end.
  cbn [cs_mode cs_buffer cs_arrayStack].
  rewrite MemoryStream_Write_Write, MemoryStream_Write_at_end. reflexivity.
Qed.

Lemma appends_counted_true {A} (m : M A) (k : Z) :
  appends m k -> appends_counted (el <- m ;; ret (true, el)) k.
Proof.
  intros Hm d stack. destruct (Hm d stack) as (a & bs & Hrun & Hlen).
  exists a, bs. split; [|exact Hlen].
  rewrite (bind_Ok _ _ _ _ _ Hrun). reflexivity.
Qed.

(** Three writers for which every run of the element codec advances the
    cursor by the same number of bytes, and yet the stored [ElementSize] is
    not that number or is zero: an array whose codec answers false for its
    first element, a vector without elements, and a vector whose elements
    take no bytes. *)
Lemma C2_counterexample :
  let f := fun el : Z => v <- ReadWrite 2 el ;; ret (negb (v =? 0), v) in
  let sparse := [x01; x00; x00; x00; x04; x00; x00; x00; x00; x00; x05; x00] in
  let empty := [x00; x00; x00; x00; x00; x00; x00; x00] in
  let units := [x02; x00; x00; x00; x00; x00; x00; x00] in
  (forall el d stack,
     exists r, f el (at_end d stack) = Ok (r, at_end (d ++ le_bytes 2 el) stack))
  /\ ReadWriteArray 0 f [0; 5] (at_end [] []) = Ok ([0; 5], at_end sparse [])
  /\ frame_ElementSize 0 sparse = 4
  /\ ReadWriteVector 0 (ReadWrite 2) [] (at_end [] []) = Ok ([], at_end empty [])
  /\ frame_ElementSize 0 empty = 0
  /\ ReadWriteVector tt ret [tt; tt] (at_end [] []) = Ok ([tt; tt], at_end units [])
  /\ frame_Count 0 units = 2
  /\ frame_ElementSize 0 units = 0.
Proof.
  intros f sparse empty units. split.
  - intros el d stack. eexists.
    unfold f, ReadWrite, ReadWrite_raw, bind, GetMode, WriteBuffer, ret, at_end.
    cbn [cs_mode cs_buffer cs_arrayStack].
    rewrite MemoryStream_Write_at_end. reflexivity.
  - repeat split; vm_compute; reflexivity.
Qed.

(** ** Reading a fixed-size array from a longer frame *)

Lemma ReadWriteArray_read_unfold {A} (f : A -> M (bool * A)) (n i : nat) (arr : list A) :
  ReadWriteArray_read f (S n) i arr
  = (arr' <-
       match arr !! i with
       | Some el => r <- f el ;; ret (<[i := r.2]> arr)
       | None => ret arr
       end ;;
     NextArrayElement ;;;
     ReadWriteArray_read f n (S i) arr').
Proof. reflexivity. Qed.

(** Past the capacity of the array, in a frame of variable stride: the
    rounds left only count down.  The element codec is not run, the array
    and the buffer with its cursor stay as they are. *)
Lemma ReadWriteArray_read_excess_variable {A} (f : A -> M (bool * A)) (n : nat) :
  forall (i : nat) (arr : list A) (buf : MemoryStream.t) (start last count : Z)
         (stack : list ArrayState),
    (length arr <= i)%nat ->
    Z.of_nat n <= count ->
    ReadWriteArray_read f n i arr
      (mkChunkStream buf READING (mkArrayState start last count 0 :: stack))
    = Ok (arr,
          mkChunkStream buf READING
            (mkArrayState start last (count - Z.of_nat n) 0 :: stack)).
Proof.
  induction n as [|n IH]; intros i arr buf start last count stack Hi Hcount.
  - cbn [ReadWriteArray_read]. unfold ret. rewrite Z.sub_0_r. reflexivity.
  - rewrite ReadWriteArray_read_unfold.
    rewrite (lookup_ge_None_2 arr i Hi).
    unfold bind at 1. unfold ret at 1.
    unfold bind at 1, NextArrayElement, top. unfold bind at 1.
    cbn [cs_arrayStack]. unfold bind at 1, GetMode. cbn [cs_mode Count ElementSize].
    rewrite (proj2 (Z.eqb_neq count 0)) by lia.
    cbn [Z.eqb negb]. unfold bind at 1. unfold ret at 1.
    unfold bind at 1, set_top. cbn [cs_arrayStack cs_buffer cs_mode StartPos LastPos].
    unfold ret at 1.
    rewrite IH by lia. do 5 f_equal. lia.
Qed.

(** Past the capacity of the array, in a frame of fixed stride: every round
    left moves the cursor on by the element size. *)
Lemma ReadWriteArray_read_excess_fixed {A} (f : A -> M (bool * A)) (n : nat) :
  forall (i : nat) (arr : list A) (d : list byte) (p : nat)
         (start last count elementSize : Z) (stack : list ArrayState),
    (length arr <= i)%nat ->
    Z.of_nat n <= count ->
    0 < elementSize ->
    Z.of_nat p = last ->
    last + Z.of_nat n * elementSize <= Z.of_nat (length d) ->
    ReadWriteArray_read f n i arr
      (mkChunkStream (MemoryStream.Build d p) READING
         (mkArrayState start last count elementSize :: stack))
    = Ok (arr,
          mkChunkStream
            (MemoryStream.Build d (Z.to_nat (last + Z.of_nat n * elementSize)))
            READING
            (mkArrayState start (last + Z.of_nat n * elementSize)
               (count - Z.of_nat n) elementSize :: stack)).
Proof.
  induction n as [|n IH];
    intros i arr d p start last count elementSize stack Hi Hcount Hsize Hp Hfit.
  - cbn [ReadWriteArray_read]. unfold ret.
    rewrite Z.mul_0_l, Z.add_0_r, Z.sub_0_r, <- Hp, Nat2Z.id. reflexivity.
  - rewrite ReadWriteArray_read_unfold.
    rewrite (lookup_ge_None_2 arr i Hi).
    unfold bind at 1. unfold ret at 1.
    unfold bind at 1, NextArrayElement, top. unfold bind at 1.
    cbn [cs_arrayStack]. unfold bind at 1, GetMode. cbn [cs_mode Count ElementSize].
    rewrite (proj2 (Z.eqb_neq count 0)) by lia.
    rewrite (proj2 (Z.eqb_neq elementSize 0)) by lia.
    cbn [negb LastPos StartPos]. unfold bind at 1. unfold bind at 1.
    rewrite SetPosition_in_range by nia.
    unfold ret at 1. unfold bind at 1, set_top.
    cbn [cs_arrayStack cs_buffer cs_mode]. unfold ret at 1.
    rewrite (IH (S i) arr d (Z.to_nat (last + elementSize)) start (last + elementSize)
               (count - 1) elementSize stack) by nia.
    replace (last + elementSize + Z.of_nat n * elementSize)
      with (last + Z.of_nat (S n) * elementSize) by nia.
    do 5 f_equal. lia.
Qed.

(** C3: past the capacity of the array the reading loop of [ReadWriteArray]
    does not run the element codec.  In a frame of variable stride the
    excess elements are therefore left in the stream: a frame of two
    strings (count 2, element size 0) followed by the byte 0x63 is read into
    an array of one string and a one-byte scalar; the array takes the first
    string, the cursor stays on the second one, and the scalar is read from
    its first byte (0x62).  A frame of three 2-byte elements read into an
    array of two is left behind in full: its third element is skipped by its
    size. *)
Theorem C3_excess_elements_variable_stride :
  let variable :=
    [x02; x00; x00; x00; x00; x00; x00; x00; x61; x00; x62; x00; x63] in
  let fixed :=
    [x03; x00; x00; x00; x02; x00; x00; x00; x01; x00; x02; x00; x03; x00; x63] in
  (forall (A : Type) (f : A -> M (bool * A)) (n i : nat) (arr : list A)
          (buf : MemoryStream.t) (start last : Z) (stack : list ArrayState),
     (length arr <= i)%nat ->
     ReadWriteArray_read f n i arr
       (mkChunkStream buf READING (mkArrayState start last (Z.of_nat n) 0 :: stack))
     = Ok (arr, mkChunkStream buf READING (mkArrayState start last 0 0 :: stack)))
  /\ rw (TPair (TArray 1 TString) (TScalar 1)) ([[]], 0)
       (mkChunkStream (MemoryStream.Build variable 0) READING [])
     = Ok (([[x61]], 98), mkChunkStream (MemoryStream.Build variable 11) READING [])
  /\ rw (TPair (TArray 2 (TScalar 2)) (TScalar 1)) ([0; 0], 0)
       (mkChunkStream (MemoryStream.Build fixed 0) READING [])
     = Ok (([1; 2], 99), mkChunkStream (MemoryStream.Build fixed 15) READING []).
Proof.
  intros variable fixed. split; [|split; vm_compute; reflexivity].
  intros A f n i arr buf start last stack Hi.
  rewrite (ReadWriteArray_read_excess_variable f n i arr buf start last (Z.of_nat n) stack)
    by lia.
  rewrite Z.sub_diag. reflexivity.
Qed.

Lemma C3_excess_elements_variable_stride_witness :
  ReadWriteArray_read
    (fun el => el' <- ReadWrite_string el ;; ret (true, el')) 1%nat 1%nat [[x61]]
    (mkChunkStream
       (MemoryStream.Build
          [x02; x00; x00; x00; x00; x00; x00; x00; x61; x00; x62; x00; x63] 10)
       READING [mkArrayState 0 8 1 0])
  = Ok ([[x61]],
        mkChunkStream
          (MemoryStream.Build
             [x02; x00; x00; x00; x00; x00; x00; x00; x61; x00; x62; x00; x63] 10)
          READING [mkArrayState 0 8 0 0]).
Proof.
  apply (proj1 C3_excess_elements_variable_stride (list byte)
           (fun el => el' <- ReadWrite_string el ;; ret (true, el')) 1%nat 1%nat [[x61]]).
  simpl. lia.
Defined.

(** ** Finalization *)

Lemma IStream_put_put (bs1 bs2 : list byte) (s : IStream.t) :
  IStream.put bs2 (IStream.put bs1 s) = IStream.put (bs1 ++ bs2) s.
Proof.
  destruct s as [d p].
  pose proof (MemoryStream_Write_Write bs1 bs2 (MemoryStream.Build d p)) as H.
  unfold MemoryStream.Write in H. cbn [MemoryStream.data MemoryStream.position] in H.
  unfold IStream.put. cbn [IStream.data IStream.position].
  inversion H as [[Hd Hp]]. rewrite Hd, Hp. reflexivity.
Qed.

Lemma write_chunk_table_spec (chunks : list ChunkEntry) (bs : list byte) (s : IStream.t) :
  write_chunk_table chunks (IStream.put bs s)
  = Ok (tt, IStream.put (bs ++ chunk_table_bytes chunks) s).
Proof.
  revert bs. induction chunks as [|chunk chunks IH]; intros bs;
    cbn [write_chunk_table].
  - unfold ret, chunk_table_bytes. cbn. rewrite app_nil_r. reflexivity.
  - unfold bind, WriteValue_ChunkEntry, IStream.Write.
    rewrite IStream_put_put, IH. unfold chunk_table_bytes. cbn [fmap list_fmap concat].
    rewrite <- app_assoc. reflexivity.
Qed.

(** What the destructor of a writer does, given what [finalize_header]
    settles. *)
Lemma OrcaStream_delete_writing
    (util_zlib_deflate : list byte -> option (list byte)) (SHA1 : list byte -> Z)
    (s : OrcaStream) :
  _mode s = WRITING ->
  OrcaStream_delete util_zlib_deflate SHA1 s
  = let '(header, compressedBytes) := finalize_header util_zlib_deflate SHA1 s in
    Ok (mkOrcaStream
          (IStream.put
             (Header_bytes header ++ chunk_table_bytes (_chunks s)
              ++ match compressedBytes with
                 | Some bytes => bytes
                 | None => MemoryStream.GetData (_buffer s)
                 end)
             (_stream s))
          WRITING header (_chunks s) (_buffer s) (_currentChunk s)).
Proof.
  intros Hmode. unfold OrcaStream_delete. rewrite Hmode.
  destruct (finalize_header util_zlib_deflate SHA1 s) as [header compressedBytes].
  unfold bind at 1. unfold WriteValue_Header, IStream.Write at 1.
  unfold bind at 1. rewrite write_chunk_table_spec.
  destruct compressedBytes as [bytes|]; unfold IStream.Write;
    rewrite IStream_put_put, <- app_assoc; reflexivity.
Qed.

(** C8: a writer whose header asks for gzip is finalized.  When deflate
    fails, the destructor still returns: the header it writes has
    [Compression] 0 and [CompressedSize] equal to the length of the buffer,
    and the payload written after the chunk table is the buffer itself.
    When deflate succeeds, [Compression] stays 1, [CompressedSize] is the
    length of the deflated bytes, and these are the payload. *)
Theorem C8_deflate_failure_falls_back
    (util_zlib_deflate : list byte -> option (list byte)) (SHA1 : list byte -> Z)
    (s : OrcaStream) :
  _mode s = WRITING ->
  Compression (_header s) = COMPRESSION_GZIP ->
  exists s',
    OrcaStream_delete util_zlib_deflate SHA1 s = Ok s'
    /\ match util_zlib_deflate (MemoryStream.GetData (_buffer s)) with
       | None =>
           Compression (_header s') = COMPRESSION_NONE
           /\ CompressedSize (_header s') = MemoryStream.GetLength (_buffer s)
           /\ UncompressedSize (_header s') = MemoryStream.GetLength (_buffer s)
           /\ _stream s'
              = IStream.put
                  (Header_bytes (_header s') ++ chunk_table_bytes (_chunks s)
                   ++ MemoryStream.GetData (_buffer s))
                  (_stream s)
       | Some compressedBytes =>
           Compression (_header s') = COMPRESSION_GZIP
           /\ CompressedSize (_header s') = Z.of_nat (length compressedBytes)
           /\ UncompressedSize (_header s') = MemoryStream.GetLength (_buffer s)
           /\ _stream s'
              = IStream.put
                  (Header_bytes (_header s') ++ chunk_table_bytes (_chunks s)
                   ++ compressedBytes)
                  (_stream s)
       end.
Proof.
  intros Hmode Hgzip.
  rewrite (OrcaStream_delete_writing _ _ _ Hmode).
  unfold finalize_header. cbn [Compression]. rewrite Hgzip. cbn [Z.eqb Pos.eqb].
  change (COMPRESSION_GZIP =? COMPRESSION_GZIP) with true. cbv iota.
  destruct (util_zlib_deflate (MemoryStream.GetData (_buffer s))) as [bytes|];
    eexists; (split; [reflexivity|]); cbn; repeat split; reflexivity.
Qed.

Lemma C8_deflate_failure_falls_back_witness :
  let s := mkOrcaStream (IStream.Build [] 0) WRITING
             (mkHeader 1 2 2 0 0 COMPRESSION_GZIP 0 0 0)
             [mkChunkEntry 4096 0 2] (MemoryStream.Build [x2a; x00] 2)
             (mkChunkEntry 4096 0 2) in
  (exists s',
     OrcaStream_delete (fun _ => None) (fun _ => 7) s = Ok s'
     /\ Compression (_header s') = COMPRESSION_NONE
     /\ CompressedSize (_header s') = 2
     /\ drop 84 (IStream.data (_stream s')) = [x2a; x00])
  /\ (exists s',
        OrcaStream_delete (fun d => Some (x78 :: d)) (fun _ => 7) s = Ok s'
        /\ Compression (_header s') = COMPRESSION_GZIP
        /\ CompressedSize (_header s') = 3
        /\ drop 84 (IStream.data (_stream s')) = [x78; x2a; x00]).
Proof.
  intros s. split.
  - destruct (C8_deflate_failure_falls_back (fun _ => None) (fun _ => 7) s
                eq_refl eq_refl)
      as (s' & Hrun & Hcompression & Hsize & _ & Hstream).
    exists s'. split; [exact Hrun|]. split; [exact Hcompression|].
    split; [exact Hsize|]. rewrite Hstream.
    apply Ok_inj in Hrun. rewrite <- Hrun. vm_compute. reflexivity.
  - destruct (C8_deflate_failure_falls_back (fun d => Some (x78 :: d)) (fun _ => 7) s
                eq_refl eq_refl)
      as (s' & Hrun & Hcompression & Hsize & _ & Hstream).
    exists s'. split; [exact Hrun|]. split; [exact Hcompression|].
    split; [exact Hsize|]. rewrite Hstream.
    apply Ok_inj in Hrun. rewrite <- Hrun. vm_compute. reflexivity.
Defined.

(** ** Construction of a reader *)

Lemma throws_only_ret {S A} (P : error -> Prop) (a : A) : throws_only P (@ret S A a).
Proof. intros s e H. discriminate. Qed.

Lemma throws_only_bind {S A B} (P : error -> Prop) (m : St S A) (k : A -> St S B) :
  throws_only P m -> (forall a, throws_only P (k a)) -> throws_only P (bind m k).
Proof.
  intros Hm Hk s e. unfold bind. destruct (m s) as [[a s']|e'] eqn:E.
  - apply Hk.
  - intros H. inversion H. subst. exact (Hm _ _ E).
Qed.

Lemma throws_only_IStream_Read (n : nat) :
  throws_only (fun e => e = Truncated) (IStream.Read n).
Proof.
  intros s e. unfold IStream.Read. case_bool_decide; intros Hread; inversion Hread.
  reflexivity.
Qed.

Lemma throws_only_read_chunk_table (n : nat) :
  forall chunks, throws_only (fun e => e = Truncated) (read_chunk_table n chunks).
Proof.
  induction n as [|n IH]; intros chunks; cbn [read_chunk_table].
  - apply throws_only_ret.
  - apply throws_only_bind; [|intros entry; apply IH].
    apply throws_only_bind; [apply throws_only_IStream_Read | intros bs].
    apply throws_only_ret.
Qed.

Lemma read_blocks_unfold (fuel : nat) (bytesLeft : Z) (buffer : MemoryStream.t) :
  read_blocks fuel bytesLeft buffer
  = (let readLen := Z.min bytesLeft 2048 in
     temp <- IStream.Read (Z.to_nat readLen) ;;
     let buffer' := MemoryStream.Write temp buffer in
     let bytesLeft' := bytesLeft - readLen in
     if bytesLeft' >? 0 then
       match fuel with
       | O => throw OutOfFuel
       | S fuel' => read_blocks fuel' bytesLeft' buffer'
       end
     else ret buffer').
Proof. destruct fuel; reflexivity. Qed.

(** The block loop is given rounds enough: it ends, and only a short read
    makes it throw. *)
Lemma throws_only_read_blocks (fuel : nat) :
  forall bytesLeft buffer,
    bytesLeft <= 2048 * (Z.of_nat fuel + 1) ->
    throws_only (fun e => e = Truncated) (read_blocks fuel bytesLeft buffer).
Proof.
  induction fuel as [|fuel IH]; intros bytesLeft buffer Hfuel;
    rewrite read_blocks_unfold; cbv zeta;
    (apply throws_only_bind; [apply throws_only_IStream_Read | intros temp]).
  - destruct (Z.gtb_spec (bytesLeft - Z.min bytesLeft 2048) 0); [lia|].
    apply throws_only_ret.
  - destruct (Z.gtb_spec (bytesLeft - Z.min bytesLeft 2048) 0);
      [|apply throws_only_ret].
    apply IH. lia.
Qed.

Lemma throws_only_read_payload
    (util_zlib_inflate : list byte -> option (list byte)) (header : Header) :
  throws_only (fun e => e = Truncated \/ e = InflateError)
    (read_payload util_zlib_inflate header).
Proof.
  unfold read_payload. apply throws_only_bind.
  - intros s e H. left. exact (throws_only_read_chunk_table _ _ _ _ H).
  - intros chunks. apply throws_only_bind.
    + intros s e H. left. revert H. apply throws_only_read_blocks.
      pose proof (Z.div_mod (CompressedSize header) 2048 ltac:(lia)) as Hdiv.
      pose proof (Z.mod_pos_bound (CompressedSize header) 2048 ltac:(lia)) as Hmod.
      lia.
    + intros buffer. destruct (Compression header =? COMPRESSION_GZIP);
        apply throws_only_ret.
Qed.

Lemma field_skip (n : nat) (v : Z) (off len : nat) (rest : list byte) :
  field (n + off) len (le_bytes n v ++ rest) = field off len rest.
Proof.
  unfold field. rewrite <- (length_le_bytes n v) at 1.
  rewrite drop_app_add. reflexivity.
Qed.

Lemma field_here (n : nat) (v : Z) (rest : list byte) :
  field 0 n (le_bytes n v ++ rest) = wrap n v.
Proof.
  unfold field, wrap. rewrite drop_0.
  rewrite take_app_length' by (rewrite length_le_bytes; reflexivity).
  apply le_value_le_bytes.
Qed.

Lemma length_Header_bytes (h : Header) : length (Header_bytes h) = 64%nat.
Proof. unfold Header_bytes. rewrite !length_app, !length_le_bytes. reflexivity. Qed.

Lemma Header_of_bytes_bytes (h : Header) :
  Header_of_bytes (Header_bytes h)
  = mkHeader (wrap 4 (Magic h)) (wrap 4 (TargetVersion h)) (wrap 4 (MinVersion h))
      (wrap 4 (NumChunks h)) (wrap 8 (UncompressedSize h)) (wrap 4 (Compression h))
      (wrap 8 (CompressedSize h)) (wrap 20 (Sha1 h)) (wrap 8 (padding h)).
Proof.
  unfold Header_of_bytes, Header_bytes.
  rewrite <- (app_nil_r (le_bytes 8 (padding h))).
  f_equal.
  - apply field_here.
  - rewrite (field_skip 4 _ 0). apply field_here.
  - rewrite (field_skip 4 _ 4), (field_skip 4 _ 0). apply field_here.
  - rewrite (field_skip 4 _ 8), (field_skip 4 _ 4), (field_skip 4 _ 0).
    apply field_here.
  - rewrite (field_skip 4 _ 12), (field_skip 4 _ 8), (field_skip 4 _ 4),
      (field_skip 4 _ 0).
    apply field_here.
  - rewrite (field_skip 4 _ 20), (field_skip 4 _ 16), (field_skip 4 _ 12),
      (field_skip 4 _ 8), (field_skip 8 _ 0).
    apply field_here.
  - rewrite (field_skip 4 _ 24), (field_skip 4 _ 20), (field_skip 4 _ 16),
      (field_skip 4 _ 12), (field_skip 8 _ 4), (field_skip 4 _ 0).
    apply field_here.
  - rewrite (field_skip 4 _ 32), (field_skip 4 _ 28), (field_skip 4 _ 24),
      (field_skip 4 _ 20), (field_skip 8 _ 12), (field_skip 4 _ 8),
      (field_skip 8 _ 0).
    apply field_here.
  - rewrite (field_skip 4 _ 52), (field_skip 4 _ 48), (field_skip 4 _ 44),
      (field_skip 4 _ 40), (field_skip 8 _ 32), (field_skip 4 _ 28),
      (field_skip 8 _ 20), (field_skip 20 _ 0).
    apply field_here.
Qed.

Lemma IStream_Read_at (pre bs post : list byte) :
  IStream.Read (length bs) (IStream.Build (pre ++ bs ++ post) (length pre))
  = Ok (bs, IStream.Build (pre ++ bs ++ post) (length pre + length bs)).
Proof.
  unfold IStream.Read. cbn [IStream.position IStream.data].
  rewrite bool_decide_true by (rewrite !length_app; lia).
  rewrite drop_app_length, take_app_length. reflexivity.
Qed.

Lemma ReadValue_Header_at (pre rest : list byte) (h : Header) :
  ReadValue_Header (IStream.Build (pre ++ Header_bytes h ++ rest) (length pre))
  = Ok (Header_of_bytes (Header_bytes h),
        IStream.Build (pre ++ Header_bytes h ++ rest) (length pre + 64)).
Proof.
  unfold ReadValue_Header, bind.
  rewrite <- (length_Header_bytes h) at 1. rewrite IStream_Read_at.
  rewrite length_Header_bytes. reflexivity.
Qed.

Lemma OrcaStream_new_reading_throws
    (util_zlib_inflate : list byte -> option (list byte)) (stream : IStream.t)
    (e : error) :
  OrcaStream_new util_zlib_inflate stream READING = Err e ->
  e = Truncated \/ e = InflateError.
Proof.
  unfold OrcaStream_new.
  destruct ((header <- ReadValue_Header ;;
             payload <- read_payload util_zlib_inflate header ;;
             ret (header, payload)) stream)
    as [[[header [chunks buffer]] stream']|e'] eqn:E; [discriminate|].
  intros H. inversion H. subst e'. revert E. generalize stream e.
  change (throws_only (fun e => e = Truncated \/ e = InflateError)
            (header <- ReadValue_Header ;;
             payload <- read_payload util_zlib_inflate header ;;
             ret (header, payload))).
  apply throws_only_bind.
  - intros s e0 H0. left. revert H0. unfold ReadValue_Header.
    generalize s e0.
    change (throws_only (fun e => e = Truncated)
              (bs <- IStream.Read 64 ;; ret (Header_of_bytes bs))).
    apply throws_only_bind; [apply throws_only_IStream_Read | intros bs].
    apply throws_only_ret.
  - intros header. apply throws_only_bind; [apply throws_only_read_payload|].
    intros payload. apply throws_only_ret.
Qed.

Lemma OrcaStream_new_reading_at
    (util_zlib_inflate : list byte -> option (list byte)) (pre rest : list byte)
    (h : Header) :
  OrcaStream_new util_zlib_inflate
    (IStream.Build (pre ++ Header_bytes h ++ rest) (length pre)) READING
  = match read_payload util_zlib_inflate (Header_of_bytes (Header_bytes h))
            (IStream.Build (pre ++ Header_bytes h ++ rest) (length pre + 64)) with
    | Ok ((chunks, buffer), stream') =>
        Ok (mkOrcaStream stream' READING (Header_of_bytes (Header_bytes h))
              chunks buffer ChunkEntry_init)
    | Err e => Err e
    end.
Proof.
  unfold OrcaStream_new. unfold bind at 1. rewrite ReadValue_Header_at.
  unfold bind, ret.
  destruct (read_payload _ _ _) as [[[chunks buffer] stream']|e]; reflexivity.
Qed.

(** What follows the header in the constructor looks at three of its
    fields only. *)
Lemma read_payload_fields
    (util_zlib_inflate : list byte -> option (list byte)) (h h' : Header) :
  NumChunks h' = NumChunks h ->
  CompressedSize h' = CompressedSize h ->
  Compression h' = Compression h ->
  read_payload util_zlib_inflate h' = read_payload util_zlib_inflate h.
Proof. unfold read_payload. intros -> -> ->. reflexivity. Qed.

Lemma reads_ahead_ret {A} (a : A) : reads_ahead (ret a).
Proof. intros s1 s2 H. split; [reflexivity | exact H]. Qed.

Lemma reads_ahead_throw {A} (e : error) : reads_ahead (@throw IStream.t A e).
Proof. intros s1 s2 H. reflexivity. Qed.

Lemma reads_ahead_bind {A B} (m : St IStream.t A) (k : A -> St IStream.t B) :
  reads_ahead m -> (forall a, reads_ahead (k a)) -> reads_ahead (bind m k).
Proof.
  intros Hm Hk s1 s2 H. specialize (Hm s1 s2 H). unfold bind, ends_alike in *.
  destruct (m s1) as [[a1 s1']|e1], (m s2) as [[a2 s2']|e2]; try contradiction.
  - destruct Hm as [-> Hs]. exact (Hk a2 s1' s2' Hs).
  - exact Hm.
Qed.

Lemma reads_ahead_IStream_Read (n : nat) : reads_ahead (IStream.Read n).
Proof.
  intros [d1 p1] [d2 p2] (Hp & Hlen & Hdrop). unfold IStream.Read, ends_alike.
  cbn [IStream.position IStream.data] in *. subst p2. rewrite Hlen.
  case_bool_decide; [|reflexivity].
  split; [rewrite Hdrop; reflexivity|].
  split; [reflexivity|]. split; [exact Hlen|].
  cbn [IStream.position IStream.data].
  rewrite <- !drop_drop, Hdrop. reflexivity.
Qed.

Lemma reads_ahead_read_chunk_table (n : nat) :
  forall chunks, reads_ahead (read_chunk_table n chunks).
Proof.
  induction n as [|n IH]; intros chunks; cbn [read_chunk_table].
  - apply reads_ahead_ret.
  - apply reads_ahead_bind; [|intros entry; apply IH].
    apply reads_ahead_bind; [apply reads_ahead_IStream_Read | intros bs].
    apply reads_ahead_ret.
Qed.

Lemma reads_ahead_read_blocks (fuel : nat) :
  forall bytesLeft buffer, reads_ahead (read_blocks fuel bytesLeft buffer).
Proof.
  induction fuel as [|fuel IH]; intros bytesLeft buffer;
    rewrite read_blocks_unfold; cbv zeta;
    (apply reads_ahead_bind; [apply reads_ahead_IStream_Read | intros temp]);
    destruct (bytesLeft - Z.min bytesLeft 2048 >? 0);
    first [apply reads_ahead_ret | apply reads_ahead_throw | apply IH].
Qed.

Lemma reads_ahead_read_payload
    (util_zlib_inflate : list byte -> option (list byte)) (header : Header) :
  reads_ahead (read_payload util_zlib_inflate header).
Proof.
  unfold read_payload.
  apply reads_ahead_bind; [apply reads_ahead_read_chunk_table | intros chunks].
  apply reads_ahead_bind; [apply reads_ahead_read_blocks | intros buffer].
  destruct (Compression header =? COMPRESSION_GZIP); apply reads_ahead_ret.
Qed.

Lemma same_ahead_after_header (pre rest : list byte) (h h' : Header) :
  same_ahead
    (IStream.Build (pre ++ Header_bytes h ++ rest) (length pre + 64))
    (IStream.Build (pre ++ Header_bytes h' ++ rest) (length pre + 64)).
Proof.
  unfold same_ahead. cbn [IStream.position IStream.data].
  split; [reflexivity|]. split.
  - rewrite !length_app, !length_Header_bytes. reflexivity.
  - rewrite !(app_assoc pre).
    rewrite !drop_app_length'
      by (rewrite length_app, length_Header_bytes; reflexivity).
    reflexivity.
Qed.

(** C10: the reading constructor throws nothing but Truncated and
    InflateError, so never BadMagic, VersionTooNew or IntegrityError.  With
    any other values in [Magic], [MinVersion] and [Sha1] of the header it
    reads, it ends the same way: with the same exception, or with the same
    chunk table and buffer and the three values stored in its header as
    read. *)
Theorem C10_constructor_validates_nothing
    (util_zlib_inflate : list byte -> option (list byte)) :
  (forall stream e,
     OrcaStream_new util_zlib_inflate stream READING = Err e ->
     e = Truncated \/ e = InflateError)
  /\ (forall (h : Header) (magic minVersion sha1 : Z) (pre rest : list byte),
        let stream := fun header =>
          IStream.Build (pre ++ Header_bytes header ++ rest) (length pre) in
        match OrcaStream_new util_zlib_inflate (stream h) READING with
        | Ok s =>
            exists s',
              OrcaStream_new util_zlib_inflate
                (stream (with_identity h magic minVersion sha1)) READING = Ok s'
              /\ _chunks s' = _chunks s
              /\ _buffer s' = _buffer s
              /\ Magic (_header s') = wrap 4 magic
              /\ MinVersion (_header s') = wrap 4 minVersion
              /\ Sha1 (_header s') = wrap 20 sha1
        | Err e =>
            OrcaStream_new util_zlib_inflate
              (stream (with_identity h magic minVersion sha1)) READING = Err e
        end).
Proof.
  split; [exact (OrcaStream_new_reading_throws util_zlib_inflate)|].
  intros h magic minVersion sha1 pre rest stream. unfold stream.
  rewrite !OrcaStream_new_reading_at, !Header_of_bytes_bytes.
  cbn [with_identity Magic TargetVersion MinVersion NumChunks UncompressedSize
         Compression CompressedSize Sha1 padding].
  rewrite (read_payload_fields util_zlib_inflate
             (mkHeader (wrap 4 (Magic h)) (wrap 4 (TargetVersion h))
                (wrap 4 (MinVersion h)) (wrap 4 (NumChunks h))
                (wrap 8 (UncompressedSize h)) (wrap 4 (Compression h))
                (wrap 8 (CompressedSize h)) (wrap 20 (Sha1 h)) (wrap 8 (padding h)))
             (mkHeader (wrap 4 magic) (wrap 4 (TargetVersion h))
                (wrap 4 minVersion) (wrap 4 (NumChunks h))
                (wrap 8 (UncompressedSize h)) (wrap 4 (Compression h))
                (wrap 8 (CompressedSize h)) (wrap 20 sha1) (wrap 8 (padding h)))
             eq_refl eq_refl eq_refl).
  pose proof (reads_ahead_read_payload util_zlib_inflate
                (mkHeader (wrap 4 (Magic h)) (wrap 4 (TargetVersion h))
                   (wrap 4 (MinVersion h)) (wrap 4 (NumChunks h))
                   (wrap 8 (UncompressedSize h)) (wrap 4 (Compression h))
                   (wrap 8 (CompressedSize h)) (wrap 20 (Sha1 h)) (wrap 8 (padding h)))
                _ _
                (same_ahead_after_header pre rest h
                   (with_identity h magic minVersion sha1))) as Halike.
  unfold ends_alike, with_identity in Halike.
  destruct (read_payload _ _ (IStream.Build (pre ++ Header_bytes h ++ rest) _))
    as [[[chunks buffer] s1]|e1];
    destruct (read_payload _ _ (IStream.Build (pre ++ Header_bytes _ ++ rest) _))
    as [[[chunks' buffer'] s2]|e2]; try contradiction.
  - destruct Halike as [Heq _]. inversion Heq. subst.
    eexists. split; [reflexivity|]. cbn. repeat split; reflexivity.
  - subst e2. reflexivity.
Qed.

Lemma C10_constructor_validates_nothing_witness :
  (Truncated = Truncated \/ Truncated = InflateError)
  /\ (exists s',
        OrcaStream_new (fun d => Some d)
          (IStream.Build ([] ++ Header_bytes (with_identity Header_init 1 2 3) ++ [x2a]) 0)
          READING
        = Ok s'
        /\ _chunks s' = []
        /\ Magic (_header s') = 1
        /\ MinVersion (_header s') = 2
        /\ Sha1 (_header s') = 3).
Proof.
  split.
  - apply (proj1 (C10_constructor_validates_nothing (fun d => Some d))
             (IStream.Build [] 0) Truncated).
    reflexivity.
  - pose proof (proj2 (C10_constructor_validates_nothing (fun d => Some d))
                  Header_init 1 2 3 [] [x2a]) as H.
    cbv zeta in H.
    destruct (OrcaStream_new (fun d => Some d)
                (IStream.Build ([] ++ Header_bytes Header_init ++ [x2a]) 0) READING)
      as [s|e] eqn:E; [|vm_compute in E; discriminate].
    destruct H as (s' & Hrun & Hchunks & _ & Hmagic & Hmin & Hsha).
    exists s'. split; [exact Hrun|].
    split; [rewrite Hchunks; vm_compute in E; apply Ok_inj in E; subst s; reflexivity|].
    split; [rewrite Hmagic; reflexivity|].
    split; [rewrite Hmin; reflexivity | rewrite Hsha; reflexivity].
Defined.

Lemma C9_array_stack_balanced_witness :
  (exists st,
     cs_arrayStack
       (mkChunkStream (MemoryStream.Build (le_bytes 4 0 ++ le_bytes 4 0) 8) WRITING
          [mkArrayState 0 8 0 0])
     = st :: cs_arrayStack (at_end [] []))
  /\ (exists vec' cs',
        ReadWriteVector 0 (ReadWrite 2) [1; 2; 3] (at_end [] []) = Ok (vec', cs')
        /\ cs_arrayStack cs' = [])
  /\ (exists arr' cs',
        ReadWriteArray 0 (fun el => el' <- ReadWrite 2 el ;; ret (true, el')) [1; 2]
          (at_end [] [])
        = Ok (arr', cs')
        /\ cs_arrayStack cs' = [])
  /\ (exists v' cs',
        rw (TVector (TVector (TScalar 2))) [[1; 2]; [3]] (at_end [] []) = Ok (v', cs')
        /\ cs_arrayStack cs' = [])
  /\ (exists v' cs',
        rw (TVector (TArray 2 TString)) []
          (mkChunkStream
             (MemoryStream.Build
                [x01; x00; x00; x00; x00; x00; x00; x00;
                 x02; x00; x00; x00; x00; x00; x00; x00; x61; x00; x62; x63; x00]
                0)
             READING [])
        = Ok (v', cs')
        /\ cs_arrayStack cs' = [])
  /\ (exists vec' cs',
        ReadWriteVector 0 (ReadWrite 2) [1; 2; 3] (at_end [] [mkArrayState 0 0 7 0])
        = Ok (vec', cs')
        /\ framed_run (ReadWriteVector_loop 0 (ReadWrite 2) [1; 2; 3])
             (at_end [] [mkArrayState 0 0 7 0]) vec' cs')
  /\ (exists arr' cs',
        ReadWriteArray 0 (fun el => el' <- ReadWrite 2 el ;; ret (true, el')) [0; 0]
          (reader_at [] [x01; x00; x00; x00; x02; x00; x00; x00; x05; x00] [])
        = Ok (arr', cs')
        /\ framed_run
             (ReadWriteArray_loop 0 (fun el => el' <- ReadWrite 2 el ;; ret (true, el'))
                [0; 0])
             (reader_at [] [x01; x00; x00; x00; x02; x00; x00; x00; x05; x00] [])
             arr' cs')
  /\ ReadWriteVector 0 (at_depth 2 (ReadWrite 2)) [1; 2; 3]
       (at_end [] [mkArrayState 0 0 7 0])
     = ReadWriteVector 0 (ReadWrite 2) [1; 2; 3] (at_end [] [mkArrayState 0 0 7 0])
  /\ ReadWriteArray 0 (at_depth 1 (fun el => el' <- ReadWrite 2 el ;; ret (true, el')))
       [0; 0] (reader_at [] [x01; x00; x00; x00; x02; x00; x00; x00; x05; x00] [])
     = ReadWriteArray 0 (fun el => el' <- ReadWrite 2 el ;; ret (true, el')) [0; 0]
         (reader_at [] [x01; x00; x00; x00; x02; x00; x00; x00; x05; x00] []).
Proof.
  destruct C9_array_stack_balanced
    as (Hbegin & Hend & Hvector & Harray & Hrw & Hchunk
        & Hvframed & Haframed & Hvdepth & Hadepth).
  assert (Hcounted : forall el : Z,
             keeps_stack (el' <- ReadWrite 2 el ;; ret (true, el'))).
  { intros el. apply keeps_stack_bind; [exact (Hrw (TScalar 2) el) | intros el''].
    apply keeps_stack_ret. }
  split; [|split; [|split; [|split; [|split; [|split; [|split; [|split]]]]]]].
  - apply (Hbegin (at_end [] []) _ 0). reflexivity.
  - destruct (ReadWriteVector 0 (ReadWrite 2) [1; 2; 3] (at_end [] []))
      as [[vec' cs']|e] eqn:E; [|vm_compute in E; discriminate].
    exists vec', cs'. split; [reflexivity|].
    apply (Hvector Z 0 (ReadWrite 2) [1; 2; 3] (fun el => Hrw (TScalar 2) el) _ _ _ E).
  - destruct (ReadWriteArray 0 (fun el => el' <- ReadWrite 2 el ;; ret (true, el'))
                [1; 2] (at_end [] []))
      as [[arr' cs']|e] eqn:E; [|vm_compute in E; discriminate].
    exists arr', cs'. split; [reflexivity|].
    exact (Harray Z 0 _ [1; 2] Hcounted _ _ _ E).
  - destruct (rw (TVector (TVector (TScalar 2))) [[1; 2]; [3]] (at_end [] []))
      as [[v' cs']|e] eqn:E; [|vm_compute in E; discriminate].
    exists v', cs'. split; [reflexivity|]. exact (Hchunk _ _ _ _ _ _ E).
  - destruct (rw (TVector (TArray 2 TString)) [] _)
      as [[v' cs']|e] eqn:E; [|vm_compute in E; discriminate].
    exists v', cs'. split; [reflexivity|]. exact (Hchunk _ _ _ _ _ _ E).
  - destruct (ReadWriteVector 0 (ReadWrite 2) [1; 2; 3]
                (at_end [] [mkArrayState 0 0 7 0]))
      as [[vec' cs']|e] eqn:E; [|vm_compute in E; discriminate].
    exists vec', cs'. split; [reflexivity|].
    exact (Hvframed Z 0 (ReadWrite 2) [1; 2; 3] (fun el => Hrw (TScalar 2) el) _ _ _ E).
  - destruct (ReadWriteArray 0 (fun el => el' <- ReadWrite 2 el ;; ret (true, el'))
                [0; 0] _)
      as [[arr' cs']|e] eqn:E; [|vm_compute in E; discriminate].
    exists arr', cs'. split; [reflexivity|].
    exact (Haframed Z 0 _ [0; 0] Hcounted _ _ _ E).
  - exact (Hvdepth Z 0 (ReadWrite 2) [1; 2; 3] (at_end [] [mkArrayState 0 0 7 0])
             (fun el => Hrw (TScalar 2) el)).
  - exact (Hadepth Z 0 _ [0; 0]
             (reader_at [] [x01; x00; x00; x00; x02; x00; x00; x00; x05; x00] [])
             Hcounted).
Defined.

(** ** Writing and reading back *)

Lemma find_nul_free (s : list byte) :
  Forall (fun b => b <> x00) s -> take (find_nul s) s = s.
Proof.
  induction 1 as [|b s Hb _ IH]; [reflexivity|].
  cbn [find_nul]. apply is_nul_false in Hb. rewrite Hb. cbn [take]. rewrite IH.
  reflexivity.
Qed.

Lemma writes_ReadWrite (n : nat) (v : Z) :
  0 <= v < 256 ^ Z.of_nat n -> writes (ReadWrite n v) v (le_bytes n v).
Proof.
  intros Hv d stack _.
  unfold ReadWrite, ReadWrite_raw, bind, GetMode, WriteBuffer, ret, at_end.
  cbn [cs_mode cs_buffer cs_arrayStack].
  rewrite MemoryStream_Write_at_end, le_value_le_bytes_small by exact Hv.
  reflexivity.
Qed.

Lemma writes_ReadWrite_string (s : list byte) :
  writes (ReadWrite_string s) s (take (find_nul s) s ++ [x00]).
Proof.
  intros d stack _.
  unfold ReadWrite_string, WriteString, bind, GetMode, WriteBuffer, ret, at_end.
  cbn [cs_mode cs_buffer cs_arrayStack].
  rewrite MemoryStream_Write_Write, MemoryStream_Write_at_end. reflexivity.
Qed.

Lemma writes_bind {A B} (m : M A) (k : A -> M B) (a : A) (b : B) (bs1 bs2 : list byte) :
  writes m a bs1 -> writes (k a) b bs2 -> writes (bind m k) b (bs1 ++ bs2).
Proof.
  intros Hm Hk d stack Hmax. rewrite !length_app in Hmax.
  rewrite (bind_Ok _ _ _ _ _ (Hm d stack ltac:(rewrite length_app; lia))).
  rewrite (Hk (d ++ bs1) stack) by (rewrite !length_app; lia).
  rewrite app_assoc. reflexivity.
Qed.

Lemma writes_ret {A} (a : A) : writes (ret a) a [].
Proof. intros d stack _. unfold ret. rewrite app_nil_r. reflexivity. Qed.

Section WriterBytes.

Context {A : Type}.
Variable enc : A -> list byte.

Lemma ReadWriteVector_write_bytes (f : A -> M A) (vec : list A) :
  Forall (fun el => writes (f el) el (enc el)) vec ->
  forall d start count elementSize stack,
    0 <= count ->
    count + Z.of_nat (length vec) < uint64_max ->
    Z.of_nat (length (d ++ concat (enc <$> vec))) < uint64_max ->
    ReadWriteVector_write f vec
      (at_end d (mkArrayState start (Z.of_nat (length d)) count elementSize :: stack))
    = Ok (vec,
          at_end (d ++ concat (enc <$> vec))
            (mkArrayState start (Z.of_nat (length (d ++ concat (enc <$> vec))))
               (count + Z.of_nat (length vec))
               (stride_from count elementSize
                  ((fun b => Z.of_nat (length b)) <$> (enc <$> vec))) :: stack)).
Proof.
  induction 1 as [|el vec Hel _ IH];
    intros d start count elementSize stack Hcount Hlen Hmax.
  - cbn [ReadWriteVector_write length fmap list_fmap stride_from concat].
    unfold ret. rewrite app_nil_r, Z.add_0_r. reflexivity.
  - cbn [length] in Hlen. cbn [fmap list_fmap concat] in Hmax.
    rewrite !length_app in Hmax. cbn [ReadWriteVector_write].
    rewrite (bind_Ok _ _ _ _ _ (Hel d _ ltac:(rewrite length_app; lia))).
    unfold bind at 1. rewrite NextArrayElement_writing.
    cbn [StartPos LastPos Count ElementSize].
    rewrite to_size_t_small by lia.
    replace (to_size_t (Z.of_nat (length (d ++ enc el)) - Z.of_nat (length d)))
      with (Z.of_nat (length (enc el)))
      by (rewrite to_size_t_small; rewrite length_app; lia).
    cbv zeta. unfold bind at 1.
    rewrite IH by (rewrite ?length_app; lia).
    unfold ret. cbn [fmap list_fmap stride_from length concat].
    rewrite <- !app_assoc. do 2 f_equal. unfold at_end. state_eq.
Qed.

Lemma ReadWriteArray_write_bytes (f : A -> M A) (arr : list A) :
  Forall (fun el => writes (f el) el (enc el)) arr ->
  forall d start count elementSize stack,
    0 <= count ->
    count + Z.of_nat (length arr) < uint64_max ->
    Z.of_nat (length (d ++ concat (enc <$> arr))) < uint64_max ->
    ReadWriteArray_write (fun el => el' <- f el ;; ret (true, el')) arr
      (at_end d (mkArrayState start (Z.of_nat (length d)) count elementSize :: stack))
    = Ok (arr,
          at_end (d ++ concat (enc <$> arr))
            (mkArrayState start (Z.of_nat (length (d ++ concat (enc <$> arr))))
               (count + Z.of_nat (length arr))
               (stride_from count elementSize
                  ((fun b => Z.of_nat (length b)) <$> (enc <$> arr))) :: stack)).
Proof.
  induction 1 as [|el arr Hel _ IH];
    intros d start count elementSize stack Hcount Hlen Hmax.
  - cbn [ReadWriteArray_write length fmap list_fmap stride_from concat].
    unfold ret. rewrite app_nil_r, Z.add_0_r. reflexivity.
  - cbn [length] in Hlen. cbn [fmap list_fmap concat] in Hmax.
    rewrite !length_app in Hmax. cbn [ReadWriteArray_write].
    unfold bind at 1. unfold bind at 1.
    rewrite (Hel d _ ltac:(rewrite length_app; lia)). unfold ret at 1. cbn [fst snd].
    unfold bind at 1. rewrite NextArrayElement_writing.
    cbn [StartPos LastPos Count ElementSize].
    rewrite to_size_t_small by lia.
    replace (to_size_t (Z.of_nat (length (d ++ enc el)) - Z.of_nat (length d)))
      with (Z.of_nat (length (enc el)))
      by (rewrite to_size_t_small; rewrite length_app; lia).
    cbv zeta. unfold bind at 1.
    rewrite IH by (rewrite ?length_app; lia).
    unfold ret. cbn [fmap list_fmap stride_from length concat].
    rewrite <- !app_assoc. do 2 f_equal. unfold at_end. state_eq.
Qed.

Variable dflt : A.

Lemma writes_ReadWriteVector (f : A -> M A) (vec : list A) :
  Forall (fun el => writes (f el) el (enc el)) vec ->
  Z.of_nat (length vec) < uint64_max ->
  writes (ReadWriteVector dflt f vec) vec (frame_bytes (enc <$> vec)).
Proof.
  intros Hf Hlen d stack Hmax. unfold frame_bytes in *.
  rewrite length_fmap in *. rewrite !length_app, !length_le_bytes in Hmax.
  unfold ReadWriteVector.
  unfold bind at 1, GetMode. cbn [cs_mode at_end].
  fold (at_end d stack). unfold bind at 1. rewrite BeginArray_writing.
  unfold bind at 1.
  rewrite (ReadWriteVector_write_bytes f vec Hf)
    by (rewrite ?length_app, ?length_le_bytes; lia).
  unfold bind at 1. rewrite <- (app_assoc d _ (concat _)), Z.add_0_l.
  rewrite EndArray_at_end.
  - unfold bind, ret. rewrite <- !app_assoc. reflexivity.
  - lia.
  - intros Hzero. destruct vec; [reflexivity | cbn [length] in Hzero; lia].
Qed.

Lemma writes_ReadWriteArray (f : A -> M A) (arr : list A) :
  Forall (fun el => writes (f el) el (enc el)) arr ->
  Z.of_nat (length arr) < uint64_max ->
  writes (ReadWriteArray dflt (fun el => el' <- f el ;; ret (true, el')) arr) arr
    (frame_bytes (enc <$> arr)).
Proof.
  intros Hf Hlen d stack Hmax. unfold frame_bytes in *.
  rewrite length_fmap in *. rewrite !length_app, !length_le_bytes in Hmax.
  unfold ReadWriteArray.
  unfold bind at 1, GetMode. cbn [cs_mode at_end].
  fold (at_end d stack). unfold bind at 1. rewrite BeginArray_writing.
  unfold bind at 1.
  rewrite (ReadWriteArray_write_bytes f arr Hf)
    by (rewrite ?length_app, ?length_le_bytes; lia).
  unfold bind at 1. rewrite <- (app_assoc d _ (concat _)), Z.add_0_l.
  rewrite EndArray_at_end.
  - unfold bind, ret. rewrite <- !app_assoc. reflexivity.
  - lia.
  - intros Hzero. destruct arr; [reflexivity | cbn [length] in Hzero; lia].
Qed.

End WriterBytes.

Lemma uint32_max_lt_uint64_max : uint32_max < uint64_max.
Proof. unfold uint32_max, uint64_max. lia. Qed.

Lemma writes_rw (t : ty) : forall v : val t, wf_val t v -> writes (rw t v) v (encode t v).
Proof.
  pose proof uint32_max_lt_uint64_max as Hmax.
  induction t as [n| |t IH|n t IH| |a IHa b IHb]; intros v Hwf; cbn [rw encode].
  - apply writes_ReadWrite, Hwf.
  - apply writes_ReadWrite_string.
  - destruct Hwf as [Hlen Hall]. apply writes_ReadWriteVector; [|lia].
    eapply Forall_impl; [exact Hall | intros el Hel; apply IH, Hel].
  - destruct Hwf as (_ & Hlen & Hall). apply writes_ReadWriteArray; [|lia].
    eapply Forall_impl; [exact Hall | intros el Hel; apply IH, Hel].
  - apply writes_ret.
  - destruct v as [x y]. destruct Hwf as [Hx Hy]. cbn [fst snd] in *.
    apply writes_bind with (a := x); [apply IHa, Hx|].
    rewrite <- (app_nil_r (encode b y)).
    apply writes_bind with (a := y); [apply IHb, Hy | apply writes_ret].
Qed.

Lemma reader_at_advance (pre bs post : list byte) (stack : list ArrayState) :
  mkChunkStream (MemoryStream.Build (pre ++ bs ++ post) (length pre + length bs))
    READING stack
  = reader_at (pre ++ bs) post stack.
Proof. unfold reader_at. rewrite app_assoc, length_app. reflexivity. Qed.

Lemma ReadBuffer_reader (pre bs post : list byte) (stack : list ArrayState) :
  ReadBuffer (length bs) (reader_at pre (bs ++ post) stack)
  = Ok (bs, reader_at (pre ++ bs) post stack).
Proof. unfold reader_at at 1. rewrite ReadBuffer_at, reader_at_advance. reflexivity. Qed.

Lemma reads_ReadWrite (n : nat) (v v0 : Z) :
  0 <= v < 256 ^ Z.of_nat n -> reads (ReadWrite n v0) v (le_bytes n v).
Proof.
  intros Hv pre post stack.
  unfold ReadWrite, ReadWrite_raw. unfold bind at 1. unfold bind at 1, GetMode.
  cbn [cs_mode reader_at]. fold (reader_at pre (le_bytes n v ++ post) stack).
  replace (length (le_bytes n v0)) with (length (le_bytes n v))
    by (rewrite !length_le_bytes; reflexivity).
  rewrite ReadBuffer_reader.
  unfold ret. rewrite le_value_le_bytes_small by exact Hv. reflexivity.
Qed.

Lemma reads_ReadWrite_string (s v0 : list byte) :
  Forall (fun b => b <> x00) s ->
  reads (ReadWrite_string v0) s (take (find_nul s) s ++ [x00]).
Proof.
  intros Hs pre post stack. rewrite (find_nul_free s Hs).
  unfold ReadWrite_string, bind, GetMode. cbn [cs_mode reader_at].
  unfold ReadString, reader_at.
  cbn [cs_buffer MemoryStream.data MemoryStream.position].
  rewrite (ReadString_loop_spec s Hs) by (rewrite !length_app; lia).
  cbn [app]. rewrite <- Nat.add_assoc.
  replace (length s + 1)%nat with (length (s ++ [x00]))
    by (rewrite length_app; reflexivity).
  rewrite reader_at_advance. reflexivity.
Qed.

Lemma reads_bind {A B} (m : M A) (k : A -> M B) (a : A) (b : B) (bs1 bs2 : list byte) :
  reads m a bs1 -> reads (k a) b bs2 -> reads (bind m k) b (bs1 ++ bs2).
Proof.
  intros Hm Hk pre post stack. rewrite <- (app_assoc bs1 bs2 post).
  rewrite (bind_Ok _ _ _ _ _ (Hm pre (bs2 ++ post) stack)).
  rewrite (Hk (pre ++ bs1) post stack), app_assoc. reflexivity.
Qed.

Lemma reads_ret {A} (a : A) : reads (ret a) a [].
Proof.
  intros pre post stack. unfold ret. cbn [app]. rewrite app_nil_r. reflexivity.
Qed.

Lemma le_bytes_4_to_uint32 (z : Z) : le_bytes 4 (to_uint32 z) = le_bytes 4 z.
Proof.
  pose proof (le_bytes_le_value (le_bytes 4 z)) as H.
  rewrite length_le_bytes, le_value_le_bytes_4 in H. exact H.
Qed.

Lemma BeginArray_reading (pre rest : list byte) (count elementSize : Z)
    (stack : list ArrayState) :
  BeginArray
    (reader_at pre ((le_bytes 4 count ++ le_bytes 4 elementSize) ++ rest) stack)
  = Ok (to_uint32 count,
        reader_at (pre ++ le_bytes 4 count ++ le_bytes 4 elementSize) rest
          (mkArrayState 0
             (Z.of_nat (length (pre ++ le_bytes 4 count ++ le_bytes 4 elementSize)))
             (to_uint32 count) (to_uint32 elementSize) :: stack)).
Proof.
  unfold BeginArray, emplace. unfold bind at 1.
  unfold bind at 1, GetMode. cbn [cs_mode cs_buffer cs_arrayStack reader_at].
  fold (reader_at pre ((le_bytes 4 count ++ le_bytes 4 elementSize) ++ rest)
          (ArrayState_init :: stack)).
  rewrite <- !app_assoc.
  pose proof (reads_ReadWrite 4 (to_uint32 count) 0) as Hcount.
  pose proof (reads_ReadWrite 4 (to_uint32 elementSize) 0) as Hsize.
  rewrite !le_bytes_4_to_uint32 in *.
  assert (Hrange : forall z, 0 <= to_uint32 z < 256 ^ Z.of_nat 4).
  { intros z. unfold to_uint32, uint32_max. apply Z.mod_pos_bound. lia. }
  unfold Read. unfold bind at 1. rewrite (Hcount (Hrange _)).
  unfold bind at 1. rewrite (Hsize (Hrange _)).
  unfold bind, GetPosition, set_top, ret.
  cbn [cs_buffer cs_mode cs_arrayStack reader_at MemoryStream.GetPosition
         MemoryStream.position].
  unfold reader_at. rewrite <- !app_assoc. reflexivity.
Qed.

(** A reader's frame with elements still to come moves on: in a frame of
    variable stride the cursor stays where the element codec left it, in a
    frame of fixed stride it is set one element size past the end of the
    element before. *)
Lemma NextArrayElement_reading_variable (pre rest : list byte)
    (start last count : Z) (stack : list ArrayState) :
  count <> 0 ->
  NextArrayElement (reader_at pre rest (mkArrayState start last count 0 :: stack))
  = Ok (count - 1 =? 0,
        reader_at pre rest (mkArrayState start last (count - 1) 0 :: stack)).
Proof.
  intros Hcount. unfold NextArrayElement, top, bind, GetMode.
  cbn [cs_arrayStack cs_mode reader_at Count ElementSize StartPos LastPos].
  rewrite (proj2 (Z.eqb_neq count 0) Hcount). reflexivity.
Qed.

Lemma NextArrayElement_reading_fixed (pre bs rest : list byte)
    (start count elementSize : Z) (stack : list ArrayState) :
  count <> 0 ->
  elementSize <> 0 ->
  Z.of_nat (length bs) = elementSize ->
  NextArrayElement
    (reader_at (pre ++ bs) rest
       (mkArrayState start (Z.of_nat (length pre)) count elementSize :: stack))
  = Ok (count - 1 =? 0,
        reader_at (pre ++ bs) rest
          (mkArrayState start (Z.of_nat (length (pre ++ bs))) (count - 1) elementSize
           :: stack)).
Proof.
  intros Hcount Hsize Hbs. unfold NextArrayElement, top. unfold bind at 1.
  unfold bind at 1, GetMode.
  cbn [cs_arrayStack cs_mode reader_at Count ElementSize StartPos LastPos].
  rewrite (proj2 (Z.eqb_neq count 0) Hcount), (proj2 (Z.eqb_neq elementSize 0) Hsize).
  cbn [negb]. unfold bind at 1. unfold bind at 1. unfold reader_at at 1.
  rewrite SetPosition_in_range by (rewrite !length_app; lia).
  unfold ret at 1. unfold bind, set_top, ret. cbn [cs_arrayStack cs_buffer cs_mode].
  rewrite <- Hbs, <- Nat2Z.inj_add, Nat2Z.id, <- length_app. reflexivity.
Qed.

Lemma EndArray_reading (pre rest : list byte) (st : ArrayState) (stack : list ArrayState) :
  EndArray (reader_at pre rest (st :: stack)) = Ok (tt, reader_at pre rest stack).
Proof. reflexivity. Qed.

Section ReaderLoops.

Context {A : Type}.
Variable enc : A -> list byte.
Variable dflt : A.

Lemma NextArrayElement_reading (pre rest : list byte) (el : A) (els : list A)
    (start last elementSize : Z) (stack : list ArrayState) :
  stride_fits enc elementSize last pre (el :: els) ->
  exists last',
    NextArrayElement
      (reader_at (pre ++ enc el) rest
         (mkArrayState start last (Z.of_nat (S (length els))) elementSize :: stack))
    = Ok (Z.of_nat (length els) =? 0,
          reader_at (pre ++ enc el) rest
            (mkArrayState start last' (Z.of_nat (length els)) elementSize :: stack))
    /\ stride_fits enc elementSize last' (pre ++ enc el) els.
Proof.
  intros Hfits.
  replace (Z.of_nat (length els)) with (Z.of_nat (S (length els)) - 1) by lia.
  destruct (decide (elementSize = 0)) as [->|Hsize].
  - exists last. split; [|left; reflexivity].
    apply NextArrayElement_reading_variable. lia.
  - destruct Hfits as [Hzero|[-> Hall]]; [contradiction|].
    exists (Z.of_nat (length (pre ++ enc el))). split.
    + apply NextArrayElement_reading_fixed; [lia | exact Hsize|].
      exact (Forall_inv Hall).
    + right. split; [reflexivity | exact (Forall_inv_tail Hall)].
Qed.

Lemma ReadWriteVector_read_spec (f : A -> M A) (els : list A) :
  Forall (fun el => reads (f dflt) el (enc el)) els ->
  forall acc pre post stack start last elementSize,
    stride_fits enc elementSize last pre els ->
    exists last',
      ReadWriteVector_read dflt f (length els) acc
        (reader_at pre (concat (enc <$> els) ++ post)
           (mkArrayState start last (Z.of_nat (length els)) elementSize :: stack))
      = Ok (acc ++ els,
            reader_at (pre ++ concat (enc <$> els)) post
              (mkArrayState start last' 0 elementSize :: stack)).
Proof.
  induction 1 as [|el els Hel _ IH];
    intros acc pre post stack start last elementSize Hfits.
  - exists last. cbn [length ReadWriteVector_read fmap list_fmap concat app].
    unfold ret. rewrite !app_nil_r. reflexivity.
  - cbn [length ReadWriteVector_read fmap list_fmap concat].
    rewrite <- (app_assoc (enc el)).
    rewrite (bind_Ok _ _ _ _ _ (Hel pre _ _)).
    destruct (NextArrayElement_reading pre (concat (enc <$> els) ++ post) el els
                start last elementSize stack Hfits)
      as (last1 & Hnext & Hfits1).
    rewrite (bind_Ok _ _ _ _ _ Hnext).
    destruct (IH (acc ++ [el]) (pre ++ enc el) post stack start last1 elementSize Hfits1)
      as (last' & Hloop).
    exists last'. rewrite Hloop, <- !app_assoc. reflexivity.
Qed.

Lemma ReadWriteArray_read_spec (f : A -> M A) (els : list A) :
  Forall (fun el => reads (f dflt) el (enc el)) els ->
  forall acc pre post stack start last elementSize,
    stride_fits enc elementSize last pre els ->
    exists last',
      ReadWriteArray_read (fun el => el' <- f el ;; ret (true, el'))
        (length els) (length acc) (acc ++ replicate (length els) dflt)
        (reader_at pre (concat (enc <$> els) ++ post)
           (mkArrayState start last (Z.of_nat (length els)) elementSize :: stack))
      = Ok (acc ++ els,
            reader_at (pre ++ concat (enc <$> els)) post
              (mkArrayState start last' 0 elementSize :: stack)).
Proof.
  induction 1 as [|el els Hel _ IH];
    intros acc pre post stack start last elementSize Hfits.
  - exists last. cbn [length ReadWriteArray_read fmap list_fmap concat app replicate].
    unfold ret. rewrite !app_nil_r. reflexivity.
  - cbn [length ReadWriteArray_read fmap list_fmap concat replicate].
    rewrite <- (app_assoc (enc el)).
    rewrite list_lookup_middle by reflexivity.
    unfold bind at 1. unfold bind at 1. unfold bind at 1.
    rewrite (Hel pre _ _). unfold ret at 1. unfold ret at 1. cbn [snd].
    destruct (NextArrayElement_reading pre (concat (enc <$> els) ++ post) el els
                start last elementSize stack Hfits)
      as (last1 & Hnext & Hfits1).
    rewrite (bind_Ok _ _ _ _ _ Hnext).
    destruct (IH (acc ++ [el]) (pre ++ enc el) post stack start last1 elementSize Hfits1)
      as (last' & Hloop).
    exists last'.
    rewrite insert_app_r_alt by lia. rewrite Nat.sub_diag. cbn [insert list_insert].
    rewrite length_app, Nat.add_1_r in Hloop.
    rewrite <- (app_assoc acc [el]) in Hloop. cbn [app] in Hloop.
    rewrite Hloop, <- !app_assoc. reflexivity.
Qed.

End ReaderLoops.

Lemma stride_from_cases (sizes : list Z) (count k : Z) :
  0 < count ->
  stride_from count k sizes = 0
  \/ (stride_from count k sizes = k /\ Forall (fun k' => k' = k) sizes).
Proof.
  revert count. induction sizes as [|k' sizes IH]; intros count Hc; cbn [stride_from].
  - right. split; [reflexivity | constructor].
  - rewrite (proj2 (Z.eqb_neq count 0)) by lia.
    destruct (Z.eqb_spec k k') as [<-|Hk]; cbn [negb].
    + destruct (IH (count + 1) ltac:(lia)) as [Hzero|[Hsame Hall]];
        [left; exact Hzero | right].
      split; [exact Hsame | constructor; [reflexivity | exact Hall]].
    + left. apply stride_from_zero. lia.
Qed.

Lemma stride_cases (sizes : list Z) :
  stride_from 0 0 sizes = 0
  \/ Forall (fun k => k = stride_from 0 0 sizes) sizes.
Proof.
  destruct sizes as [|k sizes]; [left; reflexivity|].
  cbn [stride_from Z.eqb].
  destruct (stride_from_cases sizes (0 + 1) k ltac:(lia)) as [Hzero|[Hsame Hall]];
    [left; exact Hzero | right].
  rewrite Hsame. constructor; [reflexivity | exact Hall].
Qed.

Section ReaderFrames.

Context {A : Type}.
Variable enc : A -> list byte.
Variable dflt : A.

(** The element size a writer stored fits the elements when read back. *)
Lemma stored_stride_fits (pre : list byte) (els : list A) :
  Forall (fun el => Z.of_nat (length (enc el)) < uint32_max) els ->
  stride_fits enc
    (to_uint32
       (stride_from 0 0 ((fun b => Z.of_nat (length b)) <$> (enc <$> els))))
    (Z.of_nat (length pre)) pre els.
Proof.
  intros Hsmall.
  destruct (stride_cases ((fun b => Z.of_nat (length b)) <$> (enc <$> els)))
    as [->|Hall]; [left; reflexivity|].
  rewrite <- list_fmap_compose in *.
  set (k := stride_from 0 0 _) in *.
  apply Forall_fmap in Hall.
  destruct els as [|el els]; [left; reflexivity|].
  assert (Hk : 0 <= k < uint32_max).
  { pose proof (Forall_inv Hall) as Hel. pose proof (Forall_inv Hsmall) as Hlt.
    unfold compose in Hel. cbn beta in Hel, Hlt. lia. }
  rewrite to_uint32_small by exact Hk.
  right. split; [reflexivity|].
  eapply Forall_impl; [exact Hall | intros x Hx; exact Hx].
Qed.

Lemma reads_ReadWriteVector (f : A -> M A) (vec v0 : list A) :
  Forall (fun el => reads (f dflt) el (enc el)) vec ->
  Z.of_nat (length vec) < uint32_max ->
  Forall (fun el => Z.of_nat (length (enc el)) < uint32_max) vec ->
  reads (ReadWriteVector dflt f v0) vec (frame_bytes (enc <$> vec)).
Proof.
  intros Hf Hlen Hsmall pre post stack.
  unfold frame_bytes. rewrite length_fmap.
  rewrite (app_assoc (le_bytes 4 _)), <- (app_assoc _ (concat _) post).
  unfold ReadWriteVector. unfold bind at 1, GetMode. cbn [cs_mode reader_at].
  fold (reader_at pre
          ((le_bytes 4 (to_uint32 (Z.of_nat (length vec)))
            ++ le_bytes 4
                 (to_uint32
                    (stride_from 0 0
                       ((fun b => Z.of_nat (length b)) <$> (enc <$> vec)))))
           ++ concat (enc <$> vec) ++ post) stack).
  unfold bind at 1. rewrite BeginArray_reading.
  rewrite !to_uint32_idem, (to_uint32_small (Z.of_nat (length vec))) by lia.
  rewrite Nat2Z.id.
  destruct (ReadWriteVector_read_spec enc dflt f vec Hf []
              (pre ++ le_bytes 4 (to_uint32 (Z.of_nat (length vec)))
               ++ le_bytes 4
                    (to_uint32
                       (stride_from 0 0
                          ((fun b => Z.of_nat (length b)) <$> (enc <$> vec)))))
              post stack 0 _ _ (stored_stride_fits _ vec Hsmall))
    as (last' & Hloop).
  rewrite (to_uint32_small (Z.of_nat (length vec))) in Hloop by lia.
  rewrite (bind_Ok _ _ _ _ _ Hloop).
  unfold bind at 1. rewrite EndArray_reading. unfold ret. cbn [app].
  rewrite <- !app_assoc. reflexivity.
Qed.

Lemma reads_ReadWriteArray (f : A -> M A) (arr v0 : list A) :
  Forall (fun el => reads (f dflt) el (enc el)) arr ->
  length v0 = length arr ->
  Z.of_nat (length arr) < uint32_max ->
  Forall (fun el => Z.of_nat (length (enc el)) < uint32_max) arr ->
  reads (ReadWriteArray dflt (fun el => el' <- f el ;; ret (true, el')) v0) arr
    (frame_bytes (enc <$> arr)).
Proof.
  intros Hf Hshape Hlen Hsmall pre post stack.
  unfold frame_bytes. rewrite length_fmap.
  rewrite (app_assoc (le_bytes 4 _)), <- (app_assoc _ (concat _) post).
  unfold ReadWriteArray. unfold bind at 1, GetMode. cbn [cs_mode reader_at].
  fold (reader_at pre
          ((le_bytes 4 (to_uint32 (Z.of_nat (length arr)))
            ++ le_bytes 4
                 (to_uint32
                    (stride_from 0 0
                       ((fun b => Z.of_nat (length b)) <$> (enc <$> arr)))))
           ++ concat (enc <$> arr) ++ post) stack).
  unfold bind at 1. rewrite BeginArray_reading.
  rewrite !to_uint32_idem, (to_uint32_small (Z.of_nat (length arr))) by lia.
  rewrite Nat2Z.id.
  rewrite (const_fmap (fun _ => dflt) v0 dflt) by reflexivity. rewrite Hshape.
  destruct (ReadWriteArray_read_spec enc dflt f arr Hf []
              (pre ++ le_bytes 4 (to_uint32 (Z.of_nat (length arr)))
               ++ le_bytes 4
                    (to_uint32
                       (stride_from 0 0
                          ((fun b => Z.of_nat (length b)) <$> (enc <$> arr)))))
              post stack 0 _ _ (stored_stride_fits _ arr Hsmall))
    as (last' & Hloop).
  rewrite (to_uint32_small (Z.of_nat (length arr))) in Hloop by lia.
  cbn [length app] in Hloop.
  rewrite (bind_Ok _ _ _ _ _ Hloop).
  unfold bind at 1. rewrite EndArray_reading. unfold ret. cbn [app].
  rewrite <- !app_assoc. reflexivity.
Qed.

End ReaderFrames.

Lemma shape_default (t : ty) : shape t (val_default t).
Proof.
  induction t as [n| |t IH|n t IH| |a IHa b IHb]; cbn [shape val_default fst snd];
    try exact I.
  - apply length_replicate.
  - split; assumption.
Qed.

Lemma length_concat_elem (l : list (list byte)) (bs : list byte) :
  bs ∈ l -> (length bs <= length (concat l))%nat.
Proof.
  induction 1 as [bs l|bs bs' l _ IH]; cbn [concat]; rewrite length_app; lia.
Qed.

Lemma length_frame_bytes (bodies : list (list byte)) :
  length (frame_bytes bodies) = (8 + length (concat bodies))%nat.
Proof. unfold frame_bytes. rewrite !length_app, !length_le_bytes. reflexivity. Qed.

Lemma frame_elements_small {A} (enc : A -> list byte) (els : list A) :
  Z.of_nat (length (frame_bytes (enc <$> els))) < uint32_max ->
  Forall (fun el => Z.of_nat (length (enc el)) < uint32_max) els.
Proof.
  intros Hsmall. rewrite length_frame_bytes in Hsmall.
  apply Forall_forall. intros el Hel.
  pose proof (length_concat_elem (enc <$> els) (enc el)
                (list_elem_of_fmap_2 enc els el Hel)).
  lia.
Qed.

Lemma reads_rw (t : ty) :
  forall v : val t,
    wf_val t v ->
    elements_fit t v ->
    forall v0 : val t, shape t v0 -> reads (rw t v0) v (encode t v).
Proof.
  induction t as [n| |t IH|n t IH| |a IHa b IHb];
    intros v Hwf Hfit v0 Hshape; cbn [rw encode elements_fit] in *.
  - apply reads_ReadWrite, Hwf.
  - apply reads_ReadWrite_string, Hwf.
  - destruct Hwf as [Hlen Hall].
    apply reads_ReadWriteVector;
      [|exact Hlen | eapply Forall_impl; [exact Hfit | intros el Hel; exact (proj1 Hel)]].
    apply Forall_forall. intros el Hel.
    apply IH; [| |apply shape_default].
    + exact (proj1 (Forall_forall _ _) Hall el Hel).
    + exact (proj2 (proj1 (Forall_forall _ _) Hfit el Hel)).
  - destruct Hwf as (Hn & Hlen & Hall). cbn [shape] in Hshape.
    apply reads_ReadWriteArray;
      [|congruence | exact Hlen
       |eapply Forall_impl; [exact Hfit | intros el Hel; exact (proj1 Hel)]].
    apply Forall_forall. intros el Hel.
    apply IH; [| |apply shape_default].
    + exact (proj1 (Forall_forall _ _) Hall el Hel).
    + exact (proj2 (proj1 (Forall_forall _ _) Hfit el Hel)).
  - destruct v, v0. apply reads_ret.
  - destruct v as [x y], v0 as [x0 y0].
    destruct Hwf as [Hx Hy], Hshape as [Hx0 Hy0], Hfit as [Hfx Hfy].
    cbn [fst snd] in *.
    apply reads_bind with (a := x); [apply IHa; [exact Hx | exact Hfx | exact Hx0]|].
    rewrite <- (app_nil_r (encode b y)).
    apply reads_bind with (a := y);
      [apply IHb; [exact Hy | exact Hfy | exact Hy0] | apply reads_ret].
Qed.

(** A value that takes less than [2^32] bytes has elements that do. *)
Lemma elements_fit_small (t : ty) :
  forall v : val t, Z.of_nat (length (encode t v)) < uint32_max -> elements_fit t v.
Proof.
  induction t as [n| |t IH|n t IH| |a IHa b IHb]; intros v Hsmall;
    cbn [encode elements_fit] in *; try exact I.
  - pose proof (frame_elements_small (encode t) v Hsmall) as Hels.
    eapply Forall_impl; [exact Hels|]. cbn beta. intros el Hel.
    split; [exact Hel | exact (IH el Hel)].
  - pose proof (frame_elements_small (encode t) v Hsmall) as Hels.
    eapply Forall_impl; [exact Hels|]. cbn beta. intros el Hel.
    split; [exact Hel | exact (IH el Hel)].
  - rewrite length_app in Hsmall. split; [apply IHa | apply IHb]; lia.
Qed.

(** ** Reading back a written file *)

Lemma IStream_Read_ahead (s : IStream.t) (bs rest : list byte) :
  ahead s (bs ++ rest) ->
  IStream.Read (length bs) s
  = Ok (bs, IStream.Build (IStream.data s) (IStream.position s + length bs))
  /\ ahead (IStream.Build (IStream.data s) (IStream.position s + length bs)) rest.
Proof.
  destruct s as [d p]. unfold ahead, IStream.Read.
  cbn [IStream.position IStream.data]. intros [Hp Hdrop].
  assert (Hlen : (p + length (bs ++ rest) = length d)%nat)
    by (rewrite <- Hdrop, length_drop; lia).
  rewrite length_app in Hlen.
  rewrite bool_decide_true by lia. rewrite Hdrop, take_app_length.
  split; [reflexivity|]. split; [lia|].
  rewrite <- drop_drop, Hdrop, drop_app_length. reflexivity.
Qed.

Lemma wrap_small (n : nat) (v : Z) : 0 <= v < 256 ^ Z.of_nat n -> wrap n v = v.
Proof. intros H. unfold wrap. apply Z.mod_small, H. Qed.

Lemma length_ChunkEntry_bytes (e : ChunkEntry) : length (ChunkEntry_bytes e) = 20%nat.
Proof. unfold ChunkEntry_bytes. rewrite !length_app, !length_le_bytes. reflexivity. Qed.

Lemma ChunkEntry_of_bytes_bytes (e : ChunkEntry) :
  chunk_in_range e -> ChunkEntry_of_bytes (ChunkEntry_bytes e) = e.
Proof.
  intros (HId & HOffset & HLength). destruct e as [id offset len].
  cbn [Id Offset Length] in *. unfold ChunkEntry_of_bytes, ChunkEntry_bytes.
  cbn [Id Offset Length].
  rewrite <- (app_nil_r (le_bytes 8 len)).
  rewrite field_here, (field_skip 4 _ 0), field_here,
    (field_skip 4 _ 8), (field_skip 8 _ 0), field_here.
  unfold uint32_max, uint64_max in *.
  rewrite !wrap_small by (simpl; lia). reflexivity.
Qed.

Lemma read_chunk_table_spec (chunks : list ChunkEntry) :
  Forall chunk_in_range chunks ->
  forall acc s rest,
    ahead s (chunk_table_bytes chunks ++ rest) ->
    exists s',
      read_chunk_table (length chunks) acc s = Ok (acc ++ chunks, s')
      /\ ahead s' rest.
Proof.
  induction 1 as [|e chunks He _ IH]; intros acc s rest Hahead.
  - exists s. cbn [length read_chunk_table]. unfold ret. rewrite app_nil_r.
    split; [reflexivity | exact Hahead].
  - cbn [length read_chunk_table].
    unfold chunk_table_bytes in Hahead. cbn [fmap list_fmap concat] in Hahead.
    rewrite <- app_assoc in Hahead.
    destruct (IStream_Read_ahead s _ _ Hahead) as [Hread Hahead1].
    rewrite length_ChunkEntry_bytes in Hread, Hahead1.
    unfold bind at 1. unfold ReadValue_ChunkEntry. unfold bind at 1.
    rewrite Hread. unfold ret at 1. rewrite (ChunkEntry_of_bytes_bytes e He).
    destruct (IH (acc ++ [e]) _ rest Hahead1) as (s' & Hloop & Hahead').
    exists s'. rewrite Hloop, <- app_assoc. split; [reflexivity | exact Hahead'].
Qed.

Lemma read_blocks_spec (fuel : nat) :
  forall (payload rest d : list byte) (s : IStream.t),
    ahead s (payload ++ rest) ->
    Z.of_nat (length payload) <= 2048 * (Z.of_nat fuel + 1) ->
    exists s',
      read_blocks fuel (Z.of_nat (length payload)) (MemoryStream.Build d (length d)) s
      = Ok (MemoryStream.Build (d ++ payload) (length (d ++ payload)), s')
      /\ ahead s' rest.
Proof.
  induction fuel as [|fuel IH]; intros payload rest d s Hahead Hfuel;
    rewrite read_blocks_unfold; cbv zeta.
  - rewrite Z.min_l by lia. rewrite Nat2Z.id, Z.sub_diag.
    destruct (IStream_Read_ahead s _ _ Hahead) as [Hread Hahead'].
    unfold bind. rewrite Hread. cbn [Z.gtb Z.compare].
    rewrite MemoryStream_Write_at_end. eexists. split; [reflexivity | exact Hahead'].
  - destruct (Z.le_gt_cases (Z.of_nat (length payload)) 2048) as [Hle|Hgt].
    + rewrite Z.min_l by lia. rewrite Nat2Z.id, Z.sub_diag.
      destruct (IStream_Read_ahead s _ _ Hahead) as [Hread Hahead'].
      unfold bind. rewrite Hread. cbn [Z.gtb Z.compare].
      rewrite MemoryStream_Write_at_end. eexists. split; [reflexivity | exact Hahead'].
    + rewrite Z.min_r by lia.
      rewrite <- (take_drop 2048 payload), <- app_assoc in Hahead.
      destruct (IStream_Read_ahead s _ _ Hahead) as [Hread Hahead1].
      assert (Htake : length (take 2048 payload) = 2048%nat)
        by (rewrite length_take; lia).
      rewrite Htake in Hread, Hahead1.
      unfold bind at 1. change (Z.to_nat 2048) with 2048%nat. rewrite Hread.
      rewrite (proj2 (Z.gtb_lt _ _)) by lia.
      rewrite MemoryStream_Write_at_end.
      replace (Z.of_nat (length payload) - 2048)
        with (Z.of_nat (length (drop 2048 payload)))
        by (rewrite length_drop; lia).
      destruct (IH (drop 2048 payload) rest (d ++ take 2048 payload) _ Hahead1)
        as (s' & Hloop & Hahead'); [rewrite length_drop; lia|].
      exists s'. rewrite Hloop, <- app_assoc, take_drop.
      split; [reflexivity | exact Hahead'].
Qed.

Lemma ReadValue_Header_ahead (s : IStream.t) (h : Header) (rest : list byte) :
  ahead s (Header_bytes h ++ rest) ->
  exists s',
    ReadValue_Header s = Ok (Header_of_bytes (Header_bytes h), s') /\ ahead s' rest.
Proof.
  intros Hahead. destruct (IStream_Read_ahead s _ _ Hahead) as [Hread Hahead'].
  rewrite length_Header_bytes in Hread. eexists.
  unfold ReadValue_Header, bind. rewrite Hread. split; [reflexivity | exact Hahead'].
Qed.

(** The reading constructor over a file as the destructor lays it out. *)
Lemma OrcaStream_new_reading_file
    (util_zlib_inflate : list byte -> option (list byte))
    (s : IStream.t) (h : Header) (chunks : list ChunkEntry) (payload rest : list byte) :
  ahead s (Header_bytes h ++ chunk_table_bytes chunks ++ payload ++ rest) ->
  wrap 4 (NumChunks h) = Z.of_nat (length chunks) ->
  wrap 8 (CompressedSize h) = Z.of_nat (length payload) ->
  Forall chunk_in_range chunks ->
  exists s',
    OrcaStream_new util_zlib_inflate s READING
    = if wrap 4 (Compression h) =? COMPRESSION_GZIP then
        match util_zlib_inflate payload with
        | Some d =>
            Ok (mkOrcaStream s' READING (Header_of_bytes (Header_bytes h)) chunks
                  (MemoryStream.Build d (length d)) ChunkEntry_init)
        | None =>
            Ok (mkOrcaStream s' READING (Header_of_bytes (Header_bytes h)) chunks
                  MemoryStream.empty ChunkEntry_init)
        end
      else
        Ok (mkOrcaStream s' READING (Header_of_bytes (Header_bytes h)) chunks
              (MemoryStream.Build payload (length payload)) ChunkEntry_init).
Proof.
  intros Hahead Hnum Hsize Hchunks.
  destruct (ReadValue_Header_ahead s h _ Hahead) as (s1 & Hheader & Hahead1).
  unfold OrcaStream_new. unfold bind at 1. rewrite Hheader.
  rewrite Header_of_bytes_bytes. unfold read_payload.
  cbn [NumChunks CompressedSize Compression]. rewrite Hnum, Hsize, Nat2Z.id.
  destruct (read_chunk_table_spec chunks Hchunks [] s1 _ Hahead1)
    as (s2 & Htable & Hahead2).
  cbn [app] in Htable.
  unfold bind at 1. unfold bind at 1. rewrite Htable.
  destruct (read_blocks_spec (Z.to_nat (Z.of_nat (length payload) / 2048))
              payload rest [] s2 Hahead2) as (s3 & Hblocks & _).
  { pose proof (Z.div_mod (Z.of_nat (length payload)) 2048 ltac:(lia)) as Hdiv.
    pose proof (Z.mod_pos_bound (Z.of_nat (length payload)) 2048 ltac:(lia)) as Hmod.
    assert (0 <= Z.of_nat (length payload) / 2048) by (apply Z.div_pos; lia).
    lia. }
  cbn [length app] in Hblocks. unfold MemoryStream.empty.
  unfold bind at 1. rewrite Hblocks.
  exists s3. destruct (wrap 4 (Compression h) =? COMPRESSION_GZIP).
  - unfold MemoryStream.GetData, MemoryStream.Clear. cbn [MemoryStream.data].
    destruct (util_zlib_inflate payload) as [d|]; [|reflexivity].
    cbv zeta. unfold ret, bind.
    change MemoryStream.empty with (MemoryStream.Build [] (length (@nil byte))).
    rewrite MemoryStream_Write_at_end. reflexivity.
  - reflexivity.
Qed.

Lemma IStream_put_ahead (bs : list byte) (s : IStream.t) :
  (IStream.position s <= length (IStream.data s))%nat ->
  ahead (IStream.Build (IStream.data (IStream.put bs s)) (IStream.position s))
    (bs ++ drop (IStream.position s + length bs) (IStream.data s)).
Proof.
  destruct s as [d p]. unfold ahead, IStream.put.
  cbn [IStream.position IStream.data]. intros Hp.
  assert (Htake : length (take p d) = p) by (rewrite length_take; lia).
  split.
  - rewrite length_app, Htake. lia.
  - rewrite drop_app_length' by (symmetry; exact Htake). reflexivity.
Qed.

(** The destructor of such a writer returns, and the reading constructor,
    put where the writer started in the output, gets the directory and the
    buffer back. *)
Lemma finalize_then_construct
    (util_zlib_inflate util_zlib_deflate : list byte -> option (list byte))
    (SHA1 : list byte -> Z) (s : OrcaStream) :
  finalizable util_zlib_inflate util_zlib_deflate s ->
  exists s' r,
    OrcaStream_delete util_zlib_deflate SHA1 s = Ok s'
    /\ OrcaStream_new util_zlib_inflate
         (IStream.Build (IStream.data (_stream s')) (IStream.position (_stream s)))
         READING
       = Ok r
    /\ _mode r = READING
    /\ _chunks r = _chunks s
    /\ _buffer r
       = MemoryStream.Build (MemoryStream.data (_buffer s))
           (length (MemoryStream.data (_buffer s))).
Proof.
  intros (Hmode & Hchunks & Hnum & Hcompression & Hsize & Hpos & Hcodec).
  rewrite (OrcaStream_delete_writing _ _ _ Hmode).
  assert (Hwrap32 : forall z, 0 <= z < uint32_max -> wrap 4 z = z)
    by (intros z Hz; apply wrap_small; exact Hz).
  assert (Hwrap64 : forall z, 0 <= z < uint64_max -> wrap 8 z = z)
    by (intros z Hz; apply wrap_small; exact Hz).
  unfold finalize_header, MemoryStream.GetData, MemoryStream.GetLength.
  cbn [Compression].
  destruct (Z.eqb_spec (Compression (_header s)) COMPRESSION_GZIP) as [Hgzip|Hnone].
  - destruct (util_zlib_deflate (MemoryStream.data (_buffer s)))
      as [compressedBytes|] eqn:Hdeflate.
    + destruct Hcodec as [Hlen Hinflate].
      match goal with
      | |- context [IStream.put (Header_bytes ?h ++ ?table ++ ?payload) _] =>
          pose proof (IStream_put_ahead (Header_bytes h ++ table ++ payload)
                        (_stream s) Hpos) as Hahead;
          rewrite <- !app_assoc in Hahead;
          destruct (OrcaStream_new_reading_file util_zlib_inflate _ h (_chunks s)
                      payload _ Hahead) as (s' & Hnew)
      end.
      * cbn [NumChunks]. rewrite Hwrap32.
        -- rewrite to_uint32_small by lia. reflexivity.
        -- unfold to_uint32. apply Z.mod_pos_bound. unfold uint32_max. lia.
      * cbn [CompressedSize]. apply Hwrap64. lia.
      * exact Hchunks.
      * cbn [Compression] in Hnew. rewrite Hgzip in Hnew |- *.
        change (wrap 4 COMPRESSION_GZIP =? COMPRESSION_GZIP) with true in Hnew.
        cbv iota in Hnew. rewrite Hinflate in Hnew.
        eexists _, _. split; [reflexivity|]. cbn [_stream].
        split; [exact Hnew|]. repeat split; reflexivity.
    + match goal with
      | |- context [IStream.put (Header_bytes ?h ++ ?table ++ ?payload) _] =>
          pose proof (IStream_put_ahead (Header_bytes h ++ table ++ payload)
                        (_stream s) Hpos) as Hahead;
          rewrite <- !app_assoc in Hahead;
          destruct (OrcaStream_new_reading_file util_zlib_inflate _ h (_chunks s)
                      payload _ Hahead) as (s' & Hnew)
      end.
      * cbn [NumChunks]. rewrite Hwrap32.
        -- rewrite to_uint32_small by lia. reflexivity.
        -- unfold to_uint32. apply Z.mod_pos_bound. unfold uint32_max. lia.
      * cbn [CompressedSize]. apply Hwrap64. lia.
      * exact Hchunks.
      * cbn [Compression] in Hnew.
        change (wrap 4 COMPRESSION_NONE =? COMPRESSION_GZIP) with false in Hnew.
        cbv iota in Hnew.
        eexists _, _. split; [reflexivity|]. cbn [_stream].
        split; [exact Hnew|]. repeat split; reflexivity.
  - match goal with
    | |- context [IStream.put (Header_bytes ?h ++ ?table ++ ?payload) _] =>
        pose proof (IStream_put_ahead (Header_bytes h ++ table ++ payload)
                      (_stream s) Hpos) as Hahead;
        rewrite <- !app_assoc in Hahead;
        destruct (OrcaStream_new_reading_file util_zlib_inflate _ h (_chunks s)
                    payload _ Hahead) as (s' & Hnew)
    end.
    + cbn [NumChunks]. rewrite Hwrap32.
      * rewrite to_uint32_small by lia. reflexivity.
      * unfold to_uint32. apply Z.mod_pos_bound. unfold uint32_max. lia.
    + cbn [CompressedSize]. apply Hwrap64. lia.
    + exact Hchunks.
    + cbn [Compression] in Hnew. rewrite (Hwrap32 _ Hcompression) in Hnew.
      rewrite (proj2 (Z.eqb_neq _ _) Hnone) in Hnew.
      eexists _, _. split; [reflexivity|]. cbn [_stream].
      split; [exact Hnew|]. repeat split; reflexivity.
Qed.

Lemma ReadWriteChunk_writes (t : ty) (v : val t) (chunkId : Z) (w : OrcaStream) :
  wf_val t v ->
  _mode w = WRITING ->
  MemoryStream.position (_buffer w) = length (MemoryStream.data (_buffer w)) ->
  Z.of_nat (length (MemoryStream.data (_buffer w) ++ encode t v)) < uint64_max ->
  ReadWriteChunk chunkId (rw t) v w
  = Ok ((true, v),
        mkOrcaStream (_stream w) WRITING (_header w)
          (_chunks w
           ++ [mkChunkEntry chunkId
                 (Z.of_nat (length (MemoryStream.data (_buffer w))))
                 (Z.of_nat (length (encode t v)))])
          (MemoryStream.Build (MemoryStream.data (_buffer w) ++ encode t v)
             (length (MemoryStream.data (_buffer w) ++ encode t v)))
          (mkChunkEntry chunkId
             (Z.of_nat (length (MemoryStream.data (_buffer w))))
             (Z.of_nat (length (encode t v))))).
Proof.
  intros Hwf Hmode Hend Hmax.
  pose proof (writes_rw t v Hwf (MemoryStream.data (_buffer w)) [] Hmax) as Hrun.
  unfold at_end in Hrun at 1. rewrite <- Hend in Hrun.
  replace (MemoryStream.Build (MemoryStream.data (_buffer w))
             (MemoryStream.position (_buffer w)))
    with (_buffer w) in Hrun by (destruct (_buffer w); reflexivity).
  rewrite (ReadWriteChunk_writing_returns chunkId (rw t) v v w _ Hmode Hrun).
  unfold at_end, MemoryStream.GetPosition.
  cbn [cs_buffer MemoryStream.position]. rewrite Hend.
  rewrite length_app in Hmax. rewrite length_app.
  rewrite to_size_t_small by lia.
  replace (Z.of_nat (length (MemoryStream.data (_buffer w)) + length (encode t v))
           - Z.of_nat (length (MemoryStream.data (_buffer w))))
    with (Z.of_nat (length (encode t v))) by lia.
  reflexivity.
Qed.

Lemma ReadWriteChunk_reads (t : ty) (v v0 : val t) (chunkId : Z) (r : OrcaStream)
    (before after : list ChunkEntry) (e : ChunkEntry) (pre post : list byte) :
  wf_val t v ->
  shape t v0 ->
  elements_fit t v ->
  _mode r = READING ->
  _chunks r = before ++ e :: after ->
  Forall (fun x => Id x <> chunkId) before ->
  Id e = chunkId ->
  Offset e = Z.of_nat (length pre) ->
  MemoryStream.data (_buffer r) = pre ++ encode t v ++ post ->
  exists r', ReadWriteChunk chunkId (rw t) v0 r = Ok ((true, v), r').
Proof.
  intros Hwf Hshape Hsmall Hmode Hchunks Hbefore He Hoffset Hdata.
  rewrite (ReadWriteChunk_reading_found chunkId (rw t) v0 r before after e
             Hmode Hchunks Hbefore He).
  unfold MemoryStream.SetPosition, MemoryStream.GetLength.
  rewrite Hoffset, Hdata, Nat2Z.id.
  rewrite bool_decide_true by (rewrite !length_app; lia).
  pose proof (reads_rw t v Hwf Hsmall v0 Hshape pre post []) as Hrun.
  unfold reader_at in Hrun at 1. rewrite Hrun.
  eexists. reflexivity.
Qed.

(** C1 (as amended): a value whose strings hold no NUL, whose scalars fit
    their size, whose vectors and arrays fit the 32-bit count and have
    elements of less than [2^32] bytes each, is handed to a codec built from
    scalars, strings, vectors and fixed arrays (whose element codecs answer
    true).  A writer at the end of its buffer that has no chunk of the
    requested id yet writes it with [ReadWriteChunk], the buffer staying
    below [2^64] bytes; whatever is written after it, once the writer is
    finalized, a reader constructed over the bytes it left gets the value
    back from [ReadWriteChunk] with the same id and codec.  In particular
    this holds for a container with this one chunk, of less than [2^64]
    bytes, written to an empty stream. *)
Theorem C1_write_then_read
    (util_zlib_inflate util_zlib_deflate : list byte -> option (list byte))
    (SHA1 : list byte -> Z)
    (t : ty) (v v0 : val t) (chunkId : Z) :
  wf_val t v ->
  shape t v0 ->
  0 <= chunkId < uint32_max ->
  elements_fit t v ->
  (forall w : OrcaStream,
     _mode w = WRITING ->
     MemoryStream.position (_buffer w) = length (MemoryStream.data (_buffer w)) ->
     Forall (fun e => Id e <> chunkId) (_chunks w) ->
     Z.of_nat (length (MemoryStream.data (_buffer w) ++ encode t v)) < uint64_max ->
     exists w1,
       ReadWriteChunk chunkId (rw t) v w = Ok ((true, v), w1)
       /\ forall (wn : OrcaStream) (later : list ChunkEntry) (more : list byte),
            _chunks wn = _chunks w1 ++ later ->
            MemoryStream.data (_buffer wn) = MemoryStream.data (_buffer w1) ++ more ->
            finalizable util_zlib_inflate util_zlib_deflate wn ->
            exists wn' r r',
              OrcaStream_delete util_zlib_deflate SHA1 wn = Ok wn'
              /\ OrcaStream_new util_zlib_inflate
                   (IStream.Build (IStream.data (_stream wn'))
                      (IStream.position (_stream wn)))
                   READING
                 = Ok r
              /\ ReadWriteChunk chunkId (rw t) v0 r = Ok ((true, v), r'))
  /\ (Z.of_nat (length (encode t v)) < uint64_max ->
      match util_zlib_deflate (encode t v) with
      | Some compressedBytes =>
          Z.of_nat (length compressedBytes) < uint64_max
          /\ util_zlib_inflate compressedBytes = Some (encode t v)
      | None => True
      end ->
      write_then_read util_zlib_inflate util_zlib_deflate SHA1 chunkId (rw t) v v0
      = Ok (true, v)).
Proof.
  intros Hwf Hshape Hid Hsmall.
  assert (Hgeneral : forall w : OrcaStream,
     _mode w = WRITING ->
     MemoryStream.position (_buffer w) = length (MemoryStream.data (_buffer w)) ->
     Forall (fun e => Id e <> chunkId) (_chunks w) ->
     Z.of_nat (length (MemoryStream.data (_buffer w) ++ encode t v)) < uint64_max ->
     exists w1,
       ReadWriteChunk chunkId (rw t) v w = Ok ((true, v), w1)
       /\ _chunks w1
          = _chunks w
            ++ [mkChunkEntry chunkId
                  (Z.of_nat (length (MemoryStream.data (_buffer w))))
                  (Z.of_nat (length (encode t v)))]
       /\ _buffer w1
          = MemoryStream.Build (MemoryStream.data (_buffer w) ++ encode t v)
              (length (MemoryStream.data (_buffer w) ++ encode t v))
       /\ _stream w1 = _stream w /\ _header w1 = _header w /\ _mode w1 = WRITING
       /\ forall (wn : OrcaStream) (later : list ChunkEntry) (more : list byte),
            _chunks wn = _chunks w1 ++ later ->
            MemoryStream.data (_buffer wn) = MemoryStream.data (_buffer w1) ++ more ->
            finalizable util_zlib_inflate util_zlib_deflate wn ->
            exists wn' r r',
              OrcaStream_delete util_zlib_deflate SHA1 wn = Ok wn'
              /\ OrcaStream_new util_zlib_inflate
                   (IStream.Build (IStream.data (_stream wn'))
                      (IStream.position (_stream wn)))
                   READING
                 = Ok r
              /\ ReadWriteChunk chunkId (rw t) v0 r = Ok ((true, v), r')).
  { intros w Hmode Hend Hfresh Hmax.
    eexists. split; [exact (ReadWriteChunk_writes t v chunkId w Hwf Hmode Hend Hmax)|].
    cbn [_chunks _buffer _stream _header _mode MemoryStream.data].
    do 5 (split; [reflexivity|]).
    intros wn later more Hchunks Hdata Hfinal.
    destruct (finalize_then_construct util_zlib_inflate util_zlib_deflate SHA1 wn Hfinal)
      as (wn' & r & Hdelete & Hnew & Hmoder & Hchunksr & Hbufferr).
    rewrite Hchunks, <- app_assoc in Hchunksr. cbn [app] in Hchunksr.
    destruct (ReadWriteChunk_reads t v v0 chunkId r _ _ _
                (MemoryStream.data (_buffer w)) more
                Hwf Hshape Hsmall Hmoder Hchunksr Hfresh eq_refl eq_refl)
      as [r' Hread].
    { rewrite Hbufferr. cbn [MemoryStream.data]. rewrite Hdata, <- app_assoc.
      reflexivity. }
    exists wn', r, r'. repeat split; assumption. }
  split.
  - intros w Hmode Hend Hfresh Hmax.
    destruct (Hgeneral w Hmode Hend Hfresh Hmax) as (w1 & Hwrite & _ & _ & _ & _ & _ & Hread).
    exists w1. split; [exact Hwrite | exact Hread].
  - intros Hlt Hcodec. unfold write_then_read.
    set (w := mkOrcaStream (IStream.Build [] 0) WRITING
                (mkHeader 0 0 0 0 0 COMPRESSION_GZIP 0 0 0) []
                MemoryStream.empty ChunkEntry_init).
    change (OrcaStream_new util_zlib_inflate (IStream.Build [] 0) WRITING)
      with (Ok w).
    destruct (Hgeneral w eq_refl eq_refl ltac:(constructor))
      as (w1 & Hwrite & Hchunks & Hbuffer & Hstream & Hheader & Hmode1 & Hread).
    { cbn [w _buffer MemoryStream.data MemoryStream.empty app]. lia. }
    rewrite Hwrite.
    destruct (Hread w1 [] [] ltac:(rewrite app_nil_r; reflexivity)
                ltac:(rewrite app_nil_r; reflexivity))
      as (wn' & r & r' & Hdelete & Hnew & Hback).
    { unfold finalizable. rewrite Hmode1, Hchunks, Hbuffer, Hstream, Hheader.
      cbn [w _chunks _buffer _stream _header MemoryStream.data MemoryStream.empty
             app length Compression IStream.position IStream.data].
      split; [reflexivity|]. split.
      { repeat constructor; cbn [Id Offset Length]; try lia.
        all: unfold uint64_max; lia. }
      split; [unfold uint32_max; lia|].
      split; [unfold COMPRESSION_GZIP, uint32_max; lia|].
      split; [lia|]. split; [lia | exact Hcodec]. }
    rewrite Hdelete. rewrite Hstream in Hnew. cbn [w _stream IStream.position] in Hnew.
    rewrite Hnew, Hback. reflexivity.
Qed.

(** Two values that do not come back: a string with a NUL inside is cut at
    it, and an array whose codec, when writing, answers false for an element
    it skips is read back with the later elements moved up. *)
Lemma C1_counterexample :
  let skip_zero := fun el : Z =>
    mode <- GetMode ;;
    match mode with
    | WRITING =>
        if el =? 0 then ret (false, el)
        else (v <- ReadWrite 2 el ;; ret (true, v))
    | READING => v <- ReadWrite 2 el ;; ret (true, v)
    end in
  write_then_read (fun c => Some c) (fun d => Some d) (fun _ => 0)
    4096 (rw TString) [x61; x00; x62] []
  = Ok (true, [x61])
  /\ write_then_read (fun c => Some c) (fun d => Some d) (fun _ => 0)
       4096 (ReadWriteArray 0 skip_zero) [0; 5] [0; 0]
     = Ok (true, [5; 0]).
Proof. split; vm_compute; reflexivity. Qed.

Lemma C1_write_then_read_witness :
  let inflate := fun c : list byte =>
    match c with
    | _ :: d => Some d
    | [] => None
    end in
  let deflate := fun d : list byte => Some (x78 :: d) in
  let t := TPair (TVector TString) (TArray 2 (TScalar 2)) in
  let v : val t := ([[x61; x62]; [x63]], [1; 2]) in
  let v0 : val t := ([], [0; 0]) in
  let w := mkOrcaStream (IStream.Build [] 0) WRITING
             (mkHeader 7 1 1 0 0 COMPRESSION_NONE 0 0 0)
             [mkChunkEntry 1 0 1] (MemoryStream.Build [x2a] 1) ChunkEntry_init in
  (exists w1 wn' r r',
     ReadWriteChunk 4096 (rw t) v w = Ok ((true, v), w1)
     /\ OrcaStream_delete deflate (fun _ => 0) w1 = Ok wn'
     /\ OrcaStream_new inflate (IStream.Build (IStream.data (_stream wn')) 0) READING
        = Ok r
     /\ ReadWriteChunk 4096 (rw t) v0 r = Ok ((true, v), r'))
  /\ write_then_read inflate deflate (fun _ => 0) 4096 (rw t) v v0 = Ok (true, v).
Proof.
  intros inflate deflate t v v0 w.
  assert (Hwf : wf_val t v).
  { cbn. unfold uint32_max.
    repeat split; repeat constructor; try discriminate; lia. }
  assert (Hshape : shape t v0) by (cbn; repeat split; reflexivity).
  assert (Hfit : elements_fit t v).
  { cbn. unfold uint32_max. repeat split; repeat constructor; cbn; lia. }
  destruct (C1_write_then_read inflate deflate (fun _ => 0) t v v0 4096
              Hwf Hshape ltac:(unfold uint32_max; lia) Hfit)
    as [Hgeneral Hfresh].
  split.
  - destruct (Hgeneral w eq_refl eq_refl) as (w1 & Hwrite & Hread).
    { repeat constructor. cbn. lia. }
    { vm_compute. reflexivity. }
    pose proof Hwrite as Hw1. vm_compute in Hw1. apply Ok_inj in Hw1.
    injection Hw1 as Hw1.
    destruct (Hread w1 [] [] ltac:(rewrite app_nil_r; reflexivity)
                ltac:(rewrite app_nil_r; reflexivity))
      as (wn' & r & r' & Hdelete & Hnew & Hback).
    { subst w1. unfold finalizable.
      cbn [_mode _chunks _header _buffer _stream Compression MemoryStream.data
             IStream.position IStream.data].
      split; [reflexivity|]. split.
      { repeat constructor; cbn [Id Offset Length];
          unfold uint32_max, uint64_max; lia. }
      split; [vm_compute; reflexivity|].
      split; [unfold uint32_max; lia|].
      split; [vm_compute; reflexivity|].
      split; [cbn; lia|].
      cbn [deflate]. split; [vm_compute; reflexivity | reflexivity]. }
    exists w1, wn', r, r'. split; [exact Hwrite|]. split; [exact Hdelete|].
    split; [|exact Hback].
    subst w1. exact Hnew.
  - apply Hfresh; [vm_compute; reflexivity|].
    cbn [deflate]. split; [vm_compute; reflexivity | reflexivity].
Defined.

(** ** Strings: every outcome of a read *)

Lemma ReadString_loop_total (rest : list byte) :
  forall (fuel : nat) (acc pre : list byte) (mode : Mode) (stack : list ArrayState),
    (length rest <= fuel)%nat ->
    ReadString_loop fuel acc
      (mkChunkStream (MemoryStream.Build (pre ++ rest) (length pre)) mode stack)
    = if bool_decide (find_nul rest < length rest)%nat
      then Ok (acc ++ take (find_nul rest) rest,
               mkChunkStream
                 (MemoryStream.Build (pre ++ rest) (length pre + find_nul rest + 1))
                 mode stack)
      else Err UnexpectedEndOfStream.
Proof.
  induction rest as [|c rest IH]; intros fuel acc pre mode stack Hfuel;
    rewrite ReadString_loop_unfold; unfold bind at 1.
  - unfold ReadBuffer, MemoryStream.Read.
    cbn [cs_buffer MemoryStream.data MemoryStream.position find_nul length].
    rewrite app_nil_r.
    rewrite (bool_decide_eq_false_2 (length pre + 1 <= length pre)%nat) by lia.
    rewrite bool_decide_eq_false_2 by lia. reflexivity.
  - change (pre ++ c :: rest) with (pre ++ [c] ++ rest).
    rewrite (ReadBuffer_at pre [c] rest). cbn [find_nul length].
    destruct (is_nul c) eqn:Hc.
    + rewrite bool_decide_eq_true_2 by lia.
      unfold ret. cbn [take]. rewrite app_nil_r. state_eq.
    + destruct fuel as [|fuel]; [simpl in Hfuel; lia|].
      rewrite (app_assoc pre [c]).
      replace (length pre + 1)%nat with (length (pre ++ [c]))
        by (rewrite length_app; reflexivity).
      rewrite IH by (simpl in Hfuel; lia).
      case_bool_decide as Hlt.
      * rewrite bool_decide_eq_true_2 by lia.
        rewrite <- (app_assoc acc [c]), length_app. cbn [app length take]. state_eq.
      * rewrite bool_decide_eq_false_2 by lia. reflexivity.
Qed.

(** X1: [ReadString] always ends.  With a NUL among the bytes ahead of the
    cursor it returns the bytes before the first one and leaves the cursor
    after that NUL; with none it throws UnexpectedEndOfStream. *)
Theorem X1_ReadString_total
    (pre rest : list byte) (mode : Mode) (stack : list ArrayState) :
  ReadString (mkChunkStream (MemoryStream.Build (pre ++ rest) (length pre)) mode stack)
  = if bool_decide (find_nul rest < length rest)%nat
    then Ok (take (find_nul rest) rest,
             mkChunkStream
               (MemoryStream.Build (pre ++ rest) (length pre + find_nul rest + 1))
               mode stack)
    else Err UnexpectedEndOfStream.
Proof.
  unfold ReadString. cbn [cs_buffer MemoryStream.data MemoryStream.position].
  rewrite ReadString_loop_total by (rewrite length_app; lia).
  reflexivity.
Qed.

(** ** [Write] on either side *)

Lemma le_bytes_wrap (n : nat) (v : Z) : le_bytes n (v mod 256 ^ Z.of_nat n) = le_bytes n v.
Proof.
  pose proof (le_bytes_le_value (le_bytes n v)) as H.
  rewrite length_le_bytes, le_value_le_bytes in H. exact H.
Qed.

Lemma ReadWrite_raw_reader (bs0 bs pre post : list byte) (stack : list ArrayState) :
  length bs0 = length bs ->
  ReadWrite_raw bs0 (reader_at pre (bs ++ post) stack)
  = Ok (bs, reader_at (pre ++ bs) post stack).
Proof.
  intros Hlen. unfold ReadWrite_raw. unfold bind at 1, GetMode.
  cbn [cs_mode reader_at]. fold (reader_at pre (bs ++ post) stack).
  rewrite Hlen. apply ReadBuffer_reader.
Qed.

Lemma ReadWrite_raw_writer (bs d : list byte) (stack : list ArrayState) :
  ReadWrite_raw bs (at_end d stack) = Ok (bs, at_end (d ++ bs) stack).
Proof.
  unfold ReadWrite_raw, bind, GetMode, WriteBuffer, ret, at_end.
  cbn [cs_mode cs_buffer cs_arrayStack]. rewrite MemoryStream_Write_at_end. reflexivity.
Qed.

Lemma WriteString_at_end (s d : list byte) (stack : list ArrayState) :
  WriteString s (at_end d stack)
  = Ok (tt, at_end (d ++ take (find_nul s) s ++ [x00]) stack).
Proof.
  unfold WriteString, bind, WriteBuffer, at_end.
  cbn [cs_mode cs_buffer cs_arrayStack].
  rewrite MemoryStream_Write_Write, MemoryStream_Write_at_end. reflexivity.
Qed.

(** X2: [Write] is the writer's half of a field a reader steps over.  A
    writer at the end of the buffer appends the raw image of the value, or
    the string up to its first NUL and a NUL; a reader calling [Write] at
    these bytes, with whatever value, moves the cursor to their end and
    changes no byte. *)
Theorem X2_Write_emits_and_skips
    (n : nat) (v v' : Z) (s s' d pre post : list byte) (stack : list ArrayState) :
  let image := take (find_nul s) s ++ [x00] in
  Write n v (at_end d stack) = Ok (tt, at_end (d ++ le_bytes n v) stack)
  /\ Write n v' (reader_at pre (le_bytes n v ++ post) stack)
     = Ok (tt, reader_at (pre ++ le_bytes n v) post stack)
  /\ Write_string s (at_end d stack) = Ok (tt, at_end (d ++ image) stack)
  /\ Write_string s' (reader_at pre (image ++ post) stack)
     = Ok (tt, reader_at (pre ++ image) post stack)
  /\ Write_std_string s (at_end d stack) = Ok (tt, at_end (d ++ image) stack)
  /\ Write_std_string s' (reader_at pre (image ++ post) stack)
     = Ok (tt, reader_at (pre ++ image) post stack).
Proof.
  intros image.
  assert (Hstr : Write_string s (at_end d stack) = Ok (tt, at_end (d ++ image) stack)).
  { unfold Write_string. unfold bind at 1, GetMode. cbn [cs_mode at_end].
    apply WriteString_at_end. }
  assert (Hskip : Write_string s' (reader_at pre (image ++ post) stack)
                  = Ok (tt, reader_at (pre ++ image) post stack)).
  { unfold Write_string. unfold bind at 1, GetMode. cbn [cs_mode reader_at].
    fold (reader_at pre (image ++ post) stack).
    pose proof (find_nul_prefix s) as [Hfree _].
    pose proof (reads_ReadWrite_string (take (find_nul s) s) [] Hfree pre post stack)
      as Hread.
    rewrite (find_nul_free _ Hfree) in Hread. fold image in Hread.
    rewrite (bind_Ok _ _ _ _ _ Hread). reflexivity. }
  split; [|split; [|repeat split; assumption]].
  - unfold at_end. rewrite Write_writing, MemoryStream_Write_at_end. reflexivity.
  - unfold Write. unfold bind at 1, GetMode. cbn [cs_mode reader_at].
    fold (reader_at pre (le_bytes n v ++ post) stack).
    unfold ReadWrite. unfold bind at 1. unfold bind at 1.
    rewrite ReadWrite_raw_reader by (rewrite !length_le_bytes; reflexivity).
    reflexivity.
Qed.

(** X3: [ReadWriteAs] stores a value in the size of its saved type.  A
    writer appends the low [n] bytes of the value and keeps the value; a
    reader takes [n] bytes and returns the number they hold, cut to the
    [m] bytes of the type in memory; so a value that fits [n] bytes, with
    [n <= m], comes back as it was written. *)
Theorem X3_ReadWriteAs
    (m n : nat) (v v0 : Z) (d pre post : list byte) (stack : list ArrayState) :
  ReadWriteAs m n v (at_end d stack) = Ok (v, at_end (d ++ le_bytes n v) stack)
  /\ ReadWriteAs m n v0 (reader_at pre (le_bytes n v ++ post) stack)
     = Ok ((v mod 256 ^ Z.of_nat n) mod 256 ^ Z.of_nat m,
           reader_at (pre ++ le_bytes n v) post stack)
  /\ ((n <= m)%nat -> 0 <= v < 256 ^ Z.of_nat n ->
      ReadWriteAs m n v0 (reader_at pre (le_bytes n v ++ post) stack)
      = Ok (v, reader_at (pre ++ le_bytes n v) post stack)).
Proof.
  assert (Hread : ReadWriteAs m n v0 (reader_at pre (le_bytes n v ++ post) stack)
                  = Ok ((v mod 256 ^ Z.of_nat n) mod 256 ^ Z.of_nat m,
                        reader_at (pre ++ le_bytes n v) post stack)).
  { unfold ReadWriteAs. unfold bind at 1, GetMode. cbn [cs_mode reader_at].
    fold (reader_at pre (le_bytes n v ++ post) stack).
    unfold bind at 1.
    rewrite ReadWrite_raw_reader by (rewrite !length_le_bytes; reflexivity).
    cbv zeta. rewrite le_value_le_bytes. reflexivity. }
  split; [|split; [exact Hread|]].
  - unfold ReadWriteAs. unfold bind at 1, GetMode. cbn [cs_mode at_end].
    fold (at_end d stack). unfold bind at 1.
    rewrite ReadWrite_raw_writer, le_bytes_wrap. reflexivity.
  - intros Hnm Hv. rewrite Hread. do 2 f_equal.
    rewrite (Z.mod_small v) by exact Hv. apply Z.mod_small.
    assert (256 ^ Z.of_nat n <= 256 ^ Z.of_nat m)
      by (apply Z.pow_le_mono_r; lia).
    lia.
Qed.

Lemma X3_ReadWriteAs_witness :
  ReadWriteAs 4 1 300 (at_end [] []) = Ok (300, at_end [x2c] [])
  /\ ReadWriteAs 4 1 0 (reader_at [] [x2c] []) = Ok (44, reader_at [x2c] [] [])
  /\ ReadWriteAs 4 1 0 (reader_at [] (le_bytes 1 200 ++ []) [])
     = Ok (200, reader_at ([] ++ le_bytes 1 200) [] []).
Proof.
  split; [vm_compute; reflexivity|]. split; [vm_compute; reflexivity|].
  apply (X3_ReadWriteAs 4 1 200 0 [] [] [] []); [lia | lia].
Defined.

(** ** Frames without elements *)

(** X4: a frame without elements is eight zero bytes, whatever the element
    codec.  A writer at the end of the buffer emits them for an empty vector
    or array; a reader at a frame whose count is zero returns the empty
    vector, or the array with every slot value-initialised, whatever the
    frame's element size, and stops after the frame's header. *)
Theorem X4_empty_frame {A : Type}
    (dflt : A) (f : A -> M A) (g : A -> M (bool * A)) (v0 : list A)
    (elementSize : Z) (d pre post : list byte) (stack : list ArrayState) :
  let header := le_bytes 4 0 ++ le_bytes 4 elementSize in
  (Z.of_nat (length d) + 8 < uint64_max ->
   ReadWriteVector dflt f [] (at_end d stack)
   = Ok ([], at_end (d ++ le_bytes 4 0 ++ le_bytes 4 0) stack)
   /\ ReadWriteArray dflt g [] (at_end d stack)
      = Ok ([], at_end (d ++ le_bytes 4 0 ++ le_bytes 4 0) stack))
  /\ ReadWriteVector dflt f v0 (reader_at pre (header ++ post) stack)
     = Ok ([], reader_at (pre ++ header) post stack)
  /\ ReadWriteArray dflt g v0 (reader_at pre (header ++ post) stack)
     = Ok (replicate (length v0) dflt, reader_at (pre ++ header) post stack).
Proof.
  intros header. split; [|split].
  - intros Hmax.
    pose proof (EndArray_at_end d [] 0 0 stack Hmax (fun _ => eq_refl)) as Hend.
    rewrite !app_nil_r in Hend. change (to_uint32 0) with 0 in Hend.
    split.
    + unfold ReadWriteVector. unfold bind at 1, GetMode. cbn [cs_mode at_end].
      fold (at_end d stack). unfold bind at 1. rewrite BeginArray_writing.
      cbn [ReadWriteVector_write]. unfold bind at 1, ret at 1.
      unfold bind at 1. rewrite Hend. reflexivity.
    + unfold ReadWriteArray. unfold bind at 1, GetMode. cbn [cs_mode at_end].
      fold (at_end d stack). unfold bind at 1. rewrite BeginArray_writing.
      cbn [ReadWriteArray_write]. unfold bind at 1, ret at 1.
      unfold bind at 1. rewrite Hend. reflexivity.
  - unfold ReadWriteVector. unfold bind at 1, GetMode. cbn [cs_mode reader_at].
    fold (reader_at pre (header ++ post) stack).
    unfold bind at 1. unfold header at 1. rewrite BeginArray_reading.
    change (Z.to_nat (to_uint32 0)) with 0%nat. cbn [ReadWriteVector_read].
    unfold bind at 1, ret at 1. unfold bind at 1. rewrite EndArray_reading.
    reflexivity.
  - unfold ReadWriteArray. unfold bind at 1, GetMode. cbn [cs_mode reader_at].
    fold (reader_at pre (header ++ post) stack).
    unfold bind at 1. unfold header at 1. rewrite BeginArray_reading.
    change (Z.to_nat (to_uint32 0)) with 0%nat. cbn [ReadWriteArray_read].
    unfold bind at 1, ret at 1. unfold bind at 1. rewrite EndArray_reading.
    rewrite (const_fmap (fun _ => dflt) v0 dflt) by reflexivity. reflexivity.
Qed.

Lemma X4_empty_frame_witness :
  (ReadWriteVector 0 (ReadWrite 2) [] (at_end [x2a] [])
   = Ok ([], at_end ([x2a] ++ le_bytes 4 0 ++ le_bytes 4 0) [])
   /\ ReadWriteArray 0 (fun el => el' <- ReadWrite 2 el ;; ret (true, el')) []
        (at_end [x2a] [])
      = Ok ([], at_end ([x2a] ++ le_bytes 4 0 ++ le_bytes 4 0) []))
  /\ ReadWriteVector 0 (ReadWrite 2) [7]
       (reader_at [] ((le_bytes 4 0 ++ le_bytes 4 2) ++ [x2a]) [])
     = Ok ([], reader_at ([] ++ le_bytes 4 0 ++ le_bytes 4 2) [x2a] []).
Proof.
  pose proof (X4_empty_frame 0 (ReadWrite 2)
                (fun el => el' <- ReadWrite 2 el ;; ret (true, el')) [7] 2
                [x2a] [] [x2a] []) as (Hwrite & Hvector & _).
  split; [apply Hwrite; concrete | exact Hvector].
Defined.

(** ** The count a writer stores *)





(** ** Reading a frame of fixed stride *)

(** In a frame of fixed stride the reader's cursor is set from the frame,
    wherever the element codec left it. *)
Lemma NextArrayElement_reading_realigns (d : list byte) (q : nat)
    (start last count elementSize : Z) (stack : list ArrayState) :
  count <> 0 ->
  elementSize <> 0 ->
  0 <= last + elementSize <= Z.of_nat (length d) ->
  NextArrayElement
    (mkChunkStream (MemoryStream.Build d q) READING
       (mkArrayState start last count elementSize :: stack))
  = Ok (count - 1 =? 0,
        mkChunkStream (MemoryStream.Build d (Z.to_nat (last + elementSize))) READING
          (mkArrayState start (last + elementSize) (count - 1) elementSize :: stack)).
Proof.
  intros Hcount Hsize Hrange. unfold NextArrayElement, top. unfold bind at 1.
  unfold bind at 1, GetMode.
  cbn [cs_arrayStack cs_mode Count ElementSize StartPos LastPos].
  rewrite (proj2 (Z.eqb_neq count 0) Hcount), (proj2 (Z.eqb_neq elementSize 0) Hsize).
  cbn [negb]. unfold bind at 1. unfold bind at 1.
  rewrite SetPosition_in_range by exact Hrange.
  unfold ret at 1. unfold bind, set_top, ret. cbn [cs_arrayStack cs_buffer cs_mode].
  reflexivity.
Qed.

Lemma ReadWriteVector_read_realigns {A : Type}
    (dflt : A) (f : A -> M A) (dec : list byte -> A) (k : Z) (bodies : list (list byte)) :
  0 < k ->
  Forall (fun body => Z.of_nat (length body) = k /\ decodes (f dflt) (dec body) body)
    bodies ->
  forall acc pre post stack start,
    ReadWriteVector_read dflt f (length bodies) acc
      (reader_at pre (concat bodies ++ post)
         (mkArrayState start (Z.of_nat (length pre)) (Z.of_nat (length bodies)) k
          :: stack))
    = Ok (acc ++ (dec <$> bodies),
          reader_at (pre ++ concat bodies) post
            (mkArrayState start (Z.of_nat (length (pre ++ concat bodies))) 0 k :: stack)).
Proof.
  intros Hk. induction 1 as [|body bodies [Hlen Hdec] _ IH];
    intros acc pre post stack start.
  - cbn [length ReadWriteVector_read fmap list_fmap concat app].
    unfold ret. rewrite !app_nil_r. reflexivity.
  - cbn [length ReadWriteVector_read fmap list_fmap concat].
    rewrite <- (app_assoc body).
    destruct (Hdec pre (concat bodies ++ post)
                (mkArrayState start (Z.of_nat (length pre))
                   (Z.of_nat (S (length bodies))) k :: stack))
      as (q & Hrun).
    rewrite (bind_Ok _ _ _ _ _ Hrun).
    unfold bind at 1.
    rewrite NextArrayElement_reading_realigns
      by (rewrite ?length_app; lia).
    replace (Z.of_nat (S (length bodies)) - 1) with (Z.of_nat (length bodies)) by lia.
    replace (Z.to_nat (Z.of_nat (length pre) + k)) with (length (pre ++ body))
      by (rewrite length_app; lia).
    replace (Z.of_nat (length pre) + k) with (Z.of_nat (length (pre ++ body)))
      by (rewrite length_app; lia).
    rewrite (app_assoc pre body).
    fold (reader_at (pre ++ body) (concat bodies ++ post)
            (mkArrayState start (Z.of_nat (length (pre ++ body)))
               (Z.of_nat (length bodies)) k :: stack)).
    rewrite IH, <- !app_assoc. reflexivity.
Qed.

Lemma decodes_ReadWrite_prefix (j : nat) (v0 : Z) (body : list byte) :
  (j <= length body)%nat ->
  decodes (ReadWrite j v0) (le_value (take j body)) body.
Proof.
  intros Hj pre post stack. exists (length pre + j)%nat.
  rewrite <- (take_drop j body) at 1. rewrite <- (app_assoc (take j body)).
  unfold ReadWrite. unfold bind at 1.
  rewrite ReadWrite_raw_reader by (rewrite length_le_bytes, length_take; lia).
  unfold ret, reader_at.
  rewrite <- !app_assoc, (app_assoc (take j body)), take_drop.
  rewrite length_app, length_take. state_eq.
Qed.

(** X6: in a frame of fixed stride the reader finds every element at its
    place, whatever the element codec consumed.  When each element takes
    [k > 0] bytes and the frame's element size is [k], a codec that, started
    at an element, returns what it decodes from it and leaves the cursor
    anywhere, yields the decoded elements in order, and the cursor ends at
    the end of the frame. *)
Theorem X6_fixed_stride_realigns {A : Type}
    (dflt : A) (f : A -> M A) (dec : list byte -> A) (k : Z)
    (bodies : list (list byte)) (v0 : list A) :
  0 < k < uint32_max ->
  Z.of_nat (length bodies) < uint32_max ->
  Forall (fun body => Z.of_nat (length body) = k /\ decodes (f dflt) (dec body) body)
    bodies ->
  reads (ReadWriteVector dflt f v0) (dec <$> bodies)
    ((le_bytes 4 (Z.of_nat (length bodies)) ++ le_bytes 4 k) ++ concat bodies).
Proof.
  intros Hk Hlen Hbodies pre post stack.
  rewrite <- (app_assoc _ (concat bodies) post).
  unfold ReadWriteVector. unfold bind at 1, GetMode. cbn [cs_mode reader_at].
  fold (reader_at pre
          ((le_bytes 4 (Z.of_nat (length bodies)) ++ le_bytes 4 k)
           ++ concat bodies ++ post) stack).
  unfold bind at 1. rewrite BeginArray_reading.
  rewrite (to_uint32_small (Z.of_nat (length bodies))), (to_uint32_small k) by lia.
  rewrite Nat2Z.id.
  rewrite (bind_Ok _ _ _ _ _
             (ReadWriteVector_read_realigns dflt f dec k bodies ltac:(lia) Hbodies
                [] _ post stack 0)).
  unfold bind at 1. rewrite EndArray_reading. unfold ret. cbn [app].
  rewrite <- !app_assoc. reflexivity.
Qed.

Lemma X6_fixed_stride_realigns_witness :
  reads (ReadWriteVector 0 (ReadWrite 2) [])
    ((fun body => le_value (take 2 body))
       <$> [[x01; x00; xaa; xbb]; [x02; x00; xcc; xdd]])
    ((le_bytes 4 2 ++ le_bytes 4 4)
     ++ concat [[x01; x00; xaa; xbb]; [x02; x00; xcc; xdd]]).
Proof.
  apply (X6_fixed_stride_realigns 0 (ReadWrite 2)
           (fun body => le_value (take 2 body)) 4
           [[x01; x00; xaa; xbb]; [x02; x00; xcc; xdd]] []).
  - unfold uint32_max. lia.
  - unfold uint32_max. simpl. lia.
  - repeat constructor; apply (decodes_ReadWrite_prefix 2 0); simpl; lia.
Defined.

(** ** Reading an array of another capacity *)

Section ReaderCapacity.

Context {A : Type}.
Variable enc : A -> list byte.
Variable dflt : A.

(** The first rounds of the reader's loop, while there are both elements
    in the frame and slots in the array. *)
Lemma ReadWriteArray_read_prefix (f : A -> M A) (els : list A) :
  Forall (fun el => reads (f dflt) el (enc el)) els ->
  forall (m : nat) acc tail pre post stack start last count elementSize,
    stride_fits enc elementSize last pre els ->
    Z.of_nat (length els) <= count ->
    exists last',
      ReadWriteArray_read (fun el => el' <- f el ;; ret (true, el'))
        (length els + m) (length acc) (acc ++ replicate (length els) dflt ++ tail)
        (reader_at pre (concat (enc <$> els) ++ post)
           (mkArrayState start last count elementSize :: stack))
      = ReadWriteArray_read (fun el => el' <- f el ;; ret (true, el'))
          m (length (acc ++ els)) (acc ++ els ++ tail)
          (reader_at (pre ++ concat (enc <$> els)) post
             (mkArrayState start last' (count - Z.of_nat (length els)) elementSize
              :: stack))
      /\ (elementSize = 0
          \/ last' = Z.of_nat (length (pre ++ concat (enc <$> els)))).
Proof.
  induction 1 as [|el els Hel _ IH];
    intros m acc tail pre post stack start last count elementSize Hfits Hcount.
  - exists last. cbn [length fmap list_fmap concat app replicate Nat.add].
    rewrite !app_nil_r, Z.sub_0_r. split; [reflexivity|].
    destruct Hfits as [Hzero|[Hlast _]]; [left; exact Hzero | right; exact Hlast].
  - cbn [length fmap list_fmap concat replicate Nat.add] in *.
    rewrite ReadWriteArray_read_unfold.
    rewrite <- (app_assoc (enc el)).
    cbn [app]. rewrite list_lookup_middle by reflexivity.
    unfold bind at 1. unfold bind at 1. unfold bind at 1.
    rewrite (Hel pre _ _). unfold ret at 1. unfold ret at 1. cbn [snd].
    rewrite insert_app_r_alt by lia. rewrite Nat.sub_diag. cbn [insert list_insert].
    assert (Hnext : exists last1,
               NextArrayElement
                 (reader_at (pre ++ enc el) (concat (enc <$> els) ++ post)
                    (mkArrayState start last count elementSize :: stack))
               = Ok (count - 1 =? 0,
                     reader_at (pre ++ enc el) (concat (enc <$> els) ++ post)
                       (mkArrayState start last1 (count - 1) elementSize :: stack))
               /\ stride_fits enc elementSize last1 (pre ++ enc el) els).
    { destruct (decide (elementSize = 0)) as [->|Hsize].
      - exists last. split; [|left; reflexivity].
        apply NextArrayElement_reading_variable. lia.
      - destruct Hfits as [Hzero|[-> Hall]]; [contradiction|].
        exists (Z.of_nat (length (pre ++ enc el))). split.
        + apply NextArrayElement_reading_fixed; [lia | exact Hsize|].
          exact (Forall_inv Hall).
        + right. split; [reflexivity | exact (Forall_inv_tail Hall)]. }
    destruct Hnext as (last1 & Hnext & Hfits1).
    rewrite (bind_Ok _ _ _ _ _ Hnext).
    destruct (IH m (acc ++ [el]) tail (pre ++ enc el) post stack start last1
                (count - 1) elementSize Hfits1 ltac:(lia))
      as (last' & Hloop & Hlast).
    exists last'.
    rewrite length_app, Nat.add_1_r in Hloop.
    rewrite <- !(app_assoc acc [el]) in Hloop. cbn [app] in Hloop.
    rewrite Hloop, <- !app_assoc.
    replace (count - 1 - Z.of_nat (length els))
      with (count - Z.of_nat (S (length els))) by lia.
    split; [reflexivity|].
    rewrite <- !app_assoc in Hlast. exact Hlast.
Qed.

Lemma length_concat_fixed (k : Z) (els : list A) :
  Forall (fun el => Z.of_nat (length (enc el)) = k) els ->
  Z.of_nat (length (concat (enc <$> els))) = Z.of_nat (length els) * k.
Proof.
  induction 1 as [|el els Hel _ IH]; cbn [fmap list_fmap concat length]; [lia|].
  rewrite length_app. lia.
Qed.

End ReaderCapacity.

Section ReaderCapacityFrames.

Context {A : Type}.
Variable enc : A -> list byte.
Variable dflt : A.

(** An array with room to spare: the slots past the frame's elements stay
    value-initialised. *)
Lemma reads_ReadWriteArray_grow (f : A -> M A) (els v0 : list A) :
  Forall (fun el => reads (f dflt) el (enc el)) els ->
  Z.of_nat (length els) < uint32_max ->
  Forall (fun el => Z.of_nat (length (enc el)) < uint32_max) els ->
  (length els <= length v0)%nat ->
  reads (ReadWriteArray dflt (fun el => el' <- f el ;; ret (true, el')) v0)
    (els ++ replicate (length v0 - length els) dflt)
    (frame_bytes (enc <$> els)).
Proof.
  intros Hf Hlen Hsmall Hle pre post stack.
  unfold frame_bytes. rewrite length_fmap.
  rewrite (app_assoc (le_bytes 4 _)), <- (app_assoc _ (concat _) post).
  unfold ReadWriteArray. unfold bind at 1, GetMode. cbn [cs_mode reader_at].
  fold (reader_at pre
          ((le_bytes 4 (to_uint32 (Z.of_nat (length els)))
            ++ le_bytes 4
                 (to_uint32
                    (stride_from 0 0
                       ((fun b => Z.of_nat (length b)) <$> (enc <$> els)))))
           ++ concat (enc <$> els) ++ post) stack).
  unfold bind at 1. rewrite BeginArray_reading.
  rewrite !to_uint32_idem, (to_uint32_small (Z.of_nat (length els))) by lia.
  rewrite Nat2Z.id.
  rewrite (const_fmap (fun _ => dflt) v0 dflt) by reflexivity.
  replace (length v0) with (length els + (length v0 - length els))%nat at 1 by lia.
  rewrite replicate_add.
  destruct (ReadWriteArray_read_prefix enc dflt f els Hf 0 []
              (replicate (length v0 - length els) dflt)
              (pre ++ le_bytes 4 (to_uint32 (Z.of_nat (length els)))
               ++ le_bytes 4
                    (to_uint32
                       (stride_from 0 0
                          ((fun b => Z.of_nat (length b)) <$> (enc <$> els)))))
              post stack 0 _ (Z.of_nat (length els)) _
              (stored_stride_fits _ _ els Hsmall) ltac:(lia))
    as (last' & Hloop & _).
  rewrite (to_uint32_small (Z.of_nat (length els))) in Hloop by lia.
  rewrite Nat.add_0_r in Hloop. cbn [length app] in Hloop.
  unfold bind at 1. rewrite Hloop. cbn [ReadWriteArray_read].
  unfold ret at 1. unfold bind at 1. rewrite EndArray_reading. unfold ret.
  rewrite <- !app_assoc. reflexivity.
Qed.

(** An array too short for a frame of fixed stride: it takes the first
    elements, and the cursor still ends at the end of the frame. *)
Lemma reads_ReadWriteArray_shrink (f : A -> M A) (els1 els2 v0 : list A) (k : Z) :
  Forall (fun el => reads (f dflt) el (enc el)) els1 ->
  length v0 = length els1 ->
  Z.of_nat (length (els1 ++ els2)) < uint32_max ->
  0 < k < uint32_max ->
  Forall (fun el => Z.of_nat (length (enc el)) = k) (els1 ++ els2) ->
  els2 <> [] ->
  reads (ReadWriteArray dflt (fun el => el' <- f el ;; ret (true, el')) v0) els1
    (frame_bytes (enc <$> (els1 ++ els2))).
Proof.
  intros Hf Hshape Hlen Hk Hall Hne pre post stack.
  unfold frame_bytes. rewrite length_fmap.
  rewrite <- list_fmap_compose.
  rewrite (stride_same ((fun b => Z.of_nat (length b)) ∘ enc) k (els1 ++ els2))
    by (try exact Hall; destruct els1, els2; cbn; congruence).
  rewrite (to_uint32_small k), (to_uint32_small (Z.of_nat (length (els1 ++ els2))))
    by lia.
  rewrite (app_assoc (le_bytes 4 _)), <- (app_assoc _ (concat _) post).
  unfold ReadWriteArray. unfold bind at 1, GetMode. cbn [cs_mode reader_at].
  fold (reader_at pre
          ((le_bytes 4 (Z.of_nat (length (els1 ++ els2))) ++ le_bytes 4 k)
           ++ concat (enc <$> els1 ++ els2) ++ post) stack).
  unfold bind at 1. rewrite BeginArray_reading.
  rewrite (to_uint32_small k), (to_uint32_small (Z.of_nat (length (els1 ++ els2))))
    by lia.
  rewrite Nat2Z.id.
  rewrite (const_fmap (fun _ => dflt) v0 dflt) by reflexivity. rewrite Hshape.
  apply Forall_app in Hall as [Hall1 Hall2].
  rewrite fmap_app, concat_app, <- (app_assoc (concat (enc <$> els1))).
  set (pre' := pre ++ le_bytes 4 (Z.of_nat (length (els1 ++ els2))) ++ le_bytes 4 k).
  destruct (ReadWriteArray_read_prefix enc dflt f els1 Hf (length els2) [] []
              pre' (concat (enc <$> els2) ++ post) stack 0
              (Z.of_nat (length pre')) (Z.of_nat (length (els1 ++ els2))) k
              ltac:(right; split; [reflexivity | exact Hall1])
              ltac:(rewrite length_app; lia))
    as (last' & Hloop & Hlast).
  destruct Hlast as [Hzero|Hlast]; [lia|]. subst last'.
  rewrite !app_nil_r in Hloop. cbn [length app] in Hloop.
  rewrite <- length_app in Hloop.
  unfold bind at 1. rewrite Hloop. unfold reader_at at 1.
  pose proof (length_concat_fixed enc k els2 Hall2) as Hbody.
  rewrite (ReadWriteArray_read_excess_fixed _ (length els2) (length els1) els1 _
             (length (pre' ++ concat (enc <$> els1))));
    [| lia | rewrite length_app; lia | lia | reflexivity
     | rewrite !length_app; lia ].
  replace (Z.to_nat (Z.of_nat (length (pre' ++ concat (enc <$> els1)))
                     + Z.of_nat (length els2) * k))
    with (length ((pre' ++ concat (enc <$> els1)) ++ concat (enc <$> els2)))
    by (rewrite (length_app _ (concat (enc <$> els2))); lia).
  rewrite (app_assoc _ (concat (enc <$> els2)) post).
  fold (reader_at ((pre' ++ concat (enc <$> els1)) ++ concat (enc <$> els2)) post
          (mkArrayState 0
             (Z.of_nat (length (pre' ++ concat (enc <$> els1)))
              + Z.of_nat (length els2) * k)
             (Z.of_nat (length (els1 ++ els2)) - Z.of_nat (length els1)
              - Z.of_nat (length els2)) k :: stack)).
  unfold bind at 1. rewrite EndArray_reading. unfold ret. unfold pre'.
  rewrite <- !app_assoc. reflexivity.
Qed.

End ReaderCapacityFrames.

(** X7: [ReadWriteArray] reads a frame into an array of another capacity.
    With room to spare the array takes every element of the frame and its
    other slots are value-initialised; too short for a frame of fixed
    stride, it takes the first elements and the rest of the frame is
    stepped over.  Either way the cursor ends at the end of the frame. *)
Theorem X7_array_of_other_capacity {A : Type}
    (enc : A -> list byte) (dflt : A) (f : A -> M A) (els v0 : list A) :
  Forall (fun el => reads (f dflt) el (enc el)) els ->
  Z.of_nat (length els) < uint32_max ->
  Forall (fun el => Z.of_nat (length (enc el)) < uint32_max) els ->
  ((length els <= length v0)%nat
   \/ exists k, 0 < k /\ Forall (fun el => Z.of_nat (length (enc el)) = k) els) ->
  reads (ReadWriteArray dflt (fun el => el' <- f el ;; ret (true, el')) v0)
    (take (length v0) els ++ replicate (length v0 - length els) dflt)
    (frame_bytes (enc <$> els)).
Proof.
  intros Hf Hlen Hsmall Hcase.
  destruct (decide (length els <= length v0)%nat) as [Hle|Hgt].
  - rewrite take_ge by lia. apply reads_ReadWriteArray_grow; assumption.
  - destruct Hcase as [Hle|(k & Hk & Hall)]; [lia|].
    replace (length v0 - length els)%nat with 0%nat by lia.
    cbn [replicate]. rewrite app_nil_r.
    assert (Hk32 : k < uint32_max).
    { destruct els as [|el els]; [simpl in Hgt; lia|].
      pose proof (Forall_inv Hall) as H1. pose proof (Forall_inv Hsmall) as H2.
      cbn beta in H1, H2. lia. }
    pose proof (reads_ReadWriteArray_shrink enc dflt f
                  (take (length v0) els) (drop (length v0) els) v0 k) as Hshrink.
    rewrite take_drop in Hshrink. apply Hshrink.
    + apply Forall_take, Hf.
    + rewrite length_take. lia.
    + exact Hlen.
    + lia.
    + exact Hall.
    + intros Hnil. apply (f_equal length) in Hnil.
      rewrite length_drop in Hnil. simpl in Hnil. lia.
Qed.

Lemma X7_array_of_other_capacity_witness :
  reads (ReadWriteArray 0 (fun el => el' <- ReadWrite 2 el ;; ret (true, el')) [0; 0])
    (take 2 [1; 2; 3] ++ replicate (2 - 3) 0)
    (frame_bytes (le_bytes 2 <$> [1; 2; 3]))
  /\ reads (ReadWriteArray [] (fun el => el' <- ReadWrite_string el ;; ret (true, el'))
              [[]; []; []])
       (take 3 [[x61; x62]] ++ replicate (3 - 1) [])
       (frame_bytes ((fun s => take (find_nul s) s ++ [x00]) <$> [[x61; x62]])).
Proof.
  split.
  - apply (X7_array_of_other_capacity (le_bytes 2) 0 (ReadWrite 2) [1; 2; 3] [0; 0]).
    + repeat constructor; apply reads_ReadWrite; lia.
    + concrete.
    + repeat constructor; concrete.
    + right. exists 2. split; [lia|]. repeat constructor.
  - apply (X7_array_of_other_capacity (fun s => take (find_nul s) s ++ [x00]) []
             ReadWrite_string [[x61; x62]] [[]; []; []]).
    + repeat constructor. apply reads_ReadWrite_string.
      repeat constructor; discriminate.
    + concrete.
    + repeat constructor; concrete.
    + left. simpl. lia.
Defined.

(** ** A reader changes no byte *)

Create HintDb reader.

Lemma read_only_ret {A} (a : A) : read_only (ret a).
Proof. intros cs a' cs' Hmode H. inversion H. subst. split; [exact Hmode | reflexivity]. Qed.

Lemma read_only_throw {A} (e : error) : read_only (@throw ChunkStream A e).
Proof. intros cs a cs' _ H. discriminate. Qed.

Lemma read_only_bind {A B} (m : M A) (k : A -> M B) :
  read_only m -> (forall a, read_only (k a)) -> read_only (bind m k).
Proof.
  intros Hm Hk cs b cs' Hmode H. inv_bind H.
  destruct (Hm _ _ _ Hmode Hstep) as [Hmode1 Hdata1].
  destruct (Hk _ _ _ _ Hmode1 H) as [Hmode2 Hdata2].
  split; [exact Hmode2 | congruence].
Qed.

(** What a reader does after asking for the mode is its READING branch. *)
Lemma read_only_GetMode_bind {B} (k : Mode -> M B) :
  read_only (k READING) -> read_only (bind GetMode k).
Proof.
  intros Hk cs b cs' Hmode H. unfold bind, GetMode in H. rewrite Hmode in H.
  exact (Hk _ _ _ Hmode H).
Qed.

Lemma read_only_GetMode : read_only GetMode.
Proof. intros cs a cs' Hmode H. inversion H. subst. split; [exact Hmode | reflexivity]. Qed.

Lemma read_only_GetPosition : read_only GetPosition.
Proof. intros cs a cs' Hmode H. inversion H. subst. split; [exact Hmode | reflexivity]. Qed.

Lemma read_only_SetPosition (p : Z) : read_only (SetPosition p).
Proof.
  intros cs a cs' Hmode H. unfold SetPosition, MemoryStream.SetPosition in H.
  case_bool_decide; [|discriminate]. inversion H. subst.
  split; [exact Hmode | reflexivity].
Qed.

Lemma read_only_ReadBuffer (n : nat) : read_only (ReadBuffer n).
Proof.
  intros cs a cs' Hmode H. unfold ReadBuffer, MemoryStream.Read in H.
  case_bool_decide; [|discriminate]. inversion H. subst.
  split; [exact Hmode | reflexivity].
Qed.

Lemma read_only_top : read_only top.
Proof.
  intros cs a cs' Hmode H. unfold top in H.
  destruct (cs_arrayStack cs); [discriminate|]. inversion H. subst.
  split; [exact Hmode | reflexivity].
Qed.

Lemma read_only_set_top (st : ArrayState) : read_only (set_top st).
Proof.
  intros cs a cs' Hmode H. unfold set_top in H.
  destruct (cs_arrayStack cs); [discriminate|]. inversion H. subst.
  split; [exact Hmode | reflexivity].
Qed.

Lemma read_only_emplace : read_only emplace.
Proof. intros cs a cs' Hmode H. inversion H. subst. split; [exact Hmode | reflexivity]. Qed.

Lemma read_only_pop : read_only pop.
Proof.
  intros cs a cs' Hmode H. unfold pop in H.
  destruct (cs_arrayStack cs); [discriminate|]. inversion H. subst.
  split; [exact Hmode | reflexivity].
Qed.

#[local] Hint Resolve read_only_ret read_only_throw read_only_GetMode
  read_only_GetPosition read_only_SetPosition read_only_ReadBuffer read_only_top
  read_only_set_top read_only_emplace read_only_pop : reader.

(** Goes through a sequence of steps as a reader takes them. *)
Ltac reader_steps :=
  repeat first
    [ apply read_only_GetMode_bind; cbv beta iota
    | apply read_only_bind; [|intros ?]
    | match goal with
      | |- read_only (match ?x with _ => _ end) => destruct x
      | |- read_only (if ?b then _ else _) => destruct b
      end ];
  auto with reader.

Lemma read_only_ReadWrite_raw (bs : list byte) : read_only (ReadWrite_raw bs).
Proof. unfold ReadWrite_raw. reader_steps. Qed.
#[local] Hint Resolve read_only_ReadWrite_raw : reader.

Lemma read_only_ReadWrite (n : nat) (v : Z) : read_only (ReadWrite n v).
Proof. unfold ReadWrite. reader_steps. Qed.
#[local] Hint Resolve read_only_ReadWrite : reader.

Lemma read_only_Read (n : nat) : read_only (Read n).
Proof. unfold Read. reader_steps. Qed.

Lemma read_only_Write (n : nat) (v : Z) : read_only (Write n v).
Proof. unfold Write. reader_steps. Qed.
#[local] Hint Resolve read_only_Read read_only_Write : reader.

Lemma read_only_ReadWriteAs (m n : nat) (v : Z) : read_only (ReadWriteAs m n v).
Proof. unfold ReadWriteAs. reader_steps. Qed.

Lemma read_only_ReadString_loop (fuel : nat) (buffer : list byte) :
  read_only (ReadString_loop fuel buffer).
Proof.
  revert buffer. induction fuel as [|fuel IH]; intros buffer;
    rewrite ReadString_loop_unfold; reader_steps.
Qed.

Lemma read_only_ReadString : read_only ReadString.
Proof. intros cs a cs' Hmode H. exact (read_only_ReadString_loop _ _ _ _ _ Hmode H). Qed.
#[local] Hint Resolve read_only_ReadString : reader.

Lemma read_only_ReadWrite_string (v : list byte) : read_only (ReadWrite_string v).
Proof. unfold ReadWrite_string. reader_steps. Qed.
#[local] Hint Resolve read_only_ReadWrite_string : reader.

Lemma read_only_Write_string (v : list byte) : read_only (Write_string v).
Proof. unfold Write_string. reader_steps. Qed.

Lemma read_only_BeginArray : read_only BeginArray.
Proof. unfold BeginArray. reader_steps. Qed.

Lemma read_only_NextArrayElement : read_only NextArrayElement.
Proof. unfold NextArrayElement. reader_steps. Qed.

Lemma read_only_EndArray : read_only EndArray.
Proof. unfold EndArray. reader_steps. Qed.
#[local] Hint Resolve read_only_BeginArray read_only_NextArrayElement
  read_only_EndArray : reader.

Section ReaderArrays.

Context {A : Type}.
Variable dflt : A.

Lemma read_only_ReadWriteVector (f : A -> M A) (vec : list A) :
  (forall el, read_only (f el)) -> read_only (ReadWriteVector dflt f vec).
Proof.
  intros Hf. unfold ReadWriteVector.
  apply read_only_GetMode_bind. cbv beta iota.
  apply read_only_bind; [apply read_only_BeginArray | intros count].
  apply read_only_bind; [|intros vec'; reader_steps].
  generalize (@nil A) as acc.
  induction (Z.to_nat count) as [|n IH]; intros acc; cbn [ReadWriteVector_read].
  - apply read_only_ret.
  - apply read_only_bind; [apply Hf | intros el].
    apply read_only_bind; [apply read_only_NextArrayElement | intros _; apply IH].
Qed.

Lemma read_only_ReadWriteArray (f : A -> M (bool * A)) (arr : list A) :
  (forall el, read_only (f el)) -> read_only (ReadWriteArray dflt f arr).
Proof.
  intros Hf. unfold ReadWriteArray.
  apply read_only_GetMode_bind. cbv beta iota.
  apply read_only_bind; [apply read_only_BeginArray | intros count].
  apply read_only_bind; [|intros arr'; reader_steps].
  generalize ((fun _ : A => dflt) <$> arr) as acc. generalize 0%nat as i.
  induction (Z.to_nat count) as [|n IH]; intros i acc; cbn [ReadWriteArray_read].
  - apply read_only_ret.
  - apply read_only_bind.
    + destruct (acc !! i) as [el|]; [|apply read_only_ret].
      apply read_only_bind; [apply Hf | intros r; apply read_only_ret].
    + intros acc'.
      apply read_only_bind; [apply read_only_NextArrayElement | intros _; apply IH].
Qed.

End ReaderArrays.

Lemma read_only_rw (t : ty) : forall v : val t, read_only (rw t v).
Proof.
  induction t as [n| |t IH|n t IH| |a IHa b IHb]; intros v; cbn [rw].
  - apply read_only_ReadWrite.
  - apply read_only_ReadWrite_string.
  - apply read_only_ReadWriteVector, IH.
  - apply read_only_ReadWriteArray. intros el.
    apply read_only_bind; [apply IH | intros el'; apply read_only_ret].
  - apply read_only_ret.
  - apply read_only_bind; [apply IHa | intros x].
    apply read_only_bind; [apply IHb | intros y; apply read_only_ret].
Qed.

Lemma MemoryStream_SetPosition_data (p : Z) (m m' : MemoryStream.t) :
  MemoryStream.SetPosition p m = Ok m' ->
  m' = MemoryStream.Build (MemoryStream.data m) (Z.to_nat p)
  /\ 0 <= p <= MemoryStream.GetLength m.
Proof.
  unfold MemoryStream.SetPosition. case_bool_decide as Hp; [|discriminate].
  intros H. inversion H. split; [reflexivity | exact Hp].
Qed.

(** X8: a reader changes no byte of the buffer and stays a reader.  This
    holds for [Write], for [ReadWriteAs], for every codec built from scalars,
    strings, vectors and arrays, for [ReadWriteVector] and [ReadWriteArray]
    over any element codec of which it holds, and so for [ReadWriteChunk]
    in READING mode, which also leaves header, directory and stream alone. *)
Theorem X8_reader_changes_no_byte :
  (forall (t : ty) (v0 : val t), read_only (rw t v0))
  /\ (forall n v, read_only (Write n v))
  /\ (forall s, read_only (Write_string s))
  /\ (forall m n v, read_only (ReadWriteAs m n v))
  /\ (forall (A : Type) (dflt : A) (f : A -> M A) (vec : list A),
        (forall el, read_only (f el)) -> read_only (ReadWriteVector dflt f vec))
  /\ (forall (A : Type) (dflt : A) (f : A -> M (bool * A)) (arr : list A),
        (forall el, read_only (f el)) -> read_only (ReadWriteArray dflt f arr))
  /\ (forall (U : Type) (f : U -> M U) (chunkId : Z) (u u' : U) (b : bool)
             (r r' : OrcaStream),
        _mode r = READING ->
        read_only (f u) ->
        ReadWriteChunk chunkId f u r = Ok ((b, u'), r') ->
        _mode r' = READING
        /\ _header r' = _header r
        /\ _chunks r' = _chunks r
        /\ _stream r' = _stream r
        /\ MemoryStream.data (_buffer r') = MemoryStream.data (_buffer r)).
Proof.
  split; [exact read_only_rw|]. split; [exact read_only_Write|].
  split; [exact read_only_Write_string|]. split; [exact read_only_ReadWriteAs|].
  split; [intros A dflt f vec; apply read_only_ReadWriteVector|].
  split; [intros A dflt f arr; apply read_only_ReadWriteArray|].
  intros U f chunkId u u' b r r' Hmode Hf H.
  unfold ReadWriteChunk in H. rewrite Hmode in H.
  unfold bind, SeekChunk in H.
  destruct (List.find _ (_chunks r)) as [e|].
  - destruct (MemoryStream.SetPosition (Offset e) (_buffer r)) as [buf|] eqn:Hseek;
      [|discriminate].
    apply MemoryStream_SetPosition_data in Hseek as [-> _].
    unfold run_codec, ret in H. cbn [_buffer _mode _stream _header _chunks] in H.
    rewrite Hmode in H.
    destruct (f u _) as [[u1 stream]|] eqn:Hrun; [|discriminate].
    inversion H. subst. cbn [_buffer _mode _stream _header _chunks].
    apply Hf in Hrun as [_ Hdata]; [|reflexivity].
    repeat split. exact Hdata.
  - unfold ret in H. inversion H. subst. repeat split. exact Hmode.
Qed.

Lemma X8_reader_changes_no_byte_witness :
  let r := mkOrcaStream (IStream.Build [] 0) READING Header_init
             [mkChunkEntry 7 1 3] (MemoryStream.Build [x2a; x02; x61; x00] 0)
             ChunkEntry_init in
  let r' := mkOrcaStream (IStream.Build [] 0) READING Header_init
              [mkChunkEntry 7 1 3] (MemoryStream.Build [x2a; x02; x61; x00] 4)
              ChunkEntry_init in
  _mode r' = READING
  /\ _header r' = _header r
  /\ _chunks r' = _chunks r
  /\ _stream r' = _stream r
  /\ MemoryStream.data (_buffer r') = MemoryStream.data (_buffer r).
Proof.
  intros r r'.
  destruct X8_reader_changes_no_byte as (Hrw & _ & _ & _ & _ & _ & Hchunk).
  apply (Hchunk (val (TPair (TScalar 1) TString)) (rw (TPair (TScalar 1) TString))
           7 (0, []) (2, [x61]) true r r').
  - reflexivity.
  - apply Hrw.
  - vm_compute. reflexivity.
Defined.

Lemma ReadWriteArray_read_length {A} (f : A -> M (bool * A)) (n : nat) :
  forall (i : nat) (arr arr' : list A) (cs cs' : ChunkStream),
    ReadWriteArray_read f n i arr cs = Ok (arr', cs') -> length arr' = length arr.
Proof.
  induction n as [|n IH]; intros i arr arr' cs cs' H; cbn [ReadWriteArray_read] in H.
  - inversion H. reflexivity.
  - inv_bind H. inv_bind H. apply IH in H. rewrite H.
    destruct (arr !! i) as [el|].
    + inv_bind Hstep. inversion Hstep. apply length_insert.
    + inversion Hstep. reflexivity.
Qed.

(** What a reader decodes does not depend on what the object held, only
    on the length of its fixed-size arrays, which decoding keeps. *)
Lemma rw_reading_same_shape (t : ty) :
  forall (v0 v1 : val t) (cs : ChunkStream),
    cs_mode cs = READING -> same_shape t v0 v1 -> rw t v0 cs = rw t v1 cs.
Proof.
  induction t as [n| |t IH|n t IH| |a IHa b IHb]; intros v0 v1 cs Hmode Hshape;
    cbn [rw same_shape] in *.
  - unfold ReadWrite, ReadWrite_raw, bind, GetMode. rewrite Hmode.
    rewrite !length_le_bytes. reflexivity.
  - unfold ReadWrite_string, bind, GetMode. rewrite Hmode. reflexivity.
  - unfold ReadWriteVector. rewrite !GetMode_bind, Hmode. reflexivity.
  - unfold ReadWriteArray. rewrite !GetMode_bind, Hmode.
    assert (Hreset : forall v : list (val t),
               (fun _ : val t => val_default t) <$> v
               = replicate (length v) (val_default t))
      by (intros v; apply const_fmap; reflexivity).
    change (@length (val t) v0 = @length (val t) v1) in Hshape.
    rewrite (Hreset v0), (Hreset v1), Hshape. reflexivity.
  - destruct v0, v1. reflexivity.
  - destruct Hshape as [Ha Hb].
    change (bind (rw a v0.1) (fun x => y <- rw b v0.2 ;; ret (x, y)) cs
            = bind (rw a v1.1) (fun x => y <- rw b v1.2 ;; ret (x, y)) cs).
    unfold bind. rewrite (IHa v0.1 v1.1 cs Hmode Ha).
    destruct (rw a v1.1 cs) as [[x cs1]|e] eqn:Hrun; [|reflexivity].
    destruct (read_only_rw a _ _ _ _ Hmode Hrun) as [Hmode1 _].
    rewrite (IHb v0.2 v1.2 cs1 Hmode1 Hb). reflexivity.
Qed.

Lemma rw_reading_keeps_shape (t : ty) :
  forall (v0 v : val t) (cs cs' : ChunkStream),
    cs_mode cs = READING -> rw t v0 cs = Ok (v, cs') -> same_shape t v0 v.
Proof.
  induction t as [n| |t IH|n t IH| |a IHa b IHb]; intros v0 v cs cs' Hmode H;
    cbn [rw same_shape] in *; try exact I.
  - unfold ReadWriteArray in H. rewrite GetMode_bind, Hmode in H.
    inv_bind H. inv_bind H. inv_bind H. inversion H. subst.
    apply ReadWriteArray_read_length in Hstep0. rewrite length_fmap in Hstep0.
    change (@length (val t) v0 = @length (val t) v). symmetry. exact Hstep0.
  - inv_bind H. inv_bind H. inversion H. subst. cbn [fst snd].
    destruct (read_only_rw a _ _ _ _ Hmode Hstep) as [Hmode1 _].
    split; [exact (IHa _ _ _ _ Hmode Hstep) | exact (IHb _ _ _ _ Hmode1 Hstep0)].
Qed.

Lemma ReadWriteChunk_read_again {U : Type}
    (f : U -> M U) (chunkId : Z) (u u' : U) (b : bool) (r r' : OrcaStream) :
  _mode r = READING ->
  read_only (f u) ->
  (b = true -> forall cs, cs_mode cs = READING -> f u' cs = f u cs) ->
  ReadWriteChunk chunkId f u r = Ok ((b, u'), r') ->
  ReadWriteChunk chunkId f u' r' = Ok ((b, u'), r').
Proof.
  intros Hmode Hf Hsame H.
  unfold ReadWriteChunk in H. rewrite Hmode in H.
  unfold bind, SeekChunk in H.
  destruct (List.find _ (_chunks r)) as [e|] eqn:Hfind.
  - destruct (MemoryStream.SetPosition (Offset e) (_buffer r)) as [buf|] eqn:Hseek;
      [|discriminate].
    apply MemoryStream_SetPosition_data in Hseek as [-> Hrange].
    unfold run_codec, ret in H. cbn [_buffer _mode _stream _header _chunks] in H.
    rewrite Hmode in H.
    destruct (f u _) as [[u1 stream]|] eqn:Hrun; [|discriminate].
    inversion H. subst. clear H.
    pose proof Hrun as Hdata. apply Hf in Hdata as [_ Hdata]; [|reflexivity].
    cbn [cs_buffer MemoryStream.data] in Hdata.
    unfold ReadWriteChunk, bind, SeekChunk.
    cbn [_buffer _mode _stream _header _chunks _currentChunk]. rewrite Hfind.
    unfold MemoryStream.SetPosition, MemoryStream.GetLength in *.
    rewrite Hdata. rewrite bool_decide_eq_true_2 by exact Hrange.
    unfold run_codec, ret. cbn [_buffer _mode _stream _header _chunks _currentChunk].
    rewrite (Hsame eq_refl) by reflexivity. rewrite Hrun. reflexivity.
  - unfold ret in H. inversion H. subst.
    unfold ReadWriteChunk, bind, SeekChunk. rewrite Hmode, Hfind. reflexivity.
Qed.

(** X9: reading a chunk again gives the same.  After [ReadWriteChunk] has
    returned in READING mode, the same call on the object it left, with the
    captures as the first call left them, returns the same answer and the
    same values and leaves the object as it is: for every codec that changes
    no byte and decodes the same whatever its captures hold, and for every
    codec built from scalars, strings, vectors and arrays. *)
Theorem X9_chunk_read_again :
  (forall (U : Type) (f : U -> M U) (chunkId : Z) (u u' : U) (b : bool)
          (r r' : OrcaStream),
     _mode r = READING ->
     read_only (f u) ->
     (forall cs, cs_mode cs = READING -> f u' cs = f u cs) ->
     ReadWriteChunk chunkId f u r = Ok ((b, u'), r') ->
     ReadWriteChunk chunkId f u' r' = Ok ((b, u'), r'))
  /\ (forall (t : ty) (chunkId : Z) (u u' : val t) (b : bool) (r r' : OrcaStream),
        _mode r = READING ->
        ReadWriteChunk chunkId (rw t) u r = Ok ((b, u'), r') ->
        ReadWriteChunk chunkId (rw t) u' r' = Ok ((b, u'), r')).
Proof.
  split.
  - intros U f chunkId u u' b r r' Hmode Hf Hsame H.
    apply (ReadWriteChunk_read_again f chunkId u u' b r r' Hmode Hf); [|exact H].
    intros _. exact Hsame.
  - intros t chunkId u u' b r r' Hmode H.
    apply (ReadWriteChunk_read_again (rw t) chunkId u u' b r r' Hmode
             (read_only_rw t u)); [|exact H].
    intros Hb cs Hcs. symmetry. apply rw_reading_same_shape; [exact Hcs|].
    subst b. unfold ReadWriteChunk in H. rewrite Hmode in H.
    unfold bind, SeekChunk in H.
    destruct (List.find _ (_chunks r)) as [e|]; [|discriminate].
    destruct (MemoryStream.SetPosition (Offset e) (_buffer r)) as [buf|];
      [|discriminate].
    unfold run_codec, ret in H. cbn [_buffer _mode _stream _header _chunks] in H.
    rewrite Hmode in H.
    destruct (rw t u _) as [[u1 stream]|] eqn:Hrun; [|discriminate].
    inversion H. subst.
    apply rw_reading_keeps_shape in Hrun; [exact Hrun | reflexivity].
Qed.

Lemma X9_chunk_read_again_witness :
  let t := TPair (TArray 2 (TScalar 1)) TString in
  let r := mkOrcaStream (IStream.Build [] 0) READING Header_init
             [mkChunkEntry 7 1 11]
             (MemoryStream.Build
                [x2a; x01; x00; x00; x00; x01; x00; x00; x00; x05; x61; x00] 0)
             ChunkEntry_init in
  let r' := mkOrcaStream (IStream.Build [] 0) READING Header_init
              [mkChunkEntry 7 1 11]
              (MemoryStream.Build
                 [x2a; x01; x00; x00; x00; x01; x00; x00; x00; x05; x61; x00] 12)
              ChunkEntry_init in
  ReadWriteChunk 7 (rw t) ([0; 0], []) r = Ok ((true, ([5; 0], [x61])), r')
  /\ ReadWriteChunk 7 (rw t) ([5; 0], [x61]) r' = Ok ((true, ([5; 0], [x61])), r').
Proof.
  intros t r r'.
  assert (Hfirst : ReadWriteChunk 7 (rw t) ([0; 0], []) r
                   = Ok ((true, ([5; 0], [x61])), r')) by (vm_compute; reflexivity).
  split; [exact Hfirst|].
  exact (proj2 X9_chunk_read_again t 7 ([0; 0], []) ([5; 0], [x61]) true r r'
           eq_refl Hfirst).
Defined.

(** ** The directory of a writer *)

Lemma tiles_app (chunks : list ChunkEntry) (offset total : Z) (chunkId len : Z) :
  tiles offset chunks total ->
  0 <= len ->
  tiles offset (chunks ++ [mkChunkEntry chunkId total len]) (total + len).
Proof.
  revert offset. induction chunks as [|e chunks IH]; intros offset Htiles Hlen.
  - cbn in *. subst. repeat split; lia.
  - destruct Htiles as (Hoff & Hpos & Hrest). cbn [app tiles].
    repeat split; [exact Hoff | exact Hpos | exact (IH _ Hrest Hlen)].
Qed.

Lemma tiles_bounds (chunks : list ChunkEntry) (offset total : Z) :
  tiles offset chunks total ->
  0 <= offset ->
  offset <= total
  /\ Forall (fun e => offset <= Offset e /\ 0 <= Length e /\ Offset e + Length e <= total)
       chunks.
Proof.
  revert offset. induction chunks as [|e chunks IH]; intros offset Htiles Hoffset.
  - cbn in Htiles. split; [lia | constructor].
  - destruct Htiles as (Hoff & Hpos & Hrest).
    destruct (IH _ Hrest ltac:(lia)) as [Hle Hall].
    split; [lia|]. constructor; [lia|].
    eapply Forall_impl; [exact Hall|]. cbn beta. intros x Hx. lia.
Qed.

(** X10: a writer's directory lies over its buffer without gap or overlap.
    A new writer is contiguous; [ReadWriteChunk] keeps a writer contiguous
    when its codec leaves the cursor at the end of a buffer that has not
    shrunk, as the codecs built from the primitives do; and in a contiguous
    writer every entry starts where the one before ends, the first at zero
    and the last ending at the end of the buffer, so each lies inside it. *)
Theorem X10_directory_tiles_buffer :
  (forall inflate stream w,
     OrcaStream_new inflate stream WRITING = Ok w -> contiguous w)
  /\ (forall (U : Type) (f : U -> M U) (chunkId : Z) (u u' : U) (w : OrcaStream)
             (cs' : ChunkStream),
        contiguous w ->
        f u (mkChunkStream (_buffer w) WRITING []) = Ok (u', cs') ->
        MemoryStream.position (cs_buffer cs')
        = length (MemoryStream.data (cs_buffer cs')) ->
        (length (MemoryStream.data (_buffer w))
         <= length (MemoryStream.data (cs_buffer cs')))%nat ->
        Z.of_nat (length (MemoryStream.data (cs_buffer cs'))) < uint64_max ->
        exists w1,
          ReadWriteChunk chunkId f u w = Ok ((true, u'), w1) /\ contiguous w1)
  /\ (forall (t : ty) (v : val t) (chunkId : Z) (w : OrcaStream),
        contiguous w ->
        wf_val t v ->
        Z.of_nat (length (MemoryStream.data (_buffer w) ++ encode t v)) < uint64_max ->
        exists w1,
          ReadWriteChunk chunkId (rw t) v w = Ok ((true, v), w1) /\ contiguous w1)
  /\ (forall w,
        contiguous w ->
        tiles 0 (_chunks w) (MemoryStream.GetLength (_buffer w))
        /\ Forall (fun e => 0 <= Offset e /\ 0 <= Length e
                            /\ Offset e + Length e <= MemoryStream.GetLength (_buffer w))
             (_chunks w)).
Proof.
  split; [|split; [|split]].
  - intros inflate stream w Hnew. cbn in Hnew. inversion Hnew. subst.
    unfold contiguous, uint64_max. cbn. repeat split; lia.
  - intros U f chunkId u u' w cs' (Hmode & Hpos & Hmax & Htiles) Hrun Hpos' Hgrow Hmax'.
    eexists. split; [apply (ReadWriteChunk_writing_returns _ _ _ _ _ _ Hmode Hrun)|].
    unfold contiguous, MemoryStream.GetPosition.
    cbn [_mode _buffer _chunks]. rewrite Hpos, Hpos'.
    rewrite to_size_t_small by lia.
    split; [reflexivity|]. split; [reflexivity|]. split; [exact Hmax'|].
    replace (Z.of_nat (length (MemoryStream.data (cs_buffer cs'))))
      with (Z.of_nat (length (MemoryStream.data (_buffer w)))
            + (Z.of_nat (length (MemoryStream.data (cs_buffer cs')))
               - Z.of_nat (length (MemoryStream.data (_buffer w))))) at 2 by lia.
    apply tiles_app; [exact Htiles | lia].
  - intros t v chunkId w (Hmode & Hpos & Hmax & Htiles) Hwf Hmax'.
    eexists. split; [apply ReadWriteChunk_writes; assumption|].
    unfold contiguous. cbn [_mode _buffer _chunks MemoryStream.data MemoryStream.position].
    split; [reflexivity|]. split; [reflexivity|]. split; [exact Hmax'|].
    rewrite length_app, Nat2Z.inj_add. apply tiles_app; [exact Htiles | lia].
  - intros w (Hmode & Hpos & Hmax & Htiles). unfold MemoryStream.GetLength.
    split; [exact Htiles|].
    destruct (tiles_bounds _ _ _ Htiles ltac:(lia)) as [_ Hall]. exact Hall.
Qed.

Lemma X10_directory_tiles_buffer_witness :
  exists w w1 w2,
    OrcaStream_new (fun _ => None) (IStream.Build [] 0) WRITING = Ok w
    /\ ReadWriteChunk 1 (rw (TVector (TScalar 2))) [1; 2] w = Ok ((true, [1; 2]), w1)
    /\ ReadWriteChunk 2 (rw TString) [x61] w1 = Ok ((true, [x61]), w2)
    /\ _chunks w2 = [mkChunkEntry 1 0 12; mkChunkEntry 2 12 2]
    /\ Forall (fun e => 0 <= Offset e /\ 0 <= Length e
                        /\ Offset e + Length e <= MemoryStream.GetLength (_buffer w2))
         (_chunks w2).
Proof.
  destruct X10_directory_tiles_buffer as (Hnew & _ & Hrw & Hbounds).
  pose proof (Hnew (fun _ => None) (IStream.Build [] 0) _ eq_refl) as Hw.
  destruct (Hrw (TVector (TScalar 2)) [1; 2] 1 _ Hw) as (w1 & Hrun1 & Hw1).
  { cbn. unfold uint32_max. repeat split; repeat constructor; lia. }
  { vm_compute. reflexivity. }
  pose proof Hrun1 as Heq1. vm_compute in Heq1. apply Ok_inj in Heq1.
  injection Heq1 as Heq1.
  destruct (Hrw TString [x61] 2 w1 Hw1) as (w2 & Hrun2 & Hw2).
  { cbn. repeat constructor. discriminate. }
  { subst w1. vm_compute. reflexivity. }
  pose proof Hrun2 as Heq2. rewrite <- Heq1 in Heq2. vm_compute in Heq2.
  apply Ok_inj in Heq2. injection Heq2 as Heq2.
  eexists _, w1, w2. split; [reflexivity|]. split; [exact Hrun1|].
  split; [exact Hrun2|]. split; [subst w2; reflexivity|].
  exact (proj2 (Hbounds w2 Hw2)).
Defined.

(** ** What the constructor takes from the stream *)

Lemma IStream_Read_short (s : IStream.t) (bs : list byte) (n : nat) :
  ahead s bs -> (length bs < n)%nat -> IStream.Read n s = Err Truncated.
Proof.
  destruct s as [d p]. unfold ahead, IStream.Read.
  cbn [IStream.position IStream.data]. intros [Hp Hdrop] Hshort.
  rewrite <- Hdrop, length_drop in Hshort.
  rewrite bool_decide_eq_false_2 by lia. reflexivity.
Qed.

Lemma IStream_Read_take (s : IStream.t) (bs : list byte) (n : nat) :
  ahead s bs ->
  (n <= length bs)%nat ->
  exists s', IStream.Read n s = Ok (take n bs, s') /\ ahead s' (drop n bs).
Proof.
  intros Hahead Hn. rewrite <- (take_drop n bs) in Hahead.
  destruct (IStream_Read_ahead s _ _ Hahead) as [Hread Hahead'].
  rewrite length_take, Nat.min_l in Hread, Hahead' by exact Hn.
  eexists. split; [exact Hread | exact Hahead'].
Qed.

Lemma read_blocks_fuel (size : Z) :
  0 <= size -> size <= 2048 * (Z.of_nat (Z.to_nat (size / 2048)) + 1).
Proof.
  intros Hsize.
  pose proof (Z.div_mod size 2048 ltac:(lia)) as Hdiv.
  pose proof (Z.mod_pos_bound size 2048 ltac:(lia)) as Hmod.
  assert (0 <= size / 2048) by (apply Z.div_pos; lia).
  lia.
Qed.

Lemma read_blocks_short (fuel : nat) :
  forall (size : Z) (buffer : MemoryStream.t) (s : IStream.t) (bs : list byte),
    ahead s bs ->
    Z.of_nat (length bs) < size ->
    size <= 2048 * (Z.of_nat fuel + 1) ->
    read_blocks fuel size buffer s = Err Truncated.
Proof.
  induction fuel as [|fuel IH]; intros size buffer s bs Hahead Hshort Hfuel;
    rewrite read_blocks_unfold; cbv zeta.
  - rewrite Z.min_l by lia. unfold bind.
    rewrite (IStream_Read_short s bs) by (exact Hahead || lia). reflexivity.
  - destruct (Z.le_gt_cases size 2048) as [Hle|Hgt].
    + rewrite Z.min_l by lia. unfold bind.
      rewrite (IStream_Read_short s bs) by (exact Hahead || lia). reflexivity.
    + rewrite Z.min_r by lia. change (Z.to_nat 2048) with 2048%nat.
      destruct (decide (length bs < 2048)%nat) as [Hlt|Hge].
      * unfold bind. rewrite (IStream_Read_short s bs) by assumption. reflexivity.
      * destruct (IStream_Read_take s bs 2048 Hahead ltac:(lia))
          as (s1 & Hread & Hahead1).
        unfold bind at 1. rewrite Hread.
        rewrite (proj2 (Z.gtb_lt _ _)) by lia.
        apply (IH _ _ s1 (drop 2048 bs) Hahead1); [rewrite length_drop; lia | lia].
Qed.

(** X11: the [do ... while] loop of the constructor takes exactly
    [CompressedSize] bytes from the stream, in their order, also when that
    is zero or no multiple of the block size; the bytes after them stay
    ahead in the stream.  When the stream has fewer bytes, the loop ends
    with Truncated. *)
Theorem X11_read_blocks_exact (size : Z) (bytes : list byte) (s : IStream.t) :
  0 <= size ->
  ahead s bytes ->
  let blocks := read_blocks (Z.to_nat (size / 2048)) size MemoryStream.empty in
  if decide (size <= Z.of_nat (length bytes))
  then exists s',
         blocks s
         = Ok (MemoryStream.Build (take (Z.to_nat size) bytes) (Z.to_nat size), s')
         /\ ahead s' (drop (Z.to_nat size) bytes)
  else blocks s = Err Truncated.
Proof.
  intros Hsize Hahead blocks. unfold blocks.
  pose proof (read_blocks_fuel size Hsize) as Hfuel.
  destruct (decide _) as [Hle|Hgt].
  - rewrite <- (take_drop (Z.to_nat size) bytes) in Hahead.
    assert (Hlen : Z.of_nat (length (take (Z.to_nat size) bytes)) = size)
      by (rewrite length_take; lia).
    destruct (read_blocks_spec (Z.to_nat (size / 2048)) _ _ [] s Hahead
                ltac:(rewrite Hlen; exact Hfuel))
      as (s' & Hrun & Hahead').
    rewrite Hlen in Hrun. cbn [app length] in Hrun.
    exists s'. unfold MemoryStream.empty. rewrite Hrun.
    split; [|exact Hahead']. do 3 f_equal. lia.
  - apply (read_blocks_short _ _ _ s bytes Hahead); [lia | exact Hfuel].
Qed.

Lemma X11_read_blocks_exact_witness :
  (exists s',
     read_blocks (Z.to_nat (3 / 2048)) 3 MemoryStream.empty
       (IStream.Build [x01; x02; x03; x04; x05] 1)
     = Ok (MemoryStream.Build [x02; x03; x04] 3, s')
     /\ ahead s' [x05])
  /\ read_blocks (Z.to_nat (9 / 2048)) 9 MemoryStream.empty
       (IStream.Build [x01; x02; x03; x04; x05] 1)
     = Err Truncated.
Proof.
  assert (Hahead : ahead (IStream.Build [x01; x02; x03; x04; x05] 1)
                     [x02; x03; x04; x05])
    by (split; [simpl; lia | reflexivity]).
  split.
  - pose proof (X11_read_blocks_exact 3 _ _ ltac:(lia) Hahead) as H.
    cbv zeta in H. destruct (decide _) as [_|Hgt] in H; [exact H|].
    exfalso. apply Hgt. simpl. lia.
  - pose proof (X11_read_blocks_exact 9 _ _ ltac:(lia) Hahead) as H.
    cbv zeta in H. destruct (decide _) as [Hle|_] in H; [|exact H].
    exfalso. simpl in Hle. lia.
Defined.

Lemma read_chunk_table_bytes (n : nat) :
  forall (acc : list ChunkEntry) (s : IStream.t) (bs : list byte),
    ahead s bs ->
    (20 * n <= length bs)%nat ->
    exists s',
      read_chunk_table n acc s
      = Ok (acc ++ chunk_table_of_bytes n (take (20 * n) bs), s')
      /\ ahead s' (drop (20 * n) bs).
Proof.
  induction n as [|n IH]; intros acc s bs Hahead Hlen.
  - exists s. cbn [read_chunk_table chunk_table_of_bytes]. unfold ret.
    rewrite app_nil_r, Nat.mul_0_r, drop_0. split; [reflexivity | exact Hahead].
  - cbn [read_chunk_table chunk_table_of_bytes].
    destruct (IStream_Read_take s bs 20 Hahead ltac:(lia)) as (s1 & Hread & Hahead1).
    unfold bind at 1. unfold ReadValue_ChunkEntry. unfold bind at 1.
    rewrite Hread. unfold ret at 1.
    destruct (IH (acc ++ [ChunkEntry_of_bytes (take 20 bs)]) s1 (drop 20 bs) Hahead1)
      as (s' & Hloop & Hahead'); [rewrite length_drop; lia|].
    exists s'. rewrite Hloop, <- app_assoc. cbn [app].
    rewrite take_take, Nat.min_l by lia.
    replace (20 * S n)%nat with (20 + 20 * n)%nat by lia.
    rewrite <- take_drop_commute, <- drop_drop in *.
    split; [reflexivity | exact Hahead'].
Qed.

Lemma read_chunk_table_short (n : nat) :
  forall (acc : list ChunkEntry) (s : IStream.t) (bs : list byte),
    ahead s bs ->
    (length bs < 20 * n)%nat ->
    read_chunk_table n acc s = Err Truncated.
Proof.
  induction n as [|n IH]; intros acc s bs Hahead Hlen; [lia|].
  cbn [read_chunk_table]. unfold bind at 1. unfold ReadValue_ChunkEntry.
  unfold bind at 1.
  destruct (decide (length bs < 20)%nat) as [Hlt|Hge].
  - rewrite (IStream_Read_short s bs) by assumption. reflexivity.
  - destruct (IStream_Read_take s bs 20 Hahead ltac:(lia)) as (s1 & Hread & Hahead1).
    rewrite Hread. unfold ret at 1.
    apply (IH _ s1 (drop 20 bs) Hahead1). rewrite length_drop. lia.
Qed.

Lemma field_nonneg (off len : nat) (bs : list byte) : 0 <= field off len bs.
Proof. unfold field. apply le_value_range. Qed.

(** X12: the reading constructor takes from the stream what the header
    says and nothing else.  With [h] the header that the first 64 bytes
    denote, it returns exactly when the stream holds 64 bytes, 20 bytes for
    each of [NumChunks] entries and [CompressedSize] bytes of payload; the
    directory is those entries in order; the buffer is the payload, taken
    raw for every value of [Compression] but gzip, and for gzip what inflate
    makes of it, or empty when inflate fails, which the constructor does
    not notice; the cursor is at the end of the buffer, and the bytes after
    the payload stay ahead in the stream.  On a shorter stream it throws
    Truncated. *)
Theorem X12_constructor_reads_what_header_says
    (util_zlib_inflate : list byte -> option (list byte))
    (s : IStream.t) (bytes : list byte) :
  ahead s bytes ->
  let h := Header_of_bytes (take 64 bytes) in
  let n := Z.to_nat (NumChunks h) in
  let size := Z.to_nat (CompressedSize h) in
  let chunks := chunk_table_of_bytes n (take (20 * n) (drop 64 bytes)) in
  let payload := take size (drop (64 + 20 * n) bytes) in
  let uncompressed :=
    if Compression h =? COMPRESSION_GZIP then
      match util_zlib_inflate payload with
      | Some d => d
      | None => []
      end
    else payload in
  if decide (64 + 20 * n + size <= length bytes)%nat
  then exists s',
         ahead s' (drop (64 + 20 * n + size) bytes)
         /\ OrcaStream_new util_zlib_inflate s READING
            = Ok (mkOrcaStream s' READING h chunks
                    (MemoryStream.Build uncompressed (length uncompressed))
                    ChunkEntry_init)
  else OrcaStream_new util_zlib_inflate s READING = Err Truncated.
Proof.
  intros Hahead h n size chunks payload uncompressed.
  assert (Hsize : Z.of_nat size = CompressedSize h).
  { unfold size. apply Z2Nat.id. unfold h, Header_of_bytes. cbn [CompressedSize].
    apply field_nonneg. }
  pose proof (read_blocks_fuel (CompressedSize h) ltac:(lia)) as Hfuel.
  destruct (decide _) as [Hle|Hgt].
  - destruct (IStream_Read_take s bytes 64 Hahead ltac:(lia))
      as (s1 & Hread & Hahead1).
    destruct (read_chunk_table_bytes n [] s1 _ Hahead1
                ltac:(rewrite length_drop; lia))
      as (s2 & Htable & Hahead2).
    cbn [app] in Htable. fold chunks in Htable. rewrite drop_drop in Hahead2.
    rewrite <- (take_drop size (drop (64 + 20 * n) bytes)) in Hahead2.
    fold payload in Hahead2.
    assert (Hlen : Z.of_nat (length payload) = CompressedSize h).
    { unfold payload. rewrite length_take, length_drop. lia. }
    destruct (read_blocks_spec (Z.to_nat (CompressedSize h / 2048)) _ _ [] s2 Hahead2
                ltac:(rewrite Hlen; exact Hfuel))
      as (s3 & Hblocks & Hahead3).
    rewrite Hlen in Hblocks. cbn [app length] in Hblocks.
    rewrite drop_drop in Hahead3.
    exists s3. split; [exact Hahead3|].
    unfold OrcaStream_new. unfold bind at 1. unfold ReadValue_Header.
    unfold bind at 1. rewrite Hread. unfold ret at 1. fold h.
    unfold read_payload. fold n. unfold bind at 1. unfold bind at 1.
    rewrite Htable. unfold bind at 1. unfold MemoryStream.empty. rewrite Hblocks.
    unfold uncompressed.
    destruct (Compression h =? COMPRESSION_GZIP); [|reflexivity].
    unfold MemoryStream.GetData, MemoryStream.Clear. cbn [MemoryStream.data].
    cbv zeta. unfold ret.
    change MemoryStream.empty with (MemoryStream.Build [] (length (@nil byte))).
    rewrite MemoryStream_Write_at_end. reflexivity.
  - unfold OrcaStream_new. unfold bind at 1. unfold ReadValue_Header.
    unfold bind at 1.
    destruct (decide (length bytes < 64)%nat) as [Hlt|Hge].
    { rewrite (IStream_Read_short s bytes) by assumption. reflexivity. }
    destruct (IStream_Read_take s bytes 64 Hahead ltac:(lia))
      as (s1 & Hread & Hahead1).
    rewrite Hread. unfold ret at 1. fold h. unfold read_payload. fold n.
    unfold bind at 1. unfold bind at 1.
    destruct (decide (length (drop 64 bytes) < 20 * n)%nat) as [Hlt|Hge1].
    { rewrite (read_chunk_table_short n [] s1 _ Hahead1 Hlt). reflexivity. }
    destruct (read_chunk_table_bytes n [] s1 _ Hahead1 ltac:(lia))
      as (s2 & Htable & Hahead2).
    rewrite Htable. rewrite drop_drop in Hahead2. rewrite length_drop in Hge1.
    unfold bind at 1.
    rewrite (read_blocks_short _ _ _ s2 _ Hahead2);
      [reflexivity | rewrite length_drop; lia | exact Hfuel].
Qed.

Lemma X12_constructor_reads_what_header_says_witness :
  let h := mkHeader 1 2 2 1 2 7 2 0 0 in
  let gz := mkHeader 1 2 2 1 2 COMPRESSION_GZIP 2 0 0 in
  let rest := ChunkEntry_bytes (mkChunkEntry 4096 0 2) ++ [x2a; x00] ++ [xff] in
  (exists s',
     ahead s' [xff]
     /\ OrcaStream_new (fun _ => None) (IStream.Build (Header_bytes h ++ rest) 0) READING
        = Ok (mkOrcaStream s' READING h [mkChunkEntry 4096 0 2]
                (MemoryStream.Build [x2a; x00] 2) ChunkEntry_init))
  /\ (exists s',
        ahead s' [xff]
        /\ OrcaStream_new (fun _ => None) (IStream.Build (Header_bytes gz ++ rest) 0)
             READING
           = Ok (mkOrcaStream s' READING gz [mkChunkEntry 4096 0 2]
                   (MemoryStream.Build [] 0) ChunkEntry_init))
  /\ OrcaStream_new (fun _ => None)
       (IStream.Build (take 85 (Header_bytes h ++ rest)) 0) READING
     = Err Truncated.
Proof.
  intros h gz rest. split; [|split].
  - pose proof (X12_constructor_reads_what_header_says (fun _ => None)
                  (IStream.Build (Header_bytes h ++ rest) 0) (Header_bytes h ++ rest)
                  ltac:(split; [simpl; lia | reflexivity])) as H.
    cbv zeta in H. destruct (decide _) as [_|Hgt] in H.
    + exact H.
    + exfalso. apply Hgt. vm_compute. lia.
  - pose proof (X12_constructor_reads_what_header_says (fun _ => None)
                  (IStream.Build (Header_bytes gz ++ rest) 0) (Header_bytes gz ++ rest)
                  ltac:(split; [simpl; lia | reflexivity])) as H.
    cbv zeta in H. destruct (decide _) as [_|Hgt] in H.
    + exact H.
    + exfalso. apply Hgt. vm_compute. lia.
  - pose proof (X12_constructor_reads_what_header_says (fun _ => None)
                  (IStream.Build (take 85 (Header_bytes h ++ rest)) 0)
                  (take 85 (Header_bytes h ++ rest))
                  ltac:(split; [simpl; lia | reflexivity])) as H.
    cbv zeta in H. destruct (decide _) as [Hle|_] in H.
    + exfalso. vm_compute in Hle. lia.
    + exact H.
Defined.

(** ** What the destructor leaves in the stream *)

Lemma length_chunk_table_bytes (chunks : list ChunkEntry) :
  length (chunk_table_bytes chunks) = (20 * length chunks)%nat.
Proof.
  unfold chunk_table_bytes.
  induction chunks as [|e chunks IH]; cbn [fmap list_fmap concat length]; [lia|].
  rewrite length_app, length_ChunkEntry_bytes.
  change (list_fmap ChunkEntry (list byte) ChunkEntry_bytes chunks)
    with (ChunkEntry_bytes <$> chunks).
  rewrite IH. lia.
Qed.

Lemma finalize_header_fields
    (util_zlib_deflate : list byte -> option (list byte)) (SHA1 : list byte -> Z)
    (s : OrcaStream) :
  let h' := (finalize_header util_zlib_deflate SHA1 s).1 in
  let payload :=
    match (finalize_header util_zlib_deflate SHA1 s).2 with
    | Some bytes => bytes
    | None => MemoryStream.GetData (_buffer s)
    end in
  Magic h' = Magic (_header s)
  /\ TargetVersion h' = TargetVersion (_header s)
  /\ MinVersion h' = MinVersion (_header s)
  /\ NumChunks h' = to_uint32 (Z.of_nat (length (_chunks s)))
  /\ UncompressedSize h' = MemoryStream.GetLength (_buffer s)
  /\ Sha1 h' = SHA1 (MemoryStream.GetData (_buffer s))
  /\ padding h' = padding (_header s)
  /\ CompressedSize h' = Z.of_nat (length payload).
Proof.
  unfold finalize_header. cbn [Compression].
  destruct (Compression (_header s) =? COMPRESSION_GZIP).
  - destruct (util_zlib_deflate _); cbn; repeat split; reflexivity.
  - cbn. repeat split; reflexivity.
Qed.

(** X13: a writer whose header the caller has set to another compression
    than gzip is finalized without deflate: whatever deflate would return,
    the destructor stores the buffer as it is after the header and the
    directory, and the header keeps the caller's [Compression] and gives the
    length of the buffer as [CompressedSize]. *)
Theorem X13_destructor_without_gzip
    (util_zlib_deflate util_zlib_deflate' : list byte -> option (list byte))
    (SHA1 : list byte -> Z) (w : OrcaStream) (h : Header) :
  OrcaStream_GetMode w = WRITING ->
  Compression h <> COMPRESSION_GZIP ->
  exists s',
    OrcaStream_delete util_zlib_deflate SHA1 (SetHeader h w) = Ok s'
    /\ OrcaStream_delete util_zlib_deflate' SHA1 (SetHeader h w) = Ok s'
    /\ Compression (GetHeader s') = Compression h
    /\ CompressedSize (GetHeader s') = MemoryStream.GetLength (_buffer w)
    /\ _stream s'
       = IStream.put
           (Header_bytes (GetHeader s') ++ chunk_table_bytes (_chunks w)
            ++ MemoryStream.GetData (_buffer w))
           (_stream w).
Proof.
  unfold OrcaStream_GetMode, GetHeader. intros Hmode Hnone.
  rewrite !(OrcaStream_delete_writing _ _ (SetHeader h w)) by exact Hmode.
  unfold finalize_header, SetHeader.
  cbn [_header _chunks _buffer _stream _currentChunk Compression].
  rewrite (proj2 (Z.eqb_neq _ _) Hnone).
  eexists. split; [reflexivity|]. split; [reflexivity|].
  cbn [_header _stream Compression CompressedSize]. repeat split; reflexivity.
Qed.

Lemma X13_destructor_without_gzip_witness :
  let w := mkOrcaStream (IStream.Build [] 0) WRITING
             (mkHeader 0 0 0 0 0 COMPRESSION_GZIP 0 0 0)
             [mkChunkEntry 4096 0 2] (MemoryStream.Build [x2a; x00] 2)
             (mkChunkEntry 4096 0 2) in
  let h := mkHeader 1 2 2 0 0 COMPRESSION_NONE 0 0 0 in
  exists s',
    OrcaStream_delete (fun d => Some (x78 :: d)) (fun _ => 7) (SetHeader h w) = Ok s'
    /\ OrcaStream_delete (fun _ => None) (fun _ => 7) (SetHeader h w) = Ok s'
    /\ Compression (GetHeader s') = COMPRESSION_NONE
    /\ CompressedSize (GetHeader s') = 2
    /\ _stream s'
       = IStream.put
           (Header_bytes (GetHeader s') ++ chunk_table_bytes [mkChunkEntry 4096 0 2]
            ++ [x2a; x00])
           (IStream.Build [] 0).
Proof.
  intros w h.
  apply (X13_destructor_without_gzip (fun d => Some (x78 :: d)) (fun _ => None)
           (fun _ => 7) w h); [reflexivity | discriminate].
Defined.

(** X14: the destructor of a reader writes nothing.  When the destructor
    of a writer returns, that is when none of its writes to the stream
    threw, it has left in the header the number of directory entries modulo
    [2^32], the length of the buffer and its SHA-1, kept the magic number
    and the versions the caller stored, and moved the stream by the 64 bytes
    of the header, 20 bytes for each entry and [CompressedSize] bytes of
    payload, with the directory and the buffer unchanged. *)
Theorem X14_destructor_fills_header
    (util_zlib_deflate : list byte -> option (list byte)) (SHA1 : list byte -> Z)
    (s s' : OrcaStream) :
  OrcaStream_delete util_zlib_deflate SHA1 s = Ok s' ->
  (_mode s = READING -> s' = s)
  /\ (_mode s = WRITING ->
      Magic (_header s') = Magic (_header s)
      /\ TargetVersion (_header s') = TargetVersion (_header s)
      /\ MinVersion (_header s') = MinVersion (_header s)
      /\ NumChunks (_header s') = to_uint32 (Z.of_nat (length (_chunks s)))
      /\ UncompressedSize (_header s') = MemoryStream.GetLength (_buffer s)
      /\ Sha1 (_header s') = SHA1 (MemoryStream.GetData (_buffer s))
      /\ Z.of_nat (IStream.position (_stream s'))
         = Z.of_nat (IStream.position (_stream s)) + 64
           + 20 * Z.of_nat (length (_chunks s)) + CompressedSize (_header s')
      /\ _chunks s' = _chunks s
      /\ _buffer s' = _buffer s).
Proof.
  intros Hdelete. split.
  - intros Hmode. unfold OrcaStream_delete in Hdelete. rewrite Hmode in Hdelete.
    inversion Hdelete. reflexivity.
  - intros Hmode. rewrite (OrcaStream_delete_writing _ _ _ Hmode) in Hdelete.
    pose proof (finalize_header_fields util_zlib_deflate SHA1 s) as Hfields.
    destruct (finalize_header util_zlib_deflate SHA1 s) as [h' compressedBytes].
    cbn [fst snd] in Hfields.
    destruct Hfields as (HMagic & HTarget & HMin & HNum & HSize & HSha & _ & HLen).
    apply Ok_inj in Hdelete. subst s'. cbn [_header _stream _chunks _buffer].
    repeat split; try assumption.
    unfold IStream.put. cbn [IStream.position].
    rewrite !length_app, length_Header_bytes, length_chunk_table_bytes, HLen. lia.
Qed.

Lemma X14_destructor_fills_header_witness :
  let s := mkOrcaStream (IStream.Build [xff] 1) WRITING
             (mkHeader 1 2 2 0 0 COMPRESSION_GZIP 0 0 0)
             [mkChunkEntry 4096 0 2] (MemoryStream.Build [x2a; x00] 2)
             (mkChunkEntry 4096 0 2) in
  exists s',
    OrcaStream_delete (fun d => Some (x78 :: d)) (fun _ => 7) s = Ok s'
    /\ Magic (_header s') = 1
    /\ TargetVersion (_header s') = 2
    /\ MinVersion (_header s') = 2
    /\ NumChunks (_header s') = to_uint32 1
    /\ UncompressedSize (_header s') = 2
    /\ Sha1 (_header s') = 7
    /\ Z.of_nat (IStream.position (_stream s')) = 1 + 64 + 20 * 1 + CompressedSize (_header s')
    /\ _chunks s' = [mkChunkEntry 4096 0 2]
    /\ _buffer s' = MemoryStream.Build [x2a; x00] 2.
Proof.
  intros s. eexists. split; [reflexivity|].
  exact (proj2 (X14_destructor_fills_header (fun d => Some (x78 :: d)) (fun _ => 7) s _
                  eq_refl) eq_refl).
Defined.

(** ** A file written and opened again *)

Lemma OrcaStream_new_reading_header
    (util_zlib_inflate : list byte -> option (list byte))
    (s : IStream.t) (h : Header) (rest : list byte) (r : OrcaStream) :
  ahead s (Header_bytes h ++ rest) ->
  OrcaStream_new util_zlib_inflate s READING = Ok r ->
  _header r = Header_of_bytes (Header_bytes h).
Proof.
  intros Hahead Hnew.
  destruct (ReadValue_Header_ahead s h rest Hahead) as (s1 & Hheader & _).
  unfold OrcaStream_new in Hnew. unfold bind at 1 in Hnew. rewrite Hheader in Hnew.
  unfold bind in Hnew.
  destruct (read_payload _ _ s1) as [[[chunks buffer] s2]|]; [|discriminate].
  unfold ret in Hnew. inversion Hnew. reflexivity.
Qed.

(** X15: a file closed by the destructor opens again.  For a writer that
    can be finalized, with the header the caller stored, the reading
    constructor put at the start of the written bytes returns a reader with
    the writer's directory and the bytes of its buffer, and a header that
    has the caller's magic number and versions, the number of chunks, the
    length of the buffer and the SHA-1 the destructor computed. *)
Theorem X15_file_opens_again
    (util_zlib_inflate util_zlib_deflate : list byte -> option (list byte))
    (SHA1 : list byte -> Z) (w : OrcaStream) (h : Header) :
  finalizable util_zlib_inflate util_zlib_deflate (SetHeader h w) ->
  0 <= Magic h < uint32_max ->
  0 <= TargetVersion h < uint32_max ->
  0 <= MinVersion h < uint32_max ->
  exists s' r,
    OrcaStream_delete util_zlib_deflate SHA1 (SetHeader h w) = Ok s'
    /\ OrcaStream_new util_zlib_inflate
         (IStream.Build (IStream.data (_stream s')) (IStream.position (_stream w)))
         READING
       = Ok r
    /\ OrcaStream_GetMode r = READING
    /\ _chunks r = _chunks w
    /\ _buffer r
       = MemoryStream.Build (MemoryStream.data (_buffer w))
           (length (MemoryStream.data (_buffer w)))
    /\ Magic (GetHeader r) = Magic h
    /\ TargetVersion (GetHeader r) = TargetVersion h
    /\ MinVersion (GetHeader r) = MinVersion h
    /\ NumChunks (GetHeader r) = Z.of_nat (length (_chunks w))
    /\ UncompressedSize (GetHeader r) = MemoryStream.GetLength (_buffer w)
    /\ Sha1 (GetHeader r) = wrap 20 (SHA1 (MemoryStream.GetData (_buffer w))).
Proof.
  intros Hfin HMagic HTarget HMin.
  destruct (finalize_then_construct _ _ SHA1 _ Hfin)
    as (s' & r & Hdelete & Hnew & Hmode & Hchunks & Hbuffer).
  destruct Hfin as (Hwriting & _ & Hnum & _ & Hsize & Hpos & _).
  exists s', r. split; [exact Hdelete|].
  cbn [SetHeader _stream _chunks _buffer] in *.
  split; [exact Hnew|]. split; [exact Hmode|]. split; [exact Hchunks|].
  split; [exact Hbuffer|].
  rewrite (OrcaStream_delete_writing _ _ _ Hwriting) in Hdelete.
  pose proof (finalize_header_fields util_zlib_deflate SHA1 (SetHeader h w)) as Hfields.
  destruct (finalize_header util_zlib_deflate SHA1 (SetHeader h w))
    as [h' compressedBytes].
  cbn [fst snd SetHeader _header _chunks _buffer] in Hfields.
  destruct Hfields as (HMagic' & HTarget' & HMin' & HNum' & HSize' & HSha' & _ & _).
  apply Ok_inj in Hdelete. subst s'.
  cbn [SetHeader _stream _chunks _buffer] in Hnew.
  pose proof (IStream_put_ahead
                (Header_bytes h' ++ chunk_table_bytes (_chunks w)
                 ++ match compressedBytes with
                    | Some bytes => bytes
                    | None => MemoryStream.GetData (_buffer w)
                    end)
                (_stream w) Hpos) as Hahead.
  rewrite <- app_assoc in Hahead.
  pose proof (OrcaStream_new_reading_header _ _ _ _ _ Hahead Hnew) as Hheader.
  unfold GetHeader. rewrite Hheader, Header_of_bytes_bytes.
  cbn [Magic TargetVersion MinVersion NumChunks UncompressedSize Sha1].
  rewrite HMagic', HTarget', HMin', HNum', HSize', HSha'.
  unfold MemoryStream.GetLength.
  rewrite (to_uint32_small (Z.of_nat (length (_chunks w)))) by lia.
  assert (Hwrap32 : forall z, 0 <= z < uint32_max -> wrap 4 z = z)
    by (intros z Hz; apply wrap_small; exact Hz).
  assert (Hwrap64 : forall z, 0 <= z < uint64_max -> wrap 8 z = z)
    by (intros z Hz; apply wrap_small; exact Hz).
  rewrite !Hwrap32, Hwrap64 by lia.
  repeat split; reflexivity.
Qed.

Lemma X15_file_opens_again_witness :
  let inflate := fun c : list byte =>
    match c with
    | _ :: d => Some d
    | [] => None
    end in
  let deflate := fun d : list byte => Some (x78 :: d) in
  let w := mkOrcaStream (IStream.Build [] 0) WRITING
             (mkHeader 0 0 0 0 0 COMPRESSION_GZIP 0 0 0)
             [mkChunkEntry 4096 0 2] (MemoryStream.Build [x2a; x00] 2)
             (mkChunkEntry 4096 0 2) in
  let h := mkHeader 1263681872 3 2 0 0 COMPRESSION_GZIP 0 0 0 in
  exists s' r,
    OrcaStream_delete deflate (fun _ => 7) (SetHeader h w) = Ok s'
    /\ OrcaStream_new inflate (IStream.Build (IStream.data (_stream s')) 0) READING
       = Ok r
    /\ OrcaStream_GetMode r = READING
    /\ _chunks r = [mkChunkEntry 4096 0 2]
    /\ _buffer r = MemoryStream.Build [x2a; x00] 2
    /\ Magic (GetHeader r) = 1263681872
    /\ TargetVersion (GetHeader r) = 3
    /\ MinVersion (GetHeader r) = 2
    /\ NumChunks (GetHeader r) = 1
    /\ UncompressedSize (GetHeader r) = 2
    /\ Sha1 (GetHeader r) = wrap 20 7.
Proof.
  intros inflate deflate w h.
  apply (X15_file_opens_again inflate deflate (fun _ => 7) w h).
  - unfold finalizable.
    cbn [SetHeader _mode _chunks _header _buffer _stream Compression
           MemoryStream.data IStream.position IStream.data].
    split; [reflexivity|]. split.
    { repeat constructor; cbn [Id Offset Length];
        unfold uint32_max, uint64_max; lia. }
    split; [vm_compute; reflexivity|].
    split; [vm_compute; split; [discriminate | reflexivity]|].
    split; [vm_compute; reflexivity|].
    split; [cbn; lia|].
    cbn [deflate]. split; [vm_compute; reflexivity | reflexivity].
  - vm_compute. split; [discriminate | reflexivity].
  - vm_compute. split; [discriminate | reflexivity].
  - vm_compute. split; [discriminate | reflexivity].
Defined.

(** ** How a reader fails *)

Create HintDb failures.

Lemma bind_Err_inv {S A B} (m : St S A) (k : A -> St S B) (s : S) (e : error) :
  bind m k s = Err e ->
  m s = Err e \/ exists a s1, m s = Ok (a, s1) /\ k a s1 = Err e.
Proof.
  unfold bind. destruct (m s) as [[a s1]|e']; intros H.
  - right. exists a, s1. split; [reflexivity | exact H].
  - left. inversion H. reflexivity.
Qed.

Lemma reader_fails_framed_of {A} (m : M A) : reader_fails m -> reader_fails_framed m.
Proof. intros H cs e Hmode _ Hrun. exact (H cs e Hmode Hrun). Qed.

Lemma reader_fails_ret {A} (a : A) : reader_fails (ret a).
Proof. intros cs e _ H. discriminate. Qed.

Lemma reader_fails_throw {A} (e : error) :
  reader_error e -> reader_fails (@throw ChunkStream A e).
Proof. intros He cs e' _ H. inversion H. subst. exact He. Qed.

Lemma reader_fails_bind {A B} (m : M A) (k : A -> M B) :
  reader_fails m -> read_only m -> (forall a, reader_fails (k a)) ->
  reader_fails (bind m k).
Proof.
  intros Hm Hro Hk cs e Hmode H.
  apply bind_Err_inv in H as [H|(a & cs1 & Hstep & H)].
  - exact (Hm _ _ Hmode H).
  - destruct (Hro _ _ _ Hmode Hstep) as [Hmode1 _]. exact (Hk a _ _ Hmode1 H).
Qed.

Lemma reader_fails_GetMode_bind {B} (k : Mode -> M B) :
  reader_fails (k READING) -> reader_fails (bind GetMode k).
Proof.
  intros Hk cs e Hmode H. unfold bind, GetMode in H. rewrite Hmode in H.
  exact (Hk _ _ Hmode H).
Qed.

Lemma reader_fails_GetMode : reader_fails GetMode.
Proof. intros cs e _ H. discriminate. Qed.

Lemma reader_fails_GetPosition : reader_fails GetPosition.
Proof. intros cs e _ H. discriminate. Qed.

Lemma reader_fails_SetPosition (p : Z) : reader_fails (SetPosition p).
Proof.
  intros cs e _ H. unfold SetPosition, MemoryStream.SetPosition in H.
  case_bool_decide; [discriminate|]. inversion H. right. reflexivity.
Qed.

Lemma reader_fails_ReadBuffer (n : nat) : reader_fails (ReadBuffer n).
Proof.
  intros cs e _ H. unfold ReadBuffer, MemoryStream.Read in H.
  case_bool_decide; [discriminate|]. inversion H. left. reflexivity.
Qed.

#[local] Hint Resolve reader_fails_ret reader_fails_GetMode reader_fails_GetPosition
  reader_fails_SetPosition reader_fails_ReadBuffer : failures.

(** Goes through a sequence of steps a reader takes outside a frame. *)
Ltac failure_steps :=
  repeat first
    [ apply reader_fails_GetMode_bind; cbv beta iota
    | apply reader_fails_bind; [| solve [reader_steps] | intros ?]
    | match goal with
      | |- reader_fails (match ?x with _ => _ end) => destruct x
      | |- reader_fails (if ?b then _ else _) => destruct b
      end ];
  auto with failures.

Lemma reader_fails_ReadWrite_raw (bs : list byte) : reader_fails (ReadWrite_raw bs).
Proof. unfold ReadWrite_raw. failure_steps. Qed.
#[local] Hint Resolve reader_fails_ReadWrite_raw : failures.

Lemma reader_fails_ReadWrite (n : nat) (v : Z) : reader_fails (ReadWrite n v).
Proof. unfold ReadWrite. failure_steps. Qed.
#[local] Hint Resolve reader_fails_ReadWrite : failures.

Lemma reader_fails_Read (n : nat) : reader_fails (Read n).
Proof. unfold Read. failure_steps. Qed.

Lemma reader_fails_Write (n : nat) (v : Z) : reader_fails (Write n v).
Proof. unfold Write. failure_steps. Qed.
#[local] Hint Resolve reader_fails_Read reader_fails_Write : failures.

Lemma reader_fails_ReadWriteAs (m n : nat) (v : Z) : reader_fails (ReadWriteAs m n v).
Proof. unfold ReadWriteAs. failure_steps. Qed.

Lemma ReadBuffer_errors (n : nat) (cs : ChunkStream) (e : error) :
  ReadBuffer n cs = Err e -> e = UnexpectedEndOfStream.
Proof.
  unfold ReadBuffer, MemoryStream.Read. case_bool_decide as Hlen; [discriminate|].
  intros Hrun. inversion Hrun. reflexivity.
Qed.

Lemma ReadString_loop_errors (fuel : nat) :
  forall (buffer : list byte) (cs : ChunkStream) (e : error),
    ReadString_loop fuel buffer cs = Err e ->
    e = UnexpectedEndOfStream \/ e = OutOfFuel.
Proof.
  induction fuel as [|fuel IH]; intros buffer cs e H;
    rewrite ReadString_loop_unfold in H; unfold bind in H;
    (destruct (ReadBuffer 1 cs) as [[bs cs1]|e'] eqn:Hread;
     [|inversion H; subst; left; exact (ReadBuffer_errors _ _ _ Hread)]);
    (destruct bs as [|c [|? ?]];
     [inversion H; left; reflexivity | | inversion H; left; reflexivity]);
    (destruct (is_nul c); [discriminate|]).
  - inversion H. right. reflexivity.
  - exact (IH _ _ _ H).
Qed.

Lemma reader_fails_ReadString : reader_fails ReadString.
Proof.
  intros cs e _ H. pose proof (ReadString_fuel_enough cs) as Hfuel.
  unfold ReadString in H.
  destruct (ReadString_loop_errors _ _ _ _ H) as [->| ->].
  - left. reflexivity.
  - exfalso. apply Hfuel. exact H.
Qed.
#[local] Hint Resolve reader_fails_ReadString : failures.

Lemma reader_fails_ReadWrite_string (v : list byte) : reader_fails (ReadWrite_string v).
Proof. unfold ReadWrite_string. failure_steps. Qed.
#[local] Hint Resolve reader_fails_ReadWrite_string : failures.

Lemma reader_fails_Write_string (v : list byte) : reader_fails (Write_string v).
Proof. unfold Write_string. failure_steps. Qed.

Lemma reader_fails_framed_bind {A B} (m : M A) (k : A -> M B) :
  reader_fails_framed m -> read_only m -> keeps_frames_below m ->
  (forall a, reader_fails_framed (k a)) ->
  reader_fails_framed (bind m k).
Proof.
  intros Hm Hro Hkeep Hk cs e Hmode Hstack H.
  apply bind_Err_inv in H as [H|(a & cs1 & Hstep & H)].
  - exact (Hm _ _ Hmode Hstack H).
  - destruct (Hro _ _ _ Hmode Hstep) as [Hmode1 _].
    destruct (cs_arrayStack cs) as [|st below] eqn:E; [congruence|].
    destruct (Hkeep _ _ _ _ _ E Hstep) as (st' & Hstack1).
    apply (Hk a _ _ Hmode1); [rewrite Hstack1; discriminate | exact H].
Qed.

Lemma reader_fails_framed_GetMode_bind {B} (k : Mode -> M B) :
  reader_fails_framed (k READING) -> reader_fails_framed (bind GetMode k).
Proof.
  intros Hk cs e Hmode Hstack H. unfold bind, GetMode in H. rewrite Hmode in H.
  exact (Hk _ _ Hmode Hstack H).
Qed.

Lemma reader_fails_framed_top : reader_fails_framed top.
Proof.
  intros cs e _ Hstack H. unfold top in H.
  destruct (cs_arrayStack cs); [congruence | discriminate].
Qed.

Lemma reader_fails_framed_set_top (st : ArrayState) : reader_fails_framed (set_top st).
Proof.
  intros cs e _ Hstack H. unfold set_top in H.
  destruct (cs_arrayStack cs); [congruence | discriminate].
Qed.

Lemma reader_fails_framed_pop : reader_fails_framed pop.
Proof.
  intros cs e _ Hstack H. unfold pop in H.
  destruct (cs_arrayStack cs); [congruence | discriminate].
Qed.

(** Goes through a sequence of steps a reader takes inside a frame. *)
Ltac framed_failure_steps :=
  repeat first
    [ apply reader_fails_framed_GetMode_bind; cbv beta iota
    | match goal with
      | |- reader_fails_framed (bind (if ?b then _ else _) _) => destruct b
      | |- reader_fails_framed (match ?x with _ => _ end) => destruct x
      | |- reader_fails_framed (if ?b then _ else _) => destruct b
      end
    | apply reader_fails_framed_bind;
        [| solve [reader_steps] | solve [frame_steps] | intros ?] ];
  first [ apply reader_fails_framed_top
        | apply reader_fails_framed_set_top
        | apply reader_fails_framed_pop
        | apply reader_fails_framed_of; failure_steps ].

Lemma reader_fails_framed_NextArrayElement : reader_fails_framed NextArrayElement.
Proof. unfold NextArrayElement. framed_failure_steps. Qed.

Lemma reader_fails_framed_EndArray : reader_fails_framed EndArray.
Proof. unfold EndArray. framed_failure_steps. Qed.

Lemma reader_fails_BeginArray : reader_fails BeginArray.
Proof.
  intros cs e Hmode H. unfold BeginArray in H.
  apply bind_Err_inv in H as [H|(a & cs1 & Hstep & H)]; [discriminate|].
  unfold emplace in Hstep. inversion Hstep. subst. revert H.
  apply (reader_fails_framed_GetMode_bind
           (fun mode =>
              match mode with
              | READING =>
                  count <- Read 4 ;;
                  elementSize <- Read 4 ;;
                  pos <- GetPosition ;;
                  set_top (mkArrayState 0 pos count elementSize) ;;;
                  ret count
              | WRITING =>
                  start <- GetPosition ;;
                  Write 4 0 ;;;
                  Write 4 0 ;;;
                  pos <- GetPosition ;;
                  set_top (mkArrayState start pos 0 0) ;;;
                  ret 0
              end)); [|exact Hmode | discriminate].
  cbv beta iota. framed_failure_steps.
Qed.

(** What follows [BeginArray] runs inside the frame it pushed. *)
Lemma reader_fails_after_BeginArray {B} (k : Z -> M B) :
  (forall count, reader_fails_framed (k count)) -> reader_fails (bind BeginArray k).
Proof.
  intros Hk cs e Hmode H.
  apply bind_Err_inv in H as [H|(count & cs1 & Hstep & H)].
  - exact (reader_fails_BeginArray _ _ Hmode H).
  - destruct (read_only_BeginArray _ _ _ Hmode Hstep) as [Hmode1 _].
    destruct (BeginArray_pushes _ _ _ Hstep) as (st & Hstack).
    apply (Hk count _ _ Hmode1); [rewrite Hstack; discriminate | exact H].
Qed.

Lemma reader_fails_framed_then_ret {A B} (m : M A) (b : B) :
  reader_fails_framed m -> reader_fails_framed (bind m (fun _ => ret b)).
Proof.
  intros Hm cs e Hmode Hstack H.
  apply bind_Err_inv in H as [H|(a & cs1 & _ & H)]; [|discriminate].
  exact (Hm _ _ Hmode Hstack H).
Qed.

Section ReaderFailures.

Context {A : Type}.
Variable dflt : A.

Lemma read_only_ReadWriteVector_read (f : A -> M A) :
  (forall el, read_only (f el)) ->
  forall n vec, read_only (ReadWriteVector_read dflt f n vec).
Proof.
  intros Hf. induction n as [|n IH]; intros vec; cbn [ReadWriteVector_read].
  - apply read_only_ret.
  - apply read_only_bind; [apply Hf | intros el].
    apply read_only_bind; [apply read_only_NextArrayElement | intros _; apply IH].
Qed.

Lemma read_only_ReadWriteArray_read (f : A -> M (bool * A)) :
  (forall el, read_only (f el)) ->
  forall n i arr, read_only (ReadWriteArray_read f n i arr).
Proof.
  intros Hf. induction n as [|n IH]; intros i arr; cbn [ReadWriteArray_read].
  - apply read_only_ret.
  - apply read_only_bind.
    + destruct (arr !! i) as [el|]; [|apply read_only_ret].
      apply read_only_bind; [apply Hf | intros r; apply read_only_ret].
    + intros arr'.
      apply read_only_bind; [apply read_only_NextArrayElement | intros _; apply IH].
Qed.

Lemma reader_fails_ReadWriteVector (f : A -> M A) (vec : list A) :
  (forall el, reader_fails (f el)) ->
  (forall el, read_only (f el)) ->
  (forall el, keeps_stack (f el)) ->
  reader_fails (ReadWriteVector dflt f vec).
Proof.
  intros Hfails Hro Hstack. unfold ReadWriteVector.
  apply reader_fails_GetMode_bind. cbv beta iota.
  apply reader_fails_after_BeginArray. intros count.
  apply reader_fails_framed_bind.
  - generalize (@nil A) as acc.
    induction (Z.to_nat count) as [|n IH]; intros acc; cbn [ReadWriteVector_read].
    + apply reader_fails_framed_of, reader_fails_ret.
    + apply reader_fails_framed_bind;
        [apply reader_fails_framed_of, Hfails | apply Hro
        |apply keeps_frames_below_of_keeps_stack, Hstack | intros el].
      apply reader_fails_framed_bind;
        [apply reader_fails_framed_NextArrayElement | apply read_only_NextArrayElement
        |apply keeps_frames_below_NextArrayElement | intros _; apply IH].
  - apply read_only_ReadWriteVector_read, Hro.
  - apply keeps_frames_below_ReadWriteVector_read, Hstack.
  - intros vec'. apply reader_fails_framed_then_ret, reader_fails_framed_EndArray.
Qed.

Lemma reader_fails_ReadWriteArray (f : A -> M (bool * A)) (arr : list A) :
  (forall el, reader_fails (f el)) ->
  (forall el, read_only (f el)) ->
  (forall el, keeps_stack (f el)) ->
  reader_fails (ReadWriteArray dflt f arr).
Proof.
  intros Hfails Hro Hstack. unfold ReadWriteArray.
  apply reader_fails_GetMode_bind. cbv beta iota.
  apply reader_fails_after_BeginArray. intros count.
  apply reader_fails_framed_bind.
  - generalize ((fun _ : A => dflt) <$> arr) as acc. generalize 0%nat as i.
    induction (Z.to_nat count) as [|n IH]; intros i acc; cbn [ReadWriteArray_read].
    + apply reader_fails_framed_of, reader_fails_ret.
    + apply reader_fails_framed_bind.
      * apply reader_fails_framed_of.
        destruct (acc !! i) as [el|]; [|apply reader_fails_ret].
        apply reader_fails_bind;
          [apply Hfails | apply Hro | intros r; apply reader_fails_ret].
      * destruct (acc !! i) as [el|]; [|apply read_only_ret].
        apply read_only_bind; [apply Hro | intros r; apply read_only_ret].
      * apply keeps_frames_below_of_keeps_stack.
        destruct (acc !! i) as [el|]; [|apply keeps_stack_ret].
        apply keeps_stack_bind; [apply Hstack | intros r; apply keeps_stack_ret].
      * intros acc'.
        apply reader_fails_framed_bind;
          [apply reader_fails_framed_NextArrayElement | apply read_only_NextArrayElement
          |apply keeps_frames_below_NextArrayElement | intros _; apply IH].
  - apply read_only_ReadWriteArray_read, Hro.
  - apply keeps_frames_below_ReadWriteArray_read, Hstack.
  - intros arr'. apply reader_fails_framed_then_ret, reader_fails_framed_EndArray.
Qed.

End ReaderFailures.

Lemma reader_fails_rw (t : ty) : forall v : val t, reader_fails (rw t v).
Proof.
  induction t as [n| |t IH|n t IH| |a IHa b IHb]; intros v; cbn [rw].
  - apply reader_fails_ReadWrite.
  - apply reader_fails_ReadWrite_string.
  - apply reader_fails_ReadWriteVector;
      [exact IH | apply read_only_rw | apply keeps_stack_rw].
  - apply reader_fails_ReadWriteArray; intros el.
    + apply reader_fails_bind;
        [apply IH | apply read_only_rw | intros el'; apply reader_fails_ret].
    + apply read_only_bind; [apply read_only_rw | intros el'; apply read_only_ret].
    + apply keeps_stack_bind; [apply keeps_stack_rw | intros el'; apply keeps_stack_ret].
  - apply reader_fails_ret.
  - apply reader_fails_bind; [apply IHa | apply read_only_rw | intros x].
    apply reader_fails_bind;
      [apply IHb | apply read_only_rw | intros y; apply reader_fails_ret].
Qed.

(** X16: a reader fails in two ways only: the buffer ends before the bytes
    it asks for, or a seek leads outside the buffer, from a chunk's offset
    or a frame's element size.  This holds for [Write], for [ReadWriteAs],
    for every codec built from scalars, strings, vectors and arrays, for
    [ReadWriteVector] and [ReadWriteArray] over element codecs of which it
    holds, and for [ReadWriteChunk] in READING mode; MalformedArray is never
    thrown by a reader, and the array stack is never found empty. *)
Theorem X16_reader_failures :
  (forall (t : ty) (v0 : val t), reader_fails (rw t v0))
  /\ (forall n v, reader_fails (Write n v))
  /\ (forall s, reader_fails (Write_string s))
  /\ (forall m n v, reader_fails (ReadWriteAs m n v))
  /\ (forall (A : Type) (dflt : A) (f : A -> M A) (vec : list A),
        (forall el, reader_fails (f el)) ->
        (forall el, read_only (f el)) ->
        (forall el, keeps_stack (f el)) ->
        reader_fails (ReadWriteVector dflt f vec))
  /\ (forall (A : Type) (dflt : A) (f : A -> M (bool * A)) (arr : list A),
        (forall el, reader_fails (f el)) ->
        (forall el, read_only (f el)) ->
        (forall el, keeps_stack (f el)) ->
        reader_fails (ReadWriteArray dflt f arr))
  /\ (forall (U : Type) (f : U -> M U) (chunkId : Z) (u : U) (r : OrcaStream)
             (e : error),
        _mode r = READING ->
        reader_fails (f u) ->
        ReadWriteChunk chunkId f u r = Err e ->
        reader_error e).
Proof.
  split; [exact reader_fails_rw|]. split; [exact reader_fails_Write|].
  split; [exact reader_fails_Write_string|]. split; [exact reader_fails_ReadWriteAs|].
  split; [intros A dflt f vec; apply reader_fails_ReadWriteVector|].
  split; [intros A dflt f arr; apply reader_fails_ReadWriteArray|].
  intros U f chunkId u r e Hmode Hf H.
  unfold ReadWriteChunk in H. rewrite Hmode in H.
  unfold bind, SeekChunk in H.
  destruct (List.find _ (_chunks r)) as [entry|]; [|discriminate].
  unfold MemoryStream.SetPosition in H.
  case_bool_decide as Hrange; [|inversion H; right; reflexivity].
  unfold run_codec, ret in H. cbn [_buffer _mode _stream _header _chunks] in H.
  rewrite Hmode in H.
  destruct (f u _) as [[u1 stream]|e'] eqn:Hrun; [discriminate|].
  inversion H. subst. apply Hf in Hrun; [exact Hrun | reflexivity].
Qed.

Lemma X16_reader_failures_witness :
  let r := mkOrcaStream (IStream.Build [] 0) READING Header_init
             [mkChunkEntry 7 0 11]
             (MemoryStream.Build
                [x02; x00; x00; x00; x00; x00; x00; x00; x61; x00; x62] 0)
             ChunkEntry_init in
  ReadWriteChunk 7 (rw (TVector TString)) [] r = Err UnexpectedEndOfStream
  /\ reader_error UnexpectedEndOfStream.
Proof.
  intros r.
  assert (Hrun : ReadWriteChunk 7 (rw (TVector TString)) [] r
                 = Err UnexpectedEndOfStream) by (vm_compute; reflexivity).
  split; [exact Hrun|].
  destruct X16_reader_failures as (Hrw & _ & _ & _ & _ & _ & Hchunk).
  apply (Hchunk (val (TVector TString)) (rw (TVector TString)) 7 [] r
           UnexpectedEndOfStream eq_refl (Hrw _ _) Hrun).
Defined.

(** ** The element size a writer stores, wherever its cursor is *)

Lemma BeginArray_writer (cs : ChunkStream) :
  cs_mode cs = WRITING ->
  BeginArray cs
  = Ok (0, mkChunkStream
             (MemoryStream.Write (le_bytes 4 0 ++ le_bytes 4 0) (cs_buffer cs))
             WRITING
             (mkArrayState (MemoryStream.GetPosition (cs_buffer cs))
                (MemoryStream.GetPosition (cs_buffer cs) + 8) 0 0
              :: cs_arrayStack cs)).
Proof.
  destruct cs as [buf mode stack]. cbn [cs_mode cs_buffer cs_arrayStack].
  intros ->. unfold BeginArray, emplace. unfold bind at 1.
  rewrite GetMode_bind. cbn [cs_mode cs_buffer cs_arrayStack].
  unfold bind at 1, GetPosition. cbn [cs_buffer].
  unfold bind at 1. rewrite Write_writing.
  unfold bind at 1. rewrite Write_writing.
  rewrite MemoryStream_Write_Write.
  unfold bind, set_top, ret. cbn [cs_buffer cs_mode cs_arrayStack].
  do 4 f_equal. unfold MemoryStream.GetPosition, MemoryStream.Write.
  cbn [MemoryStream.position]. rewrite length_app, !length_le_bytes.
  f_equal. lia.
Qed.

Lemma NextArrayElement_writer (buf : MemoryStream.t) (st : ArrayState)
    (stack : list ArrayState) :
  NextArrayElement (mkChunkStream buf WRITING (st :: stack))
  = Ok (true, mkChunkStream buf WRITING
                (next_frame st (MemoryStream.GetPosition buf) :: stack)).
Proof. reflexivity. Qed.

Lemma StartPos_frame_after (sizes : list Z) :
  forall st pos, StartPos (frame_after st pos sizes) = StartPos st.
Proof.
  induction sizes as [|k sizes IH]; intros st pos; cbn [frame_after];
    [reflexivity|].
  rewrite IH. reflexivity.
Qed.

Lemma ElementSize_frame_after (sizes : list Z) :
  forall st pos,
    LastPos st = pos ->
    0 <= Count st ->
    Count st + Z.of_nat (length sizes) < uint64_max ->
    Forall (fun k => 0 <= k < uint64_max) sizes ->
    ElementSize (frame_after st pos sizes)
    = stride_from (Count st) (ElementSize st) sizes.
Proof.
  induction sizes as [|k sizes IH]; intros st pos Hlast Hc Hlen Hall;
    cbn [frame_after stride_from]; [reflexivity|].
  apply Forall_cons in Hall as [Hk Hall]. cbn [length] in Hlen.
  rewrite IH; try assumption; unfold next_frame; cbn [LastPos Count ElementSize].
  - rewrite Hlast. replace (pos + k - pos) with k by lia.
    rewrite !to_size_t_small by lia. reflexivity.
  - reflexivity.
  - rewrite to_size_t_small by lia. lia.
  - rewrite to_size_t_small by lia. lia.
Qed.

Lemma EndArray_writer_returns (buf : MemoryStream.t) (st : ArrayState)
    (stack : list ArrayState) (u : unit) (cs' : ChunkStream) :
  EndArray (mkChunkStream buf WRITING (st :: stack)) = Ok (u, cs') ->
  0 <= StartPos st <= MemoryStream.GetLength buf
  /\ cs' = mkChunkStream
             (MemoryStream.Build
                (patch_header (Z.to_nat (StartPos st))
                   (to_uint32 (Count st)) (to_uint32 (ElementSize st))
                   (MemoryStream.data buf))
                (MemoryStream.position buf))
             WRITING stack.
Proof.
  intros H. unfold EndArray, top in H. unfold bind at 1 in H.
  cbn [cs_arrayStack] in H. rewrite GetMode_bind in H. cbn [cs_mode] in H.
  inv_bind H. inv_bind Hstep.
  unfold GetPosition in Hstep0. cbn [cs_buffer] in Hstep0.
  inversion Hstep0. subst a0 cs0. clear Hstep0.
  destruct (negb _ && _); [discriminate|].
  inv_bind Hstep.
  unfold SetPosition, MemoryStream.SetPosition in Hstep0.
  cbn [cs_buffer cs_mode cs_arrayStack] in Hstep0.
  case_bool_decide as Hstart; [|discriminate].
  inversion Hstep0. subst a0 cs0. clear Hstep0.
  split; [exact Hstart|].
  unfold bind at 1 in Hstep. rewrite Write_writing in Hstep.
  unfold bind at 1 in Hstep. rewrite Write_writing in Hstep.
  rewrite MemoryStream_Write_Write in Hstep.
  unfold SetPosition, MemoryStream.SetPosition in Hstep.
  cbn [cs_buffer cs_mode cs_arrayStack] in Hstep.
  case_bool_decide as Hback; [|discriminate].
  inversion Hstep. subst a cs. clear Hstep.
  unfold pop in H. cbn [cs_arrayStack cs_buffer cs_mode] in H.
  inversion H. unfold MemoryStream.Write, MemoryStream.GetPosition, patch_header.
  cbn [MemoryStream.data MemoryStream.position].
  rewrite Nat2Z.id. reflexivity.
Qed.

Lemma frame_ElementSize_patched (start : nat) (count elementSize : Z) (d : list byte) :
  (start <= length d)%nat ->
  frame_ElementSize start (patch_header start count elementSize d)
  = to_uint32 elementSize.
Proof.
  intros Hstart. unfold patch_header.
  pose proof (frame_ElementSize_at (take start d) (drop (start + 8) d)
                count elementSize) as H.
  rewrite length_take, Nat.min_l in H by exact Hstart. exact H.
Qed.

Section WriterAnywhere.

Context {A : Type}.
Variable dflt : A.
Variable sz : A -> Z.

(** The writer loops between [BeginArray] and [EndArray]: the frame on top
    of the stack sees one [NextArrayElement] for each element. *)
Lemma ReadWriteVector_write_frame (f : A -> M A) (vec : list A) :
  Forall (fun el => advances_by (f el) (sz el)) vec ->
  forall cs vec' cs' st below,
    cs_mode cs = WRITING ->
    cs_arrayStack cs = st :: below ->
    ReadWriteVector_write f vec cs = Ok (vec', cs') ->
    cs_mode cs' = WRITING
    /\ cs_arrayStack cs'
       = frame_after st (MemoryStream.GetPosition (cs_buffer cs)) (sz <$> vec)
         :: below
    /\ MemoryStream.GetPosition (cs_buffer cs')
       = MemoryStream.GetPosition (cs_buffer cs) + total_size (sz <$> vec).
Proof.
  induction 1 as [|el vec Hel Hall IH]; intros cs vec' cs' st below Hmode Hstack Hrun.
  - inversion Hrun. subst cs'. cbn [fmap list_fmap frame_after total_size foldr].
    repeat split; [exact Hmode | exact Hstack | lia].
  - cbn [ReadWriteVector_write] in Hrun. inv_bind Hrun.
    destruct (Hel _ _ _ Hmode Hstep) as (Hmode0 & Hstack0 & Hpos0).
    destruct cs0 as [buf0 mode0 stack0].
    cbn [cs_mode cs_arrayStack cs_buffer] in Hmode0, Hstack0, Hpos0.
    rewrite Hstack in Hstack0. subst mode0 stack0.
    unfold bind at 1 in Hrun. rewrite NextArrayElement_writer in Hrun.
    inv_bind Hrun. inversion Hrun. subst vec' cs'. clear Hrun.
    eapply IH in Hstep0; [|reflexivity|reflexivity].
    cbn [cs_buffer] in Hstep0. destruct Hstep0 as (Hmode1 & Hstack1 & Hpos1).
    cbn [fmap list_fmap frame_after total_size foldr].
    fold (total_size (sz <$> vec)). rewrite <- Hpos0.
    repeat split; [exact Hmode1 | exact Hstack1 | lia].
Qed.

Lemma ReadWriteArray_write_frame (f : A -> M (bool * A)) (arr : list A) :
  Forall (fun el => advances_by (f el) (sz el) /\ answers_true (f el)) arr ->
  forall cs arr' cs' st below,
    cs_mode cs = WRITING ->
    cs_arrayStack cs = st :: below ->
    ReadWriteArray_write f arr cs = Ok (arr', cs') ->
    cs_mode cs' = WRITING
    /\ cs_arrayStack cs'
       = frame_after st (MemoryStream.GetPosition (cs_buffer cs)) (sz <$> arr)
         :: below
    /\ MemoryStream.GetPosition (cs_buffer cs')
       = MemoryStream.GetPosition (cs_buffer cs) + total_size (sz <$> arr).
Proof.
  induction 1 as [|el arr [Hel Htrue] Hall IH];
    intros cs arr' cs' st below Hmode Hstack Hrun.
  - inversion Hrun. subst cs'. cbn [fmap list_fmap frame_after total_size foldr].
    repeat split; [exact Hmode | exact Hstack | lia].
  - cbn [ReadWriteArray_write] in Hrun. inv_bind Hrun.
    destruct (Hel _ _ _ Hmode Hstep) as (Hmode0 & Hstack0 & Hpos0).
    rewrite (Htrue _ _ _ Hmode Hstep) in Hrun.
    destruct cs0 as [buf0 mode0 stack0].
    cbn [cs_mode cs_arrayStack cs_buffer] in Hmode0, Hstack0, Hpos0.
    rewrite Hstack in Hstack0. subst mode0 stack0.
    unfold bind at 1 in Hrun. rewrite NextArrayElement_writer in Hrun.
    inv_bind Hrun. inversion Hrun. subst arr' cs'. clear Hrun.
    eapply IH in Hstep0; [|reflexivity|reflexivity].
    cbn [cs_buffer] in Hstep0. destruct Hstep0 as (Hmode1 & Hstack1 & Hpos1).
    cbn [fmap list_fmap frame_after total_size foldr].
    fold (total_size (sz <$> arr)). rewrite <- Hpos0.
    repeat split; [exact Hmode1 | exact Hstack1 | lia].
Qed.

(** What a returning frame of a writer leaves: the buffer of the loop with
    the header of the frame overwritten, and the cursor where the loop left
    it. *)
Lemma framed_writer_run (loop : M (list A)) (vec vec' : list A)
    (cs cs' : ChunkStream) :
  cs_mode cs = WRITING ->
  (forall cs1 vec1 cs2 st below,
     cs_mode cs1 = WRITING ->
     cs_arrayStack cs1 = st :: below ->
     loop cs1 = Ok (vec1, cs2) ->
     cs_mode cs2 = WRITING
     /\ cs_arrayStack cs2
        = frame_after st (MemoryStream.GetPosition (cs_buffer cs1)) (sz <$> vec)
          :: below
     /\ MemoryStream.GetPosition (cs_buffer cs2)
        = MemoryStream.GetPosition (cs_buffer cs1) + total_size (sz <$> vec)) ->
  (BeginArray ;;; vec1 <- loop ;; EndArray ;;; ret vec1) cs = Ok (vec', cs') ->
  let p := MemoryStream.GetPosition (cs_buffer cs) in
  let st := frame_after (mkArrayState p (p + 8) 0 0) (p + 8) (sz <$> vec) in
  exists buf,
    (MemoryStream.position (cs_buffer cs) <= length (MemoryStream.data buf))%nat
    /\ MemoryStream.GetPosition buf = p + 8 + total_size (sz <$> vec)
    /\ cs' = mkChunkStream
               (MemoryStream.Build
                  (patch_header (MemoryStream.position (cs_buffer cs))
                     (to_uint32 (Count st)) (to_uint32 (ElementSize st))
                     (MemoryStream.data buf))
                  (MemoryStream.position buf))
               WRITING (cs_arrayStack cs).
Proof.
  intros Hmode Hloop Hrun p st.
  unfold bind at 1 in Hrun. rewrite (BeginArray_writer cs Hmode) in Hrun.
  inv_bind Hrun.
  eapply Hloop in Hstep; [|reflexivity|reflexivity].
  cbn [cs_buffer] in Hstep. destruct Hstep as (Hmode2 & Hstack2 & Hpos2).
  destruct cs0 as [buf mode2 stack2].
  cbn [cs_mode cs_arrayStack cs_buffer] in Hmode2, Hstack2, Hpos2.
  subst mode2 stack2. inv_bind Hrun.
  apply EndArray_writer_returns in Hstep as [Hstart Hend].
  inversion Hrun. subst vec' cs'. clear Hrun. subst cs0.
  rewrite StartPos_frame_after in Hstart |- *. cbn [StartPos] in Hstart |- *.
  assert (Hwritten :
    MemoryStream.GetPosition
      (MemoryStream.Write (le_bytes 4 0 ++ le_bytes 4 0) (cs_buffer cs))
    = p + 8).
  { unfold p, MemoryStream.GetPosition, MemoryStream.Write.
    cbn [MemoryStream.position]. rewrite length_app, !length_le_bytes. lia. }
  rewrite Hwritten in Hpos2 |- *.
  exists buf. split; [|split].
  - unfold MemoryStream.GetPosition, MemoryStream.GetLength in Hstart. lia.
  - exact Hpos2.
  - unfold MemoryStream.GetPosition. rewrite Nat2Z.id. reflexivity.
Qed.

Lemma ReadWriteVector_writer_run (f : A -> M A) (vec vec' : list A)
    (cs cs' : ChunkStream) :
  cs_mode cs = WRITING ->
  Forall (fun el => advances_by (f el) (sz el)) vec ->
  ReadWriteVector dflt f vec cs = Ok (vec', cs') ->
  let p := MemoryStream.GetPosition (cs_buffer cs) in
  let st := frame_after (mkArrayState p (p + 8) 0 0) (p + 8) (sz <$> vec) in
  exists buf,
    (MemoryStream.position (cs_buffer cs) <= length (MemoryStream.data buf))%nat
    /\ MemoryStream.GetPosition buf = p + 8 + total_size (sz <$> vec)
    /\ cs' = mkChunkStream
               (MemoryStream.Build
                  (patch_header (MemoryStream.position (cs_buffer cs))
                     (to_uint32 (Count st)) (to_uint32 (ElementSize st))
                     (MemoryStream.data buf))
                  (MemoryStream.position buf))
               WRITING (cs_arrayStack cs).
Proof.
  intros Hmode Hf Hrun. unfold ReadWriteVector in Hrun.
  rewrite GetMode_bind, Hmode in Hrun.
  apply (framed_writer_run (ReadWriteVector_write f vec) vec vec' cs cs' Hmode);
    [|exact Hrun].
  intros cs1 vec1 cs2 st below.
  apply (ReadWriteVector_write_frame f vec Hf).
Qed.

Lemma ReadWriteArray_writer_run (f : A -> M (bool * A)) (arr arr' : list A)
    (cs cs' : ChunkStream) :
  cs_mode cs = WRITING ->
  Forall (fun el => advances_by (f el) (sz el) /\ answers_true (f el)) arr ->
  ReadWriteArray dflt f arr cs = Ok (arr', cs') ->
  let p := MemoryStream.GetPosition (cs_buffer cs) in
  let st := frame_after (mkArrayState p (p + 8) 0 0) (p + 8) (sz <$> arr) in
  exists buf,
    (MemoryStream.position (cs_buffer cs) <= length (MemoryStream.data buf))%nat
    /\ MemoryStream.GetPosition buf = p + 8 + total_size (sz <$> arr)
    /\ cs' = mkChunkStream
               (MemoryStream.Build
                  (patch_header (MemoryStream.position (cs_buffer cs))
                     (to_uint32 (Count st)) (to_uint32 (ElementSize st))
                     (MemoryStream.data buf))
                  (MemoryStream.position buf))
               WRITING (cs_arrayStack cs).
Proof.
  intros Hmode Hf Hrun. unfold ReadWriteArray in Hrun.
  rewrite GetMode_bind, Hmode in Hrun.
  apply (framed_writer_run (ReadWriteArray_write f arr) arr arr' cs cs' Hmode);
    [|exact Hrun].
  intros cs1 arr1 cs2 st below.
  apply (ReadWriteArray_write_frame f arr Hf).
Qed.

Lemma advances_by_ReadWriteVector (f : A -> M A) (vec : list A) :
  Forall (fun el => advances_by (f el) (sz el)) vec ->
  advances_by (ReadWriteVector dflt f vec) (8 + total_size (sz <$> vec)).
Proof.
  intros Hf cs vec' cs' Hmode Hrun.
  destruct (ReadWriteVector_writer_run f vec vec' cs cs' Hmode Hf Hrun)
    as (buf & _ & Hpos & ->).
  cbn [cs_mode cs_arrayStack cs_buffer].
  repeat split. unfold MemoryStream.GetPosition in *.
  cbn [MemoryStream.position]. lia.
Qed.

Lemma advances_by_ReadWriteArray (f : A -> M (bool * A)) (arr : list A) :
  Forall (fun el => advances_by (f el) (sz el) /\ answers_true (f el)) arr ->
  advances_by (ReadWriteArray dflt f arr) (8 + total_size (sz <$> arr)).
Proof.
  intros Hf cs arr' cs' Hmode Hrun.
  destruct (ReadWriteArray_writer_run f arr arr' cs cs' Hmode Hf Hrun)
    as (buf & _ & Hpos & ->).
  cbn [cs_mode cs_arrayStack cs_buffer].
  repeat split. unfold MemoryStream.GetPosition in *.
  cbn [MemoryStream.position]. lia.
Qed.

(** The element size in the header of the frame, at the position the
    cursor had when the call began. *)
Lemma ReadWriteVector_writer_stride (f : A -> M A) (vec vec' : list A)
    (cs cs' : ChunkStream) :
  cs_mode cs = WRITING ->
  Forall (fun el => advances_by (f el) (sz el) /\ 0 <= sz el < uint64_max) vec ->
  Z.of_nat (length vec) < uint64_max ->
  ReadWriteVector dflt f vec cs = Ok (vec', cs') ->
  frame_ElementSize (MemoryStream.position (cs_buffer cs))
    (MemoryStream.data (cs_buffer cs'))
  = to_uint32 (stride_from 0 0 (sz <$> vec)).
Proof.
  intros Hmode Hf Hlen Hrun.
  destruct (ReadWriteVector_writer_run f vec vec' cs cs' Hmode
              (Forall_impl _ _ _ Hf (fun el H => proj1 H)) Hrun)
    as (buf & Hstart & _ & ->).
  cbn [cs_buffer MemoryStream.data].
  rewrite (frame_ElementSize_patched _ _ _ _ Hstart), to_uint32_idem.
  rewrite ElementSize_frame_after; cbn [Count ElementSize LastPos];
    [reflexivity | reflexivity | lia | rewrite length_fmap; lia |].
  apply Forall_fmap. eapply Forall_impl; [exact Hf|]. intros el H. exact (proj2 H).
Qed.

Lemma ReadWriteArray_writer_stride (f : A -> M (bool * A)) (arr arr' : list A)
    (cs cs' : ChunkStream) :
  cs_mode cs = WRITING ->
  Forall (fun el => advances_by (f el) (sz el) /\ answers_true (f el)
                    /\ 0 <= sz el < uint64_max) arr ->
  Z.of_nat (length arr) < uint64_max ->
  ReadWriteArray dflt f arr cs = Ok (arr', cs') ->
  frame_ElementSize (MemoryStream.position (cs_buffer cs))
    (MemoryStream.data (cs_buffer cs'))
  = to_uint32 (stride_from 0 0 (sz <$> arr)).
Proof.
  intros Hmode Hf Hlen Hrun.
  destruct (ReadWriteArray_writer_run f arr arr' cs cs' Hmode
              (Forall_impl _ _ _ Hf
                 (fun el H => conj (proj1 H) (proj1 (proj2 H)))) Hrun)
    as (buf & Hstart & _ & ->).
  cbn [cs_buffer MemoryStream.data].
  rewrite (frame_ElementSize_patched _ _ _ _ Hstart), to_uint32_idem.
  rewrite ElementSize_frame_after; cbn [Count ElementSize LastPos];
    [reflexivity | reflexivity | lia | rewrite length_fmap; lia |].
  apply Forall_fmap. eapply Forall_impl; [exact Hf|].
  intros el H. exact (proj2 (proj2 H)).
Qed.

End WriterAnywhere.

Lemma advances_by_ret {A} (a : A) : advances_by (ret a) 0.
Proof.
  intros cs a' cs' Hmode Hrun. inversion Hrun. subst.
  repeat split; [exact Hmode | lia].
Qed.

Lemma advances_by_bind {A B} (m : M A) (g : A -> M B) (k1 k2 : Z) :
  advances_by m k1 ->
  (forall a, advances_by (g a) k2) ->
  advances_by (bind m g) (k1 + k2).
Proof.
  intros Hm Hg cs b cs' Hmode Hrun. inv_bind Hrun.
  destruct (Hm _ _ _ Hmode Hstep) as (Hmode0 & Hstack0 & Hpos0).
  destruct (Hg _ _ _ _ Hmode0 Hrun) as (Hmode1 & Hstack1 & Hpos1).
  repeat split; [exact Hmode1 | congruence | lia].
Qed.

Lemma advances_by_ReadWrite (n : nat) (v : Z) :
  advances_by (ReadWrite n v) (Z.of_nat n).
Proof.
  intros [buf mode stack] a cs' Hmode Hrun. cbn [cs_mode] in Hmode. subst mode.
  unfold ReadWrite, ReadWrite_raw, bind, GetMode, WriteBuffer, ret in Hrun.
  cbn [cs_mode cs_buffer cs_arrayStack] in Hrun. inversion Hrun. subst.
  cbn [cs_mode cs_arrayStack cs_buffer].
  repeat split. unfold MemoryStream.GetPosition, MemoryStream.Write.
  cbn [MemoryStream.position]. rewrite length_le_bytes. lia.
Qed.

Lemma advances_by_ReadWrite_string (s : list byte) :
  advances_by (ReadWrite_string s) (Z.of_nat (length (take (find_nul s) s ++ [x00]))).
Proof.
  intros [buf mode stack] a cs' Hmode Hrun. cbn [cs_mode] in Hmode. subst mode.
  unfold ReadWrite_string, WriteString, bind, GetMode, WriteBuffer, ret in Hrun.
  cbn [cs_mode cs_buffer cs_arrayStack] in Hrun.
  rewrite MemoryStream_Write_Write in Hrun. inversion Hrun. subst.
  cbn [cs_mode cs_arrayStack cs_buffer].
  repeat split. unfold MemoryStream.GetPosition, MemoryStream.Write.
  cbn [MemoryStream.position]. lia.
Qed.

Lemma answers_true_counted {A} (m : M A) :
  answers_true (el' <- m ;; ret (true, el')).
Proof.
  intros cs r cs' _ Hrun. inv_bind Hrun. inversion Hrun. reflexivity.
Qed.

Lemma advances_by_counted {A} (m : M A) (k : Z) :
  advances_by m k -> advances_by (el' <- m ;; ret (true, el')) k.
Proof.
  intros Hm. replace k with (k + 0) by lia.
  apply advances_by_bind; [exact Hm|]. intros a. apply advances_by_ret.
Qed.

Lemma length_frame_bytes_total (bodies : list (list byte)) :
  Z.of_nat (length (frame_bytes bodies))
  = 8 + total_size ((fun b => Z.of_nat (length b)) <$> bodies).
Proof.
  unfold frame_bytes. rewrite !length_app, !length_le_bytes.
  assert (H : Z.of_nat (length (concat bodies))
              = total_size ((fun b => Z.of_nat (length b)) <$> bodies)).
  { induction bodies as [|b bodies IH];
      cbn [concat fmap list_fmap total_size foldr length]; [reflexivity|].
    fold (total_size ((fun b => Z.of_nat (length b)) <$> bodies)).
    rewrite length_app. lia. }
  lia.
Qed.

Lemma advances_by_rw (t : ty) :
  forall v : val t, advances_by (rw t v) (Z.of_nat (length (encode t v))).
Proof.
  induction t as [n| |t IH|n t IH| |a IHa b IHb]; intros v; cbn [rw encode].
  - rewrite length_le_bytes. apply advances_by_ReadWrite.
  - apply advances_by_ReadWrite_string.
  - rewrite length_frame_bytes_total, <- list_fmap_compose.
    apply advances_by_ReadWriteVector, Forall_forall. intros el _. apply IH.
  - rewrite length_frame_bytes_total, <- list_fmap_compose.
    apply advances_by_ReadWriteArray, Forall_forall. intros el _.
    split; [apply advances_by_counted, IH | apply answers_true_counted].
  - apply advances_by_ret.
  - rewrite length_app, Nat2Z.inj_add. apply advances_by_bind; [apply IHa|].
    intros x. replace (Z.of_nat (length (encode b v.2)))
      with (Z.of_nat (length (encode b v.2)) + 0) by lia.
    apply advances_by_bind; [apply IHb|]. intros y. apply advances_by_ret.
Qed.

(** C2 (as amended): a writer, wherever its cursor is, runs
    [ReadWriteVector], or [ReadWriteArray] with an element codec that
    answers true for every element, and the call returns.  When there is at
    least one element and every run of the element codec moves the cursor by
    the same number [k] of bytes, with [0 < k < 2^32], the [ElementSize]
    stored in the header of the frame, at the position the cursor had when
    the call began, is [k], which is not zero; when two elements are of
    different sizes, it is zero.  The call does return when the writer is at
    the end of a buffer that stays below [2^64] bytes and the element codecs
    write there; the codecs built from the primitives do both, vectors
    without elements among them. *)
Theorem C2_ElementSize_backpatched :
  (forall (A : Type) (dflt : A) (sz : A -> Z) (f : A -> M A)
          (vec vec' : list A) (cs cs' : ChunkStream),
     cs_mode cs = WRITING ->
     Forall (fun el => advances_by (f el) (sz el) /\ 0 <= sz el < uint64_max) vec ->
     Z.of_nat (length vec) < uint64_max ->
     ReadWriteVector dflt f vec cs = Ok (vec', cs') ->
     let stored :=
       frame_ElementSize (MemoryStream.position (cs_buffer cs))
         (MemoryStream.data (cs_buffer cs')) in
     (forall k,
        vec <> [] -> Forall (fun el => sz el = k) vec -> 0 < k < uint32_max ->
        stored = k /\ stored <> 0)
     /\ (forall x y, x ∈ vec -> y ∈ vec -> sz x <> sz y -> stored = 0))
  /\ (forall (A : Type) (dflt : A) (sz : A -> Z) (f : A -> M (bool * A))
             (arr arr' : list A) (cs cs' : ChunkStream),
        cs_mode cs = WRITING ->
        Forall (fun el => advances_by (f el) (sz el) /\ answers_true (f el)
                          /\ 0 <= sz el < uint64_max) arr ->
        Z.of_nat (length arr) < uint64_max ->
        ReadWriteArray dflt f arr cs = Ok (arr', cs') ->
        let stored :=
          frame_ElementSize (MemoryStream.position (cs_buffer cs))
            (MemoryStream.data (cs_buffer cs')) in
        (forall k,
           arr <> [] -> Forall (fun el => sz el = k) arr -> 0 < k < uint32_max ->
           stored = k /\ stored <> 0)
        /\ (forall x y, x ∈ arr -> y ∈ arr -> sz x <> sz y -> stored = 0))
  /\ (forall (A : Type) (dflt : A) (f : A -> M A) (enc : A -> list byte)
             (vec : list A) (d : list byte) (stack : list ArrayState),
        Forall (fun el => writes (f el) el (enc el)) vec ->
        Z.of_nat (length vec) < uint64_max ->
        Z.of_nat (length (d ++ frame_bytes (enc <$> vec))) < uint64_max ->
        ReadWriteVector dflt f vec (at_end d stack)
        = Ok (vec, at_end (d ++ frame_bytes (enc <$> vec)) stack)
        /\ ReadWriteArray dflt (fun el => el' <- f el ;; ret (true, el')) vec
             (at_end d stack)
           = Ok (vec, at_end (d ++ frame_bytes (enc <$> vec)) stack))
  /\ (forall (t : ty) (v : val t),
        advances_by (rw t v) (Z.of_nat (length (encode t v)))
        /\ (wf_val t v -> writes (rw t v) v (encode t v))).
Proof.
  split; [|split; [|split]].
  - intros A dflt sz f vec vec' cs cs' Hmode Hf Hlen Hrun stored.
    unfold stored.
    rewrite (ReadWriteVector_writer_stride dflt sz f vec vec' cs cs' Hmode Hf Hlen Hrun).
    split.
    + intros k Hne Hall Hk. rewrite (stride_same sz k vec Hne Hall).
      rewrite to_uint32_small by lia. split; [reflexivity | lia].
    + intros x y Hx Hy Hxy. rewrite (stride_differ sz x y vec Hx Hy Hxy). reflexivity.
  - intros A dflt sz f arr arr' cs cs' Hmode Hf Hlen Hrun stored.
    unfold stored.
    rewrite (ReadWriteArray_writer_stride dflt sz f arr arr' cs cs' Hmode Hf Hlen Hrun).
    split.
    + intros k Hne Hall Hk. rewrite (stride_same sz k arr Hne Hall).
      rewrite to_uint32_small by lia. split; [reflexivity | lia].
    + intros x y Hx Hy Hxy. rewrite (stride_differ sz x y arr Hx Hy Hxy). reflexivity.
  - intros A dflt f enc vec d stack Hf Hlen Hmax. split.
    + apply (writes_ReadWriteVector enc dflt f vec Hf Hlen d stack Hmax).
    + apply (writes_ReadWriteArray enc dflt f vec Hf Hlen d stack Hmax).
  - intros t v. split; [apply advances_by_rw | apply writes_rw].
Qed.

Lemma C2_ElementSize_backpatched_witness :
  let inside := mkChunkStream (MemoryStream.Build (replicate 20 x00) 3) WRITING [] in
  let nested := TVector (TScalar 2) in
  (exists vec' cs',
     ReadWriteVector 0 (ReadWrite 2) [1; 2; 3] inside = Ok (vec', cs')
     /\ frame_ElementSize 3 (MemoryStream.data (cs_buffer cs')) = 2
     /\ frame_ElementSize 3 (MemoryStream.data (cs_buffer cs')) <> 0)
  /\ (exists vec' cs',
        ReadWriteVector [] (rw nested) [[]; []] (at_end [] []) = Ok (vec', cs')
        /\ frame_ElementSize 0 (MemoryStream.data (cs_buffer cs')) = 8)
  /\ (exists vec' cs',
        ReadWriteVector [] (rw nested) [[1; 2]; []] (at_end [] []) = Ok (vec', cs')
        /\ frame_ElementSize 0 (MemoryStream.data (cs_buffer cs')) = 0)
  /\ (exists arr' cs',
        ReadWriteArray 0 (fun el => el' <- ReadWrite 2 el ;; ret (true, el')) [1; 2; 3]
          inside
        = Ok (arr', cs')
        /\ frame_ElementSize 3 (MemoryStream.data (cs_buffer cs')) = 2)
  /\ ReadWriteVector [] (rw nested) [[]; []] (at_end [x07] [])
     = Ok ([[]; []], at_end ([x07] ++ frame_bytes (encode nested <$> [[]; []])) []).
Proof.
  intros inside nested.
  destruct C2_ElementSize_backpatched as (Hvec & Harr & Hreturns & Hrw).
  split; [|split; [|split; [|split]]].
  - destruct (ReadWriteVector 0 (ReadWrite 2) [1; 2; 3] inside)
      as [[vec' cs']|e] eqn:Hrun; [|vm_compute in Hrun; discriminate].
    exists vec', cs'. split; [reflexivity|].
    assert (Hf : Forall (fun el : Z => advances_by (ReadWrite 2 el) 2
                                       /\ 0 <= 2 < uint64_max) [1; 2; 3])
      by (repeat (apply Forall_cons; split;
                  [split; [apply (advances_by_ReadWrite 2) | unfold uint64_max; lia]|]);
          apply Forall_nil_2).
    destruct (Hvec Z 0 (fun _ => 2) (ReadWrite 2) [1; 2; 3] vec' inside cs'
                eq_refl Hf ltac:(concrete) Hrun) as [Hsame _].
    apply (Hsame 2); [discriminate | repeat constructor | unfold uint32_max; lia].
  - destruct (ReadWriteVector [] (rw nested) [[]; []] (at_end [] []))
      as [[vec' cs']|e] eqn:Hrun; [|vm_compute in Hrun; discriminate].
    exists vec', cs'. split; [reflexivity|].
    assert (Hf : Forall (fun el : val nested =>
                           advances_by (rw nested el)
                             (Z.of_nat (length (encode nested el)))
                           /\ 0 <= Z.of_nat (length (encode nested el)) < uint64_max)
                   [[]; []])
      by (repeat (apply Forall_cons; split;
                  [split; [apply (proj1 (Hrw nested _))
                          | split; vm_compute; first [reflexivity | discriminate]]|]);
          apply Forall_nil_2).
    destruct (Hvec (val nested) [] (fun v => Z.of_nat (length (encode nested v)))
                (rw nested) [[]; []] vec' (at_end [] []) cs'
                eq_refl Hf ltac:(concrete) Hrun) as [Hsame _].
    apply (Hsame 8); [discriminate | repeat constructor | unfold uint32_max; lia].
  - destruct (ReadWriteVector [] (rw nested) [[1; 2]; []] (at_end [] []))
      as [[vec' cs']|e] eqn:Hrun; [|vm_compute in Hrun; discriminate].
    exists vec', cs'. split; [reflexivity|].
    assert (Hf : Forall (fun el : val nested =>
                           advances_by (rw nested el)
                             (Z.of_nat (length (encode nested el)))
                           /\ 0 <= Z.of_nat (length (encode nested el)) < uint64_max)
                   [[1; 2]; []])
      by (repeat (apply Forall_cons; split;
                  [split; [apply (proj1 (Hrw nested _))
                          | split; vm_compute; first [reflexivity | discriminate]]|]);
          apply Forall_nil_2).
    destruct (Hvec (val nested) [] (fun v => Z.of_nat (length (encode nested v)))
                (rw nested) [[1; 2]; []] vec' (at_end [] []) cs'
                eq_refl Hf ltac:(concrete) Hrun) as [_ Hdiffer].
    apply (Hdiffer [1; 2] []).
    + apply elem_of_cons. left. reflexivity.
    + apply elem_of_cons. right. apply elem_of_cons. left. reflexivity.
    + vm_compute. discriminate.
  - destruct (ReadWriteArray 0 (fun el => el' <- ReadWrite 2 el ;; ret (true, el'))
                [1; 2; 3] inside)
      as [[arr' cs']|e] eqn:Hrun; [|vm_compute in Hrun; discriminate].
    exists arr', cs'. split; [reflexivity|].
    assert (Hf : Forall (fun el : Z =>
                           advances_by (el' <- ReadWrite 2 el ;; ret (true, el')) 2
                           /\ answers_true (el' <- ReadWrite 2 el ;; ret (true, el'))
                           /\ 0 <= 2 < uint64_max) [1; 2; 3])
      by (repeat (apply Forall_cons; split;
                  [split; [apply advances_by_counted, (advances_by_ReadWrite 2)
                          | split; [apply answers_true_counted
                                   | unfold uint64_max; lia]]|]);
          apply Forall_nil_2).
    destruct (Harr Z 0 (fun _ => 2) (fun el => el' <- ReadWrite 2 el ;; ret (true, el'))
                [1; 2; 3] arr' inside cs' eq_refl Hf ltac:(concrete) Hrun)
      as [Hsame _].
    apply (Hsame 2); [discriminate | repeat constructor | unfold uint32_max; lia].
  - assert (Hf : Forall (fun el : val nested =>
                           writes (rw nested el) el (encode nested el)) [[]; []])
      by (repeat (apply Forall_cons; split;
                  [apply (proj2 (Hrw nested []));
                   split; [unfold uint32_max; cbn; lia | apply Forall_nil_2]|]);
          apply Forall_nil_2).
    apply (proj1 (Hreturns (val nested) [] (rw nested) (encode nested) [[]; []]
                    [x07] [] Hf ltac:(concrete) ltac:(vm_compute; reflexivity))).
Defined.
